(** * Eternity II, parallel backtracking solver (done.c)

    A shallow embedding of the puzzle model, the corner classifier, the
    backtracking search [play] and the result protocol of [main], with the
    properties of the specification that were checked against them. *)

From stdpp Require Import gmap list sorting.
From Stdlib Require Import ZArith Lia Bool.

Local Open Scope Z_scope.

(** ** Machine integers *)

(** [unsigned int] arithmetic of the source wraps modulo 2^32. *)
Definition u32 (z : Z) : Z := z mod 2 ^ 32.

Definition UINT_MAX : Z := 2 ^ 32 - 1.

(** ** Data model *)

(** [tile]: [colors[4]] (North, East, South, West), [rotation], [id], [used].
    The four-element array is a 4-tuple; [used] is an [int] that the program
    only ever sets to 0 or 1 and tests for truth. *)
Record tile := Tile {
  colors : Z * Z * Z * Z;
  rotation : Z;
  tile_ident : Z;   (* field [id] of the source *)
  used : bool
}.

(** [t->colors[k]].  An index outside 0..3 is outside the array, which C
    leaves undefined (0 here); [X_COLOR] computes none while the rotation is
    within 0..3, as it is for every tile the program handles: [initialize]
    stores 0 and every later store is a loop variable that runs over 0..3 or
    a copy of one. *)
Definition color_at (c : Z * Z * Z * Z) (k : Z) : Z :=
  let '(c0, c1, c2, c3) := c in
  if k =? 0 then c0 else if k =? 1 then c1 else
  if k =? 2 then c2 else if k =? 3 then c3 else 0.

(** [#define X_COLOR(t, s) (t->colors[(s + 4 - t->rotation) % 4])];
    [%] on [int] truncates, as [Z.rem]. *)
Definition X_COLOR (t : tile) (s : Z) : Z :=
  color_at (colors t) (Z.rem (s + 4 - rotation t) 4).

Definition N_COLOR (t : tile) : Z := X_COLOR t 0.
Definition E_COLOR (t : tile) : Z := X_COLOR t 1.
Definition S_COLOR (t : tile) : Z := X_COLOR t 2.
Definition W_COLOR (t : tile) : Z := X_COLOR t 3.

(** [game]: [size], [tile_count], [board], [tiles].  A tile pointer
    [&g->tiles[i]] is the index [i]; a board cell [board[x][y]] holds such a
    pointer or NULL, so the board is a finite map from [(x, y)] to tile
    indices where an absent key is NULL.  [tiles] is allocated with
    [tile_count] elements in both places that allocate it, so [tile_count] is
    the length of the array. *)
Record game := Game {
  size : Z;
  board : gmap (Z * Z) nat;
  tiles : list tile
}.

Definition tile_count (g : game) : Z := Z.of_nat (length (tiles g)).

Definition null_tile : tile := Tile (0, 0, 0, 0) 0 0 false.

(** Dereference of the tile pointer [i]. *)
Definition get_tile (g : game) (i : nat) : tile := default null_tile (tiles g !! i).

(** ** Constraint checker *)

(** [cell != NULL && SIDE_N(cell) != SIDE_T(tile)] *)
Definition mismatch (g : game) (cell : option nat) (side_n : Z) (t : tile) (side_t : Z) : bool :=
  match cell with
  | Some n => negb (X_COLOR (get_tile g n) side_n =? X_COLOR t side_t)
  | None => false
  end.

Definition valid_move (g : game) (x y : Z) (ti : nat) : bool :=
  let t := get_tile g ti in
  if (x =? 0) && negb (W_COLOR t =? 0) then false else
  if (y =? 0) && negb (N_COLOR t =? 0) then false else
  if (x =? u32 (size g - 1)) && negb (E_COLOR t =? 0) then false else
  if (y =? u32 (size g - 1)) && negb (S_COLOR t =? 0) then false else
  if (0 <? x) && mismatch g (board g !! (u32 (x - 1), y)) 1 t 3 then false else
  if (x <? u32 (size g - 1)) && mismatch g (board g !! (u32 (x + 1), y)) 3 t 1 then false else
  if (0 <? y) && mismatch g (board g !! (x, u32 (y - 1))) 2 t 0 then false else
  if (y <? u32 (size g - 1)) && mismatch g (board g !! (x, u32 (y + 1))) 0 t 2 then false else
  true.

(** ** Corner classifier *)

Definition with_rotation (r : Z) (t : tile) : tile :=
  Tile (colors t) r (tile_ident t) (used t).

Definition with_used (b : bool) (t : tile) : tile :=
  Tile (colors t) (rotation t) (tile_ident t) b.

(** The body of [for (int rot = 0; rot < 4; rot++)] in [eh_peca_de_quina],
    [n] iterations left.  The result carries the tile as the function leaves
    it (its [rotation] is overwritten) and the two output parameters
    [(rotacao_valida, tipo_canto)] when the function returns 1. *)
Fixpoint quina_loop (n : nat) (rot : Z) (t : tile) : tile * option (Z * Z) :=
  match n with
  | O => (t, None)
  | S n' =>
      let t1 := with_rotation rot t in
      if (N_COLOR t1 =? 0) && (W_COLOR t1 =? 0) then (t1, Some (rot, 0))
      else if (N_COLOR t1 =? 0) && (E_COLOR t1 =? 0) then (t1, Some (rot, 1))
      else if (S_COLOR t1 =? 0) && (W_COLOR t1 =? 0) then (t1, Some (rot, 2))
      else if (S_COLOR t1 =? 0) && (E_COLOR t1 =? 0) then (t1, Some (rot, 3))
      else quina_loop n' (rot + 1) t1
  end.

Definition eh_peca_de_quina (t : tile) : tile * option (Z * Z) :=
  quina_loop 4 0 t.

(** [corner_info]: [tile_id], [rotation], [corner_type]. *)
Record corner_info := Corner {
  tile_id : Z;
  corner_rotation : Z;   (* field [rotation] of the source *)
  corner_type : Z
}.

(** One iteration of the loop of [separar_pecas_de_quina] on the tile [t]:
    the corner found, if any, and the tile with its rotation restored. *)
Definition separar_step (t : tile) : tile * option corner_info :=
  let rotacao_original := rotation t in
  let '(t1, res) := eh_peca_de_quina t in
  (with_rotation rotacao_original t1,
   match res with
   | Some (rotacao_valida, tipo_canto) =>
       Some (Corner (tile_ident t1) rotacao_valida tipo_canto)
   | None => None
   end).

Definition separar_pecas_de_quina (g : game) : game * list corner_info :=
  (Game (size g) (board g) (map (fun t => fst (separar_step t)) (tiles g)),
   omap (fun t => snd (separar_step t)) (tiles g)).

(** ** Search state of one process *)

Definition set_used (i : nat) (b : bool) (g : game) : game :=
  Game (size g) (board g) (alter (with_used b) i (tiles g)).

Definition set_rotation (i : nat) (r : Z) (g : game) : game :=
  Game (size g) (board g) (alter (with_rotation r) i (tiles g)).

(** [game->board[x][y] = v], [v] a tile pointer or NULL. *)
Definition set_cell (x y : Z) (v : option nat) (g : game) : game :=
  Game (size g) (partial_alter (fun _ => v) (x, y) (board g)) (tiles g).

(** The game and the globals of the process: [rank], [size] (here
    [comm_size]), [global_stop], [global_solution_found], [solution_owner],
    the static [check_counter] of [play] (an [int]; its overflow after 2^31
    calls is left out), and the two ends of the message layer: [probes]
    lists what the successive [MPI_Iprobe] calls on tag 999 will find
    ([Some v]: a message with payload [v] is pending and is then received;
    [None]: nothing pending; an exhausted list: nothing pending), [sent]
    lists the [MPI_Send] calls made so far as (destination, payload). *)
Record proc := Proc {
  gm : game;
  rank : Z;
  comm_size : Z;
  global_stop : bool;
  global_solution_found : bool;
  solution_owner : Z;
  check_counter : Z;
  probes : list (option Z);
  sent : list (Z * Z)
}.

Definition with_game (g : game) (p : proc) : proc :=
  Proc g (rank p) (comm_size p) (global_stop p) (global_solution_found p)
       (solution_owner p) (check_counter p) (probes p) (sent p).

Definition tick (p : proc) : proc :=
  Proc (gm p) (rank p) (comm_size p) (global_stop p) (global_solution_found p)
       (solution_owner p) (check_counter p + 1) (probes p) (sent p).

(** [for (p = 0; p < size; p++) if (p != rank) MPI_Send(&rank, .., p, 999, ..)] *)
Definition stop_messages (rk n : Z) : list (Z * Z) :=
  map (fun q => (q, rk)) (filter (fun q => q ≠ rk) (seqZ 0 n)).

(** [global_stop = 1] followed by the sends. *)
Definition notify (p : proc) : proc :=
  Proc (gm p) (rank p) (comm_size p) true (global_solution_found p)
       (solution_owner p) (check_counter p) (probes p)
       (sent p ++ stop_messages (rank p) (comm_size p)).

(** The periodic check, after [check_counter++]: the flag says whether a
    stop message was received (and [play] returns 0 at once). *)
Definition poll (p : proc) : bool * proc :=
  if Z.rem (check_counter p) 1000 =? 0 then
    match probes p with
    | Some stop_signal :: rest =>
        (true, Proc (gm p) (rank p) (comm_size p) (global_stop p) true
                    stop_signal (check_counter p) rest (sent p))
    | None :: rest =>
        (false, Proc (gm p) (rank p) (comm_size p) (global_stop p)
                     (global_solution_found p) (solution_owner p)
                     (check_counter p) rest (sent p))
    | [] => (false, p)
    end
  else (false, p).

(** The next position computed in [play]: [(size, size)] stands for
    "board complete". *)
Definition next_cell (sz x y : Z) : Z * Z :=
  if x <? u32 (sz - 1) then (u32 (x + 1), y)
  else if y <? u32 (sz - 1) then (0, u32 (y + 1))
  else (sz, sz).

(** ** Backtracking search *)

(** The result of a call of [play]: its return value and the state it
    leaves; [None] when the fuel (recursion depth) ran out. *)
Definition outcome : Type := option (bool * proc).

Section loops.
(** The recursive call [play(game, nx, ny)]. *)
Variable rec : proc -> Z -> Z -> outcome.
Variables x y : Z.

(** [for (int rot = ...; rot < 4; rot++)] on the tile [i], [n] iterations
    left. *)
Fixpoint rot_loop (i : nat) (n : nat) (rot : Z) (p : proc) : outcome :=
  match n with
  | O => Some (false, p)
  | S n' =>
      let p1 := with_game (set_rotation i rot (gm p)) p in
      if valid_move (gm p1) x y i then
        let p2 := with_game (set_cell x y (Some i) (gm p1)) p1 in
        let '(nx, ny) := next_cell (size (gm p2)) x y in
        if ny =? size (gm p2) then Some (true, notify p2)
        else
          match rec p2 nx ny with
          | None => None
          | Some (true, p3) => Some (true, notify p3)
          | Some (false, p3) =>
              rot_loop i n' (rot + 1) (with_game (set_cell x y None (gm p3)) p3)
          end
      else rot_loop i n' (rot + 1) p1
  end.

(** [for (int i = ...; i < game->tile_count; i++)], [n] iterations left. *)
Fixpoint tiles_loop (n : nat) (i : nat) (p : proc) : outcome :=
  match n with
  | O => Some (false, p)
  | S n' =>
      if used (get_tile (gm p) i) then tiles_loop n' (S i) p
      else
        match rot_loop i 4 0 (with_game (set_used i true (gm p)) p) with
        | None => None
        | Some (true, p') => Some (true, p')
        | Some (false, p') =>
            tiles_loop n' (S i) (with_game (set_used i false (gm p')) p')
        end
  end.
End loops.

Fixpoint play (fuel : nat) (p : proc) (x y : Z) : outcome :=
  match fuel with
  | O => None
  | S fuel' =>
      if global_stop p then Some (false, p)
      else
        let '(received, p1) := poll (tick p) in
        if received then Some (false, p1)
        else if global_solution_found p1 then Some (false, p1)
        else tiles_loop (play fuel') x y (length (tiles (gm p1))) 0 p1
  end.

(** ** The place step as the specification words it

    The candidates of a cell are the pairs (tile, rotation) of the tiles
    that are unused on entry, rotations 0..3, in ascending order; they are
    tried in that order.  [play_by_candidates] is [play] with its two nested
    loops replaced by one pass over that list. *)

Definition candidates_from (g : game) (i n : nat) : list (nat * Z) :=
  j ← filter (fun j => used (get_tile g j) = false) (seq i n);
  (fun r => (j, r)) <$> [0; 1; 2; 3].

Definition candidates (g : game) : list (nat * Z) :=
  candidates_from g 0 (length (tiles g)).

Section by_candidates.
Variable rec : proc -> Z -> Z -> outcome.
Variables x y : Z.

Fixpoint try_candidates (cs : list (nat * Z)) (p : proc) : outcome :=
  match cs with
  | [] => Some (false, p)
  | (i, rot) :: cs' =>
      let p1 := with_game (set_rotation i rot (set_used i true (gm p))) p in
      if valid_move (gm p1) x y i then
        let p2 := with_game (set_cell x y (Some i) (gm p1)) p1 in
        let '(nx, ny) := next_cell (size (gm p2)) x y in
        if ny =? size (gm p2) then Some (true, notify p2)
        else
          match rec p2 nx ny with
          | None => None
          | Some (true, p3) => Some (true, notify p3)
          | Some (false, p3) =>
              try_candidates cs'
                (with_game (set_used i false (set_cell x y None (gm p3))) p3)
          end
      else try_candidates cs' (with_game (set_used i false (gm p1)) p1)
  end.
End by_candidates.

Fixpoint play_by_candidates (fuel : nat) (p : proc) (x y : Z) : outcome :=
  match fuel with
  | O => None
  | S fuel' =>
      if global_stop p then Some (false, p)
      else
        let '(received, p1) := poll (tick p) in
        if received then Some (false, p1)
        else if global_solution_found p1 then Some (false, p1)
        else try_candidates (play_by_candidates fuel') x y (candidates (gm p1)) p1
  end.

(** Ascending (tile, rotation) order. *)
Definition cand_lt (a b : nat * Z) : Prop :=
  (a.1 < b.1)%nat ∨ (a.1 = b.1 ∧ a.2 < b.2).

(** ** The two conditions of the constraint checker, as specified *)

(** (i) every side of the tile on the boundary of the board shows color 0 *)
Definition border_sides_ok (g : game) (x y : Z) (t : tile) : Prop :=
  (x = 0 → W_COLOR t = 0) ∧ (y = 0 → N_COLOR t = 0) ∧
  (x = size g - 1 → E_COLOR t = 0) ∧ (y = size g - 1 → S_COLOR t = 0).

(** (ii) every occupied orthogonal neighbour shows, on its facing side, the
    color of the facing side of the tile *)
Definition neighbours_ok (g : game) (x y : Z) (t : tile) : Prop :=
  (∀ n, 0 < x → board g !! (x - 1, y) = Some n → E_COLOR (get_tile g n) = W_COLOR t) ∧
  (∀ n, x < size g - 1 → board g !! (x + 1, y) = Some n → W_COLOR (get_tile g n) = E_COLOR t) ∧
  (∀ n, 0 < y → board g !! (x, y - 1) = Some n → S_COLOR (get_tile g n) = N_COLOR t) ∧
  (∀ n, y < size g - 1 → board g !! (x, y + 1) = Some n → N_COLOR (get_tile g n) = S_COLOR t).

(** Well-formed games: the dimension is a positive [unsigned int], every
    rotation is one of 0..3 and every board cell points into the tile array. *)
Definition wf_game (g : game) : Prop :=
  0 < size g ≤ UINT_MAX ∧
  Forall (fun t => 0 ≤ rotation t ≤ 3) (tiles g) ∧
  map_Forall (fun _ n => (n < length (tiles g))%nat) (board g).

Definition in_bounds (g : game) (x y : Z) : Prop :=
  0 ≤ x < size g ∧ 0 ≤ y < size g.

(** The corner conditions of the classifier: type 0 is North and West,
    1 North and East, 2 South and West, 3 South and East. *)
Definition corner_cond (t : tile) (k : Z) : bool :=
  if k =? 0 then (N_COLOR t =? 0) && (W_COLOR t =? 0)
  else if k =? 1 then (N_COLOR t =? 0) && (E_COLOR t =? 0)
  else if k =? 2 then (S_COLOR t =? 0) && (W_COLOR t =? 0)
  else if k =? 3 then (S_COLOR t =? 0) && (E_COLOR t =? 0)
  else false.

(** Two orthogonally adjacent sides ([s] and the next one clockwise) are
    border-colored. *)
Definition adjacent_border (t : tile) : Prop :=
  ∃ s, 0 ≤ s ≤ 3 ∧ X_COLOR t s = 0 ∧ X_COLOR t (Z.rem (s + 1) 4) = 0.

(** Row-major order of the cells: [c] comes before [(x, y)] in the scan. *)
Definition before (c : Z * Z) (x y : Z) : Prop :=
  c.2 < y ∨ (c.2 = y ∧ c.1 < x).

(** Number of cells from [(x, y)] to the last one, both included. *)
Definition cells_left (sz x y : Z) : nat := Z.to_nat (sz * sz - (y * sz + x)).

(** ** The driver [main] *)

(** [initialize], on the numbers that [fscanf] reads: the dimension, the
    number of colors and the records of four colors.  [None] is a failed
    [assert]. *)
Definition initialize (bsize ncolors : Z) (records : list (Z * Z * Z * Z)) : option game :=
  let n := Z.to_nat (u32 (bsize * bsize)) in
  if (ncolors <? 256) && (n <=? length records)%nat then
    Some (Game bsize ∅ (imap (fun i c => Tile c 0 (Z.of_nat i) false) (take n records)))
  else None.

(** The [switch] on the corner type; the coordinates start as [(0, 0)]. *)
Definition corner_cell (sz : Z) (ctype : Z) : Z * Z :=
  if ctype =? 0 then (0, 0)
  else if ctype =? 1 then (u32 (sz - 1), 0)
  else if ctype =? 2 then (0, u32 (sz - 1))
  else if ctype =? 3 then (u32 (sz - 1), u32 (sz - 1))
  else (0, 0).

(** The board emptied, every tile unused, then the corner tile placed. *)
Definition seed_board (g : game) (c : corner_info) : game :=
  let g0 := Game (size g) ∅ (map (with_used false) (tiles g)) in
  let '(corner_x, corner_y) := corner_cell (size g) (corner_type c) in
  let i := Z.to_nat (tile_id c) in
  set_cell corner_x corner_y (Some i)
    (set_used i true (set_rotation i (corner_rotation c) g0)).

(** The cells of the board, rows top to bottom, each row left to right. *)
Definition cells (sz : Z) : list (Z * Z) :=
  cy ← seqZ 0 sz; (fun cx => (cx, cy)) <$> seqZ 0 sz.

(** The first empty cell of that scan, [(size, size)] when there is none. *)
Definition find_start (g : game) : Z * Z :=
  match List.find (fun c => bool_decide (board g !! c = None)) (cells (size g)) with
  | Some c => c
  | None => (size g, size g)
  end.

(** Recursion depth that the search of a board of this dimension cannot
    exceed. *)
Definition search_fuel (g : game) : nat := S (Z.to_nat (size g * size g)).

(** The active part of [main] up to the return of [play]: the process [rk]
    of [nprocs], on the tiles and corners that rank 0 broadcast. *)
Definition worker (g : game) (corners : list corner_info) (rk nprocs : Z)
    (pr : list (option Z)) : outcome :=
  let c := default (Corner 0 0 0) (corners !! Z.to_nat rk) in
  let g1 := seed_board g c in
  let '(start_x, start_y) := find_start g1 in
  let p0 := Proc g1 rk nprocs false false (-1) 0 pr [] in
  if start_y <? size g1 then play (search_fuel g1) p0 start_x start_y
  else Some (false, p0).

Definition effective_processes (nprocs num_corners : Z) : Z :=
  if nprocs <? num_corners then nprocs else num_corners.

Definition active (rk nprocs num_corners : Z) : bool :=
  rk <? effective_processes nprocs num_corners.

(** [MPI_Allreduce] with [MPI_MAX] and [MPI_MIN] over the contributions of
    the members of the communicator, in rank order. *)
Definition allreduce_max (xs : list Z) : Z := foldr Z.max (hd 0 xs) xs.
Definition allreduce_min (xs : list Z) : Z := foldr Z.min (hd 0 xs) xs.

(** [local_solution] of the active processes, in rank order, to the value
    [global_result] of the first reduction. *)
Definition global_result (locals : list bool) : Z :=
  allreduce_max (Z.b2z <$> locals).

(** [has_solution = local_solution ? rank : effective_processes] *)
Definition has_solution (eff : Z) (rk : nat) (local_solution : bool) : Z :=
  if local_solution then Z.of_nat rk else eff.

(** [winner_rank], the value of the second reduction. *)
Definition winner_rank (locals : list bool) : Z :=
  allreduce_min (imap (has_solution (Z.of_nat (length locals))) locals).

(** [local_solution && rank == winner_rank]: this process prints its board. *)
Definition prints_solution (locals : list bool) (rk : nat) : bool :=
  default false (locals !! rk) && (Z.of_nat rk =? winner_rank locals).

(** [solution_found] of an active process after the reductions. *)
Definition solution_found_active (locals : list bool) : Z :=
  if global_result locals =? 0 then 0 else 1.

(** The collective calls on [MPI_COMM_WORLD], in program order, of the
    process [rk]: each broadcast is named by the variable it transmits. *)
Inductive collective :=
  | Bcast_num_corners
  | Bcast_game_size
  | Bcast_tile_count
  | Bcast_tiles
  | Bcast_corners
  | Comm_split
  | Bcast_solution_found.

Definition world_collectives (rk nprocs num_corners : Z) : list collective :=
  Bcast_num_corners ::
  if num_corners =? 0 then []
  else
    (if active rk nprocs num_corners
     then [Bcast_game_size; Bcast_tile_count; Bcast_tiles; Bcast_corners; Comm_split]
     else [])
    ++ [Bcast_solution_found].

(** The [int] that the root holds in the buffer of a broadcast, when the
    buffer is one integer. *)
Definition root_buffer (g : game) (num_corners root_solution_found : Z)
    (c : collective) : option Z :=
  match c with
  | Bcast_num_corners => Some num_corners
  | Bcast_game_size => Some (size g)
  | Bcast_tile_count => Some (tile_count g)
  | Bcast_solution_found => Some root_solution_found
  | _ => None
  end.

(** The value that the final [MPI_Bcast(&solution_found, 1, MPI_INT, 0,
    MPI_COMM_WORLD)] leaves in the process [rk].  The collective calls of a
    communicator are matched in the order in which each process issues them
    (MPI standard, collective communication), so the k-th call of a process
    receives what the root sends in its own k-th call. *)
Definition final_solution_found (g : game) (locals : list bool)
    (rk nprocs num_corners : Z) : option Z :=
  let mine := world_collectives rk nprocs num_corners in
  let root := world_collectives 0 nprocs num_corners in
  c ← root !! (length mine - 1)%nat;
  root_buffer g num_corners (solution_found_active locals) c.

(** [MPI_Comm_split(MPI_COMM_WORLD, ...)] is collective over
    [MPI_COMM_WORLD]: it completes in a process once every process of the
    communicator has called it.  Only the active processes call it. *)
Definition split_completes (nprocs num_corners : Z) : bool :=
  nprocs <=? num_corners.

(** The value that [main] returns in the process [rk]:
    [return solution_found ? 0 : 1], and [return 1] when no corner exists;
    [None] when the process never gets past [MPI_Comm_split]. *)
Definition exit_status (g : game) (locals : list bool)
    (rk nprocs num_corners : Z) : option Z :=
  if num_corners =? 0 then Some 1
  else if active rk nprocs num_corners && negb (split_completes nprocs num_corners)
  then None
  else
    v ← final_solution_found g locals rk nprocs num_corners;
    Some (if v =? 0 then 1 else 0).

(** The local results of the active processes of a run: [pr rk] lists what
    the probes of the process [rk] find. *)
Definition local_solutions (g : game) (corners : list corner_info) (nprocs : Z)
    (pr : Z → list (option Z)) : list (option bool) :=
  (fun rk => fst <$> worker g corners rk nprocs (pr rk))
    <$> seqZ 0 (effective_processes nprocs (Z.of_nat (length corners))).

(** A board is solved when every cell holds a tile that [valid_move]
    accepts there, and no tile lies on two cells. *)
Definition solved (g : game) : bool :=
  forallb (fun c => match board g !! c with
                    | Some i => (i <? length (tiles g))%nat && valid_move g c.1 c.2 i
                    | None => false
                    end) (cells (size g))
  && bool_decide (NoDup (omap (fun c => board g !! c) (cells (size g)))).

(** ** What a call of [play] leaves behind *)

(** The positions at which [play] is called. *)
Definition good (p : proc) (x y : Z) : Prop :=
  0 < size (gm p) ≤ UINT_MAX ∧ in_bounds (gm p) x y.

(** Kept by every call at [(x, y)], whatever it returns: the dimension, the
    identity of the process, the tile array but for rotations and flags of
    tiles that were unused, and the cells before [(x, y)].  [skip] names the
    tile that the enclosing loop is rotating. *)
Definition kept (skip : option nat) (x y : Z) (p p' : proc) : Prop :=
  size (gm p') = size (gm p) ∧ rank p' = rank p ∧ comm_size p' = comm_size p ∧
  length (tiles (gm p')) = length (tiles (gm p)) ∧
  (∀ j, colors (get_tile (gm p') j) = colors (get_tile (gm p) j)) ∧
  (∀ c, before c x y → board (gm p') !! c = board (gm p) !! c) ∧
  (∀ j, skip ≠ Some j → used (get_tile (gm p) j) = true →
        get_tile (gm p') j = get_tile (gm p) j).

(** Left by a call that returns 0: flags, messages and stop flag as on
    entry, every cell as on entry or emptied. *)
Definition undone (p p' : proc) : Prop :=
  (∀ j, used (get_tile (gm p') j) = used (get_tile (gm p) j)) ∧
  sent p' = sent p ∧ global_stop p' = global_stop p ∧
  (∀ c, board (gm p') !! c = board (gm p) !! c ∨ board (gm p') !! c = None).

(** Left by a call at [(x, y)] that returns 1: the stop flag set, and one
    round of stop messages for each cell from [(x, y)] to the last. *)
Definition announced (x y : Z) (p p' : proc) : Prop :=
  sent p' = sent p ++ mjoin (replicate (cells_left (size (gm p)) x y)
                                       (stop_messages (rank p) (comm_size p))) ∧
  global_stop p' = true.

Definition post (skip : option nat) (x y : Z) (p : proc) (r : bool) (p' : proc) : Prop :=
  kept skip x y p p' ∧ if r then announced x y p p' else undone p p'.

(** The rotations [rot, rot + 1, ...] that [n] iterations of the rotation
    loop go through. *)
Fixpoint rots (rot : Z) (n : nat) : list Z :=
  match n with
  | O => []
  | S n' => rot :: rots (rot + 1) n'
  end.

(** Two states of a process that differ at most in what the cell [(x, y)]
    holds. *)
Definition same_but (x y : Z) (p q : proc) : Prop :=
  ∃ v, q = with_game (set_cell x y v (gm p)) p.

(** Two outcomes with the same return value and states that differ at most
    in the cell [(x, y)]. *)
Definition same_outcome (x y : Z) (o o' : outcome) : Prop :=
  match o, o' with
  | Some (r, p), Some (r', p') => r = r' ∧ same_but x y p p'
  | None, None => True
  | _, _ => False
  end.

(** The cell reached from [c] by [k] steps of the advance rule. *)
Definition scan (sz : Z) (k : nat) (c : Z * Z) : Z * Z :=
  Nat.iter k (fun c => next_cell sz c.1 c.2) c.

(** Every tile that lies on the board is marked used. *)
Definition placed_used (g : game) : Prop :=
  map_Forall (fun _ j => used (get_tile g j) = true) (board g).

(** The cell [(x, y)] no longer holds the tile [c], which is still marked
    used. *)
Definition touched (x y : Z) (c : nat) (q : proc) : Prop :=
  used (get_tile (gm q) c) = true ∧ board (gm q) !! (x, y) ≠ Some c.

(** [q] is [p] but for rotations and flags of tiles that are unused in [p]. *)
Definition clean (p q : proc) : Prop :=
  size (gm q) = size (gm p) ∧ board (gm q) = board (gm p) ∧
  length (tiles (gm q)) = length (tiles (gm p)) ∧
  (∀ j, colors (get_tile (gm q) j) = colors (get_tile (gm p) j)) ∧
  (∀ j, used (get_tile (gm p) j) = true → get_tile (gm q) j = get_tile (gm p) j).

(** Number of tiles that are not marked used. *)
Definition unused_count (g : game) : nat :=
  length (filter (fun t => used t = false) (tiles g)).

(** ** Whole runs and sample puzzles *)

(** What rank 0 computes before the first broadcast: the game read from the
    input and the corner list. *)
Definition setup (bsize ncolors : Z) (records : list (Z * Z * Z * Z))
    : option (game * list corner_info) :=
  separar_pecas_de_quina <$> initialize bsize ncolors records.

(** The exit status of the process [rk] of a run of [nprocs] processes on an
    input, when every search returns. *)
Definition run_exit (bsize ncolors : Z) (records : list (Z * Z * Z * Z))
    (nprocs : Z) (pr : Z → list (option Z)) (rk : Z) : option Z :=
  '(g, corners) ← setup bsize ncolors records;
  locals ← mapM id (local_solutions g corners nprocs pr);
  exit_status g locals rk nprocs (Z.of_nat (length corners)).

Definition load (records : list (Z * Z * Z * Z)) : game :=
  default (Game 0 ∅ []) (initialize 2 5 records).

(** A 2 x 2 puzzle stored as solved: its tiles are corners of the four types
    NW, NE, SW, SE in this order. *)
Definition puzzle_nw : list (Z * Z * Z * Z) :=
  [(0, 1, 2, 0); (0, 0, 3, 1); (2, 4, 0, 0); (3, 0, 0, 4)].

(** The same four tiles, each stored with its border sides to the North and
    East: every tile is classified as a NE corner with rotation 0. *)
Definition puzzle_ne : list (Z * Z * Z * Z) :=
  [(0, 0, 1, 2); (0, 0, 3, 1); (0, 0, 2, 4); (0, 0, 4, 3)].

(** The tiling of [puzzle_ne] that extends the board seeded with tile 1 in
    the NE corner: tile 0 turned three times in the NW corner, tile 2 twice
    in the SW corner, tile 3 once in the SE corner. *)
Definition tiling_ne : game :=
  let g0 := seed_board (load puzzle_ne) (Corner 1 0 1) in
  let g1 := set_cell 0 0 (Some 0%nat) (set_used 0 true (set_rotation 0 3 g0)) in
  let g2 := set_cell 0 1 (Some 2%nat) (set_used 2 true (set_rotation 2 2 g1)) in
  set_cell 1 1 (Some 3%nat) (set_used 3 true (set_rotation 3 1 g2)).

(** A puzzle with two copies of the NE corner tile. *)
Definition puzzle_dup : list (Z * Z * Z * Z) :=
  [(0, 0, 1, 2); (0, 0, 3, 1); (0, 0, 3, 1); (0, 0, 4, 3)].

(** A puzzle with one corner tile and no solution. *)
Definition puzzle_one : list (Z * Z * Z * Z) :=
  [(0, 1, 1, 0); (1, 1, 1, 1); (1, 1, 1, 1); (1, 1, 1, 1)].

(** A 3 x 3 board with one tile in the middle of the top row and a candidate
    whose four sides are border-colored. *)
Definition zero_game : game :=
  Game 3 {[ (1, 0) := 0%nat ]}
       [Tile (0, 0, 0, 0) 0 0 true; Tile (0, 0, 0, 0) 0 1 false].

(** The process of rank [rk] among [nprocs] at the start of its search on
    the game [g]. *)
Definition fresh (g : game) (rk nprocs : Z) : proc :=
  Proc g rk nprocs false false (-1) 0 [] [].

(** The state in which the process seeded with tile 1 of [puzzle_dup] calls
    [play] on the NE corner [(1, 0)], after one call of [play] has put tile 0,
    turned three times, in the NW corner. *)
Definition dup_at_corner : proc :=
  Proc (set_cell 0 0 (Some 0%nat)
          (set_used 0 true
             (set_rotation 0 3 (seed_board (load puzzle_dup) (Corner 1 0 1)))))
       1 4 false false (-1) 1 [] [].

(** Closes a decidable side condition on given data by evaluation. *)
Ltac by_evaluation := apply (bool_decide_unpack _); vm_compute; exact I.

(** Both are decidable, so that they can be checked on a given game. *)
#[global] Instance wf_game_dec (g : game) : Decision (wf_game g).
Proof. unfold wf_game. apply _. Defined.

#[global] Instance placed_used_dec (g : game) : Decision (placed_used g).
Proof. unfold placed_used. apply _. Defined.

(** ** Predicates and sample data of the further properties *)

(** [c] comes before [d] in the row-major scan. *)
Definition cell_lt (c d : Z * Z) : Prop := before c d.1 d.2.

(** [print_solution]: the lines [id rotation] that it prints, one for each
    cell, rows top to bottom and each row left to right.  The function
    dereferences the cell, so it has no result on a board with an empty
    cell. *)
Definition print_solution (g : game) : option (list (Z * Z)) :=
  mapM (fun c => i ← board g !! c;
                 Some (tile_ident (get_tile g i), rotation (get_tile g i)))
       (cells (size g)).

(** The cells before [(x, y)] hold a partial tiling and the others are
    empty: every cell of the board before [(x, y)] is occupied; an occupied
    cell lies on the board before [(x, y)] and holds a tile of the array
    that is marked used and that [valid_move] accepts there; no tile lies on
    two cells. *)
Definition tiled (g : game) (x y : Z) : Prop :=
  Forall (fun c => before c x y → is_Some (board g !! c)) (cells (size g)) ∧
  map_Forall (fun c i =>
     in_bounds g c.1 c.2 ∧ before c x y ∧ (i < length (tiles g))%nat ∧
     used (get_tile g i) = true ∧ 0 ≤ rotation (get_tile g i) ≤ 3 ∧
     valid_move g c.1 c.2 i = true) (board g) ∧
  map_Forall (fun c i => map_Forall (fun c' i' => i = i' → c = c') (board g)) (board g).

#[global] Instance tiled_dec (g : game) (x y : Z) : Decision (tiled g x y).
Proof. unfold tiled, before, in_bounds. apply _. Defined.

(** Every tile that is marked used lies on the board. *)
Definition used_placed (g : game) : Prop :=
  Forall (fun j => used (get_tile g j) = true → map_Exists (fun _ i => i = j) (board g))
         (seq 0 (length (tiles g))).

(** No stop is under way: both flags are clear and no probe will find a
    message. *)
Definition quiet (p : proc) : Prop :=
  global_stop p = false ∧ global_solution_found p = false ∧
  Forall (fun o => o = None) (probes p).

(** [g'] is a complete tiling that extends the board of [g]: the same
    dimension and the same tiles, every tile on the board of [g] on the same
    cell and in the same rotation, and every cell filled. *)
Definition extends (g g' : game) : Prop :=
  size g' = size g ∧ length (tiles g') = length (tiles g) ∧
  Forall (fun j => colors (get_tile g' j) = colors (get_tile g j))
         (seq 0 (length (tiles g))) ∧
  map_Forall (fun c i => board g' !! c = Some i ∧
                         rotation (get_tile g' i) = rotation (get_tile g i)) (board g) ∧
  tiled g' (size g') (size g').

#[global] Instance used_placed_dec (g : game) : Decision (used_placed g).
Proof. unfold used_placed. apply _. Defined.

#[global] Instance quiet_dec (p : proc) : Decision (quiet p).
Proof. unfold quiet. apply _. Defined.

#[global] Instance extends_dec (g g' : game) : Decision (extends g g').
Proof. unfold extends. apply _. Defined.

(** What a cell holds: the index of its tile and the rotation of the tile. *)
Definition placed (g : game) (c : Z * Z) : option (nat * Z) :=
  i ← board g !! c; Some (i, rotation (get_tile g i)).

(** On the cell [c], [h] holds a pair (tile, rotation) that [play] tries
    before the pair that [g'] holds there. *)
Definition placed_lt (h g' : game) (c : Z * Z) : Prop :=
  match placed h c, placed g' c with
  | Some a, Some b => cand_lt a b
  | _, _ => False
  end.

(** [h] comes first: the two boards hold the same tiles in the same
    rotations, or on the first cell, in the order of the scan, where they
    differ, [h] holds the pair that is tried first. *)
Definition comes_first (h g' : game) : Prop :=
  Forall (fun c => placed h c = placed g' c) (cells (size h)) ∨
  Exists (fun c =>
            Forall (fun c' => before c' c.1 c.2 → placed h c' = placed g' c')
                   (cells (size h)) ∧
            placed_lt h g' c) (cells (size h)).

#[global] Instance placed_lt_dec (h g' : game) (c : Z * Z) : Decision (placed_lt h g' c).
Proof.
  unfold placed_lt. destruct (placed h c), (placed g' c); unfold cand_lt; apply _.
Defined.

#[global] Instance comes_first_dec (h g' : game) : Decision (comes_first h g').
Proof. unfold comes_first, before. apply _. Defined.

(** Between [p] and [p'] the counter of calls did not go back, and the
    probes that were made are at most one for each multiple of 1000 that the
    counter reached. *)
Definition polled (p p' : proc) : Prop :=
  check_counter p ≤ check_counter p' ∧
  ∃ taken, probes p = taken ++ probes p' ∧
           Z.of_nat (length taken) ≤ check_counter p' / 1000 - check_counter p / 1000.

(** [(x, y)] is the last cell of the board. *)
Definition last_cell (sz x y : Z) : Prop := (next_cell sz x y).2 = sz.

(** The corner list of [puzzle_nw]. *)
Definition corners_nw : list corner_info :=
  [Corner 0 0 0; Corner 1 0 1; Corner 2 0 2; Corner 3 0 3].

(** The tiling of [puzzle_nw] as it is stored: every tile unturned, on the
    cell of its index. *)
Definition tiling_nw : game :=
  let g0 := seed_board (load puzzle_nw) (Corner 0 0 0) in
  let g1 := set_cell 1 0 (Some 1%nat) (set_used 1 true (set_rotation 1 0 g0)) in
  let g2 := set_cell 0 1 (Some 2%nat) (set_used 2 true (set_rotation 2 0 g1)) in
  set_cell 1 1 (Some 3%nat) (set_used 3 true (set_rotation 3 0 g2)).

(** A puzzle without a corner tile. *)
Definition puzzle_plain : list (Z * Z * Z * Z) :=
  [(1, 1, 1, 1); (1, 1, 1, 1); (1, 1, 1, 1); (1, 1, 1, 1)].

(** A process that is about to make its 1000th call of [play], with a stop
    message of process 3 pending. *)
Definition about_to_probe : proc :=
  Proc (seed_board (load puzzle_nw) (Corner 0 0 0)) 0 4 false false (-1) 999 [Some 3] [].

(** The process 0 of 4 at the start of its search on [puzzle_nw], with a
    stop message of process 3 pending. *)
Definition with_pending_stop : proc :=
  Proc (seed_board (load puzzle_nw) (Corner 0 0 0)) 0 4 false false (-1) 0 [Some 3] [].

(** Four copies of one corner tile: each fits every corner of the 2 x 2
    board in some rotation, so the board has several tilings. *)
Definition puzzle_alike : list (Z * Z * Z * Z) :=
  [(0, 1, 1, 0); (0, 1, 1, 0); (0, 1, 1, 0); (0, 1, 1, 0)].

(** The tiling of [puzzle_alike] with tile 0 in the NW corner, tile 2 in the
    NE corner, tile 1 in the SW corner and tile 3 in the SE corner. *)
Definition tiling_alike : game :=
  let g0 := seed_board (load puzzle_alike) (Corner 0 0 0) in
  let g1 := set_cell 1 0 (Some 2%nat) (set_used 2 true (set_rotation 2 1 g0)) in
  let g2 := set_cell 0 1 (Some 1%nat) (set_used 1 true (set_rotation 1 3 g1)) in
  set_cell 1 1 (Some 3%nat) (set_used 3 true (set_rotation 3 2 g2)).

(** * Properties *)

(** ** The constraint checker *)

Lemma u32_small z : 0 ≤ z ≤ UINT_MAX → u32 z = z.
Proof. unfold u32, UINT_MAX. intros H. apply Z.mod_small. lia. Qed.

Lemma valid_move_conj g x y ti :
  valid_move g x y ti =
    let t := get_tile g ti in
    negb ((x =? 0) && negb (W_COLOR t =? 0)) &&
    negb ((y =? 0) && negb (N_COLOR t =? 0)) &&
    negb ((x =? u32 (size g - 1)) && negb (E_COLOR t =? 0)) &&
    negb ((y =? u32 (size g - 1)) && negb (S_COLOR t =? 0)) &&
    negb ((0 <? x) && mismatch g (board g !! (u32 (x - 1), y)) 1 t 3) &&
    negb ((x <? u32 (size g - 1)) && mismatch g (board g !! (u32 (x + 1), y)) 3 t 1) &&
    negb ((0 <? y) && mismatch g (board g !! (x, u32 (y - 1))) 2 t 0) &&
    negb ((y <? u32 (size g - 1)) && mismatch g (board g !! (x, u32 (y + 1))) 0 t 2).
Proof.
  unfold valid_move. cbv zeta.
  repeat match goal with
  | |- context [if ?c then false else _] => destruct c; simpl; try reflexivity
  end.
Qed.

Lemma border_test_iff (b : bool) (c : Z) (P : Prop) :
  (b = true ↔ P) → negb (b && negb (c =? 0)) = true ↔ (P → c = 0).
Proof.
  intros HP. destruct b; simpl.
  - rewrite negb_involutive, Z.eqb_eq. split; [tauto|]. intros H; apply H, HP; reflexivity.
  - split; [|reflexivity]. intros _ HP'. apply HP in HP'. discriminate.
Qed.

Lemma neighbour_test_iff g (b : bool) cell sn t st (P : Prop) :
  (b = true ↔ P) →
  negb (b && mismatch g cell sn t st) = true ↔
  (∀ n, P → cell = Some n → X_COLOR (get_tile g n) sn = X_COLOR t st).
Proof.
  intros HP. destruct b; simpl.
  - destruct cell as [n|]; simpl.
    + rewrite negb_involutive, Z.eqb_eq. split.
      * intros H n' _ [= <-]. exact H.
      * intros H. apply (H n); [apply HP|]; reflexivity.
    + split; [|reflexivity]. intros _ n _ [=].
  - split; [|reflexivity]. intros _ n HP'. apply HP in HP'. discriminate.
Qed.

(** [valid_move] returns 1 exactly when none of its eight tests fires. *)
Lemma valid_move_tests g x y ti :
  valid_move g x y ti = true ↔
  (((((((x = 0 → X_COLOR (get_tile g ti) 3 = 0) ∧
        (y = 0 → X_COLOR (get_tile g ti) 0 = 0)) ∧
       (x = u32 (size g - 1) → X_COLOR (get_tile g ti) 1 = 0)) ∧
      (y = u32 (size g - 1) → X_COLOR (get_tile g ti) 2 = 0)) ∧
     (∀ n, 0 < x → board g !! (u32 (x - 1), y) = Some n →
           X_COLOR (get_tile g n) 1 = X_COLOR (get_tile g ti) 3)) ∧
    (∀ n, x < u32 (size g - 1) → board g !! (u32 (x + 1), y) = Some n →
          X_COLOR (get_tile g n) 3 = X_COLOR (get_tile g ti) 1)) ∧
   (∀ n, 0 < y → board g !! (x, u32 (y - 1)) = Some n →
         X_COLOR (get_tile g n) 2 = X_COLOR (get_tile g ti) 0)) ∧
  (∀ n, y < u32 (size g - 1) → board g !! (x, u32 (y + 1)) = Some n →
        X_COLOR (get_tile g n) 0 = X_COLOR (get_tile g ti) 2).
Proof.
  rewrite valid_move_conj. cbv zeta.
  rewrite !andb_true_iff.
  unfold N_COLOR, E_COLOR, S_COLOR, W_COLOR.
  rewrite (border_test_iff _ _ (x = 0)) by apply Z.eqb_eq.
  rewrite (border_test_iff _ _ (y = 0)) by apply Z.eqb_eq.
  rewrite (border_test_iff _ _ (x = u32 (size g - 1))) by apply Z.eqb_eq.
  rewrite (border_test_iff _ _ (y = u32 (size g - 1))) by apply Z.eqb_eq.
  rewrite (neighbour_test_iff g _ _ _ _ _ (0 < x)) by apply Z.ltb_lt.
  rewrite (neighbour_test_iff g _ _ _ _ _ (x < u32 (size g - 1))) by apply Z.ltb_lt.
  rewrite (neighbour_test_iff g _ _ _ _ _ (0 < y)) by apply Z.ltb_lt.
  rewrite (neighbour_test_iff g _ _ _ _ _ (y < u32 (size g - 1))) by apply Z.ltb_lt.
  reflexivity.
Qed.

(** ** The corner classifier *)

Lemma with_rotation_twice r r' t : with_rotation r (with_rotation r' t) = with_rotation r t.
Proof. reflexivity. Qed.

Lemma small_cases k : 0 ≤ k ≤ 3 → k = 0 ∨ k = 1 ∨ k = 2 ∨ k = 3.
Proof. lia. Qed.

Lemma quina_loop_tile n rot t :
  ∀ r k, snd (quina_loop n rot t) = Some (r, k) → fst (quina_loop n rot t) = with_rotation r t.
Proof.
  revert rot t. induction n as [|n IH]; intros rot t r k; simpl; [discriminate|].
  repeat (match goal with |- context [if ?c then _ else _] => destruct c end;
          simpl; [intros [= <- <-]; reflexivity|]).
  intros H. rewrite (IH _ _ _ _ H). reflexivity.
Qed.

Lemma quina_loop_spec n rot t :
  match snd (quina_loop n rot t) with
  | Some (r, k) =>
      rot ≤ r < rot + Z.of_nat n ∧ 0 ≤ k ≤ 3 ∧
      corner_cond (with_rotation r t) k = true ∧
      ∀ r' k', rot ≤ r' → 0 ≤ k' ≤ 3 → r' < r ∨ (r' = r ∧ k' < k) →
               corner_cond (with_rotation r' t) k' = false
  | None =>
      ∀ r k, rot ≤ r < rot + Z.of_nat n → 0 ≤ k ≤ 3 →
             corner_cond (with_rotation r t) k = false
  end.
Proof.
  revert rot t. induction n as [|n IH]; intros rot t.
  - simpl. intros r k Hr. lia.
  - cbn [quina_loop]. cbv zeta.
    destruct ((N_COLOR (with_rotation rot t) =? 0) && (W_COLOR (with_rotation rot t) =? 0)) eqn:E0.
    { cbn [snd]. split; [lia|]. split; [lia|]. split; [exact E0|]. intros r' k' ? ? ?. lia. }
    destruct ((N_COLOR (with_rotation rot t) =? 0) && (E_COLOR (with_rotation rot t) =? 0)) eqn:E1.
    { cbn [snd]. split; [lia|]. split; [lia|]. split; [exact E1|]. intros r' k' ? Hk [?|[-> ?]]; [lia|].
      assert (k' = 0) as -> by lia. exact E0. }
    destruct ((S_COLOR (with_rotation rot t) =? 0) && (W_COLOR (with_rotation rot t) =? 0)) eqn:E2.
    { cbn [snd]. split; [lia|]. split; [lia|]. split; [exact E2|]. intros r' k' ? Hk [?|[-> ?]]; [lia|].
      assert (k' = 0 ∨ k' = 1) as [-> | ->] by lia; assumption. }
    destruct ((S_COLOR (with_rotation rot t) =? 0) && (E_COLOR (with_rotation rot t) =? 0)) eqn:E3.
    { cbn [snd]. split; [lia|]. split; [lia|]. split; [exact E3|]. intros r' k' ? Hk [?|[-> ?]]; [lia|].
      assert (k' = 0 ∨ k' = 1 ∨ k' = 2) as [-> | [-> | ->]] by lia; assumption. }
    assert (Hrot : ∀ k, 0 ≤ k ≤ 3 → corner_cond (with_rotation rot t) k = false).
    { intros k Hk. destruct (small_cases k Hk) as [-> | [-> | [-> | ->]]]; assumption. }
    specialize (IH (rot + 1) (with_rotation rot t)).
    destruct (snd (quina_loop n (rot + 1) (with_rotation rot t))) as [[r k]|].
    + destruct IH as (Hr & Hk & Hc & Hmin). rewrite with_rotation_twice in Hc.
      split; [lia|]. split; [lia|]. split; [exact Hc|].
      intros r' k' Hr' Hk' Hlt.
      destruct (Z.eq_dec r' rot) as [-> | Hne]; [apply Hrot; exact Hk'|].
      specialize (Hmin r' k'). rewrite with_rotation_twice in Hmin. apply Hmin; lia.
    + intros r k Hr Hk.
      destruct (Z.eq_dec r rot) as [-> | Hne]; [apply Hrot; exact Hk|].
      specialize (IH r k). rewrite with_rotation_twice in IH. apply IH; lia.
Qed.

Lemma rem4_cases s : 0 ≤ s ≤ 3 → Z.rem (s + 1) 4 = (if s =? 3 then 0 else s + 1).
Proof. intros H. destruct (small_cases s H) as [-> | [-> | [-> | ->]]]; reflexivity. Qed.

Lemma adjacent_border_iff t :
  adjacent_border t ↔ ∃ k, 0 ≤ k ≤ 3 ∧ corner_cond t k = true.
Proof.
  unfold adjacent_border. split.
  - intros (s & Hs & H1 & H2).
    destruct (small_cases s Hs) as [-> | [-> | [-> | ->]]].
    + change (X_COLOR t 1 = 0) in H2. exists 1. split; [lia|].
      unfold corner_cond, N_COLOR, E_COLOR. cbn [Z.eqb]. rewrite H1, H2. reflexivity.
    + change (X_COLOR t 2 = 0) in H2. exists 3. split; [lia|].
      unfold corner_cond, S_COLOR, E_COLOR. cbn [Z.eqb Pos.eqb]. rewrite H1, H2. reflexivity.
    + change (X_COLOR t 3 = 0) in H2. exists 2. split; [lia|].
      unfold corner_cond, S_COLOR, W_COLOR. cbn [Z.eqb Pos.eqb]. rewrite H1, H2. reflexivity.
    + change (X_COLOR t 0 = 0) in H2. exists 0. split; [lia|].
      unfold corner_cond, N_COLOR, W_COLOR. cbn [Z.eqb]. rewrite H1, H2. reflexivity.
  - intros (k & Hk & Hc).
    destruct (small_cases k Hk) as [-> | [-> | [-> | ->]]];
      unfold corner_cond, N_COLOR, E_COLOR, S_COLOR, W_COLOR in Hc;
      cbn [Z.eqb Pos.eqb] in Hc;
      apply andb_true_iff in Hc as [H1 H2]; apply Z.eqb_eq in H1, H2.
    + exists 3. split; [lia|]. split; assumption.
    + exists 0. split; [lia|]. split; assumption.
    + exists 2. split; [lia|]. split; assumption.
    + exists 1. split; [lia|]. split; assumption.
Qed.

(** C7: [eh_peca_de_quina] reports a match exactly when some rotation 0..3
    of the tile shows the border color on two orthogonally adjacent sides;
    the pair (rotation, corner type) it returns satisfies the corner
    condition and no pair before it does, in the order rotation ascending,
    then NW, NE, SW, SE; when it reports no match, none of the 16 pairs
    satisfies the condition. *)
Theorem eh_peca_de_quina_first_match (t : tile) :
  (is_Some (snd (eh_peca_de_quina t)) ↔
     ∃ r, 0 ≤ r ≤ 3 ∧ adjacent_border (with_rotation r t)) ∧
  (∀ r k, snd (eh_peca_de_quina t) = Some (r, k) →
     0 ≤ r ≤ 3 ∧ 0 ≤ k ≤ 3 ∧ corner_cond (with_rotation r t) k = true ∧
     ∀ r' k', 0 ≤ r' ≤ 3 → 0 ≤ k' ≤ 3 → r' < r ∨ (r' = r ∧ k' < k) →
              corner_cond (with_rotation r' t) k' = false) ∧
  (snd (eh_peca_de_quina t) = None →
     ∀ r k, 0 ≤ r ≤ 3 → 0 ≤ k ≤ 3 → corner_cond (with_rotation r t) k = false).
Proof.
  unfold eh_peca_de_quina.
  pose proof (quina_loop_spec 4 0 t) as H.
  destruct (snd (quina_loop 4 0 t)) as [[r k]|].
  - destruct H as (Hr & Hk & Hc & Hmin). split; [split|split].
    + intros _. exists r. split; [lia|]. apply adjacent_border_iff. eauto.
    + intros _. eauto.
    + intros r0 k0 [= <- <-]. split; [lia|]. split; [lia|]. split; [exact Hc|].
      intros r' k' Hr' Hk' Hlt. apply Hmin; lia.
    + discriminate.
  - split; [split|split].
    + intros [? [=]].
    + intros (r & Hr & Ha). apply adjacent_border_iff in Ha as (k & Hk & Hc).
      rewrite H in Hc by lia. discriminate.
    + discriminate.
    + intros _ r k Hr Hk. apply H; lia.
Qed.

(** The four corner conditions cover the four pairs of adjacent sides, so a
    corner tile is always recognised at rotation 0. *)
Lemma eh_peca_de_quina_rotation t r k :
  snd (eh_peca_de_quina t) = Some (r, k) → r = 0.
Proof.
  destruct t as [[[[c0 c1] c2] c3] r0 i u].
  unfold eh_peca_de_quina, quina_loop, N_COLOR, E_COLOR, S_COLOR, W_COLOR, X_COLOR.
  cbn [with_rotation colors rotation tile_ident used].
  repeat match goal with
  | |- context [Z.rem ?a 4] =>
      let v := eval vm_compute in (Z.rem a 4) in change (Z.rem a 4) with v
  end.
  cbn [color_at Z.eqb Pos.eqb].
  destruct (c0 =? 0), (c1 =? 0), (c2 =? 0), (c3 =? 0); cbn [andb snd]; congruence.
Qed.

(** ** The reductions of the result protocol *)

Lemma foldr_min_le (d : Z) xs : foldr Z.min d xs ≤ d ∧ ∀ x, x ∈ xs → foldr Z.min d xs ≤ x.
Proof.
  induction xs as [|a xs [IH1 IH2]]; simpl.
  - split; [lia|]. intros x Hx. inversion Hx.
  - split; [lia|]. intros x Hx. apply elem_of_cons in Hx as [-> | Hx]; [lia|].
    specialize (IH2 x Hx). lia.
Qed.

Lemma foldr_min_elem (d : Z) xs : foldr Z.min d xs = d ∨ foldr Z.min d xs ∈ xs.
Proof.
  induction xs as [|a xs IH]; simpl; [left; reflexivity|].
  destruct (Z.min_spec a (foldr Z.min d xs)) as [[_ ->] | [_ ->]].
  - right. left.
  - destruct IH as [-> | IH]; [left; reflexivity|]. right. right. exact IH.
Qed.

Lemma allreduce_min_spec xs :
  xs ≠ [] → allreduce_min xs ∈ xs ∧ ∀ x, x ∈ xs → allreduce_min xs ≤ x.
Proof.
  unfold allreduce_min. destruct xs as [|a xs]; [congruence|]. intros _.
  split.
  - destruct (foldr_min_elem (hd 0 (a :: xs)) (a :: xs)) as [-> | H]; [left|exact H].
  - apply foldr_min_le.
Qed.

Lemma foldr_max_ge (d : Z) xs : d ≤ foldr Z.max d xs ∧ ∀ x, x ∈ xs → x ≤ foldr Z.max d xs.
Proof.
  induction xs as [|a xs [IH1 IH2]]; simpl.
  - split; [lia|]. intros x Hx. inversion Hx.
  - split; [lia|]. intros x Hx. apply elem_of_cons in Hx as [-> | Hx]; [lia|].
    specialize (IH2 x Hx). lia.
Qed.

Lemma global_result_pos locals r : locals !! r = Some true → global_result locals ≠ 0.
Proof.
  intros Hr. unfold global_result, allreduce_max.
  assert (H1 : 1 ∈ Z.b2z <$> locals).
  { apply list_elem_of_fmap. exists true. split; [reflexivity|].
    apply list_elem_of_lookup. eauto. }
  pose proof (proj2 (foldr_max_ge (hd 0 (Z.b2z <$> locals)) (Z.b2z <$> locals)) 1 H1).
  lia.
Qed.

(** C4: when the search of some active process returned 1, the first
    reduction is non-zero and the second one, the minimum of
    [has_solution] (own rank for a process that completed the board, else
    [effective_processes], above every active rank), is the lowest rank
    that completed the board; that process and no other prints its board,
    so of two processes that both completed it the higher one never prints.
    The value depends on the flags alone, not on the completion order. *)
Theorem winner_is_lowest_finisher (locals : list bool) :
  (∃ r, locals !! r = Some true) →
  global_result locals ≠ 0 ∧
  ∃ w : nat,
    winner_rank locals = Z.of_nat w ∧
    locals !! w = Some true ∧
    (∀ r, locals !! r = Some true → (w ≤ r)%nat) ∧
    (∀ r, prints_solution locals r = true ↔ r = w) ∧
    (∀ a b, (a < b)%nat → locals !! a = Some true → locals !! b = Some true →
            prints_solution locals b = false).
Proof.
  intros [r0 Hr0]. split; [eapply global_result_pos; eassumption|].
  set (E := Z.of_nat (length locals)).
  set (cs := imap (has_solution E) locals).
  assert (Hne : cs ≠ []).
  { intros Hnil. apply (f_equal length) in Hnil. unfold cs in Hnil.
    rewrite length_imap in Hnil. apply lookup_lt_Some in Hr0. simpl in Hnil. lia. }
  destruct (allreduce_min_spec cs Hne) as [Hin Hmin].
  assert (Hr0in : Z.of_nat r0 ∈ cs).
  { apply list_elem_of_lookup. exists r0. unfold cs.
    rewrite list_lookup_imap, Hr0. reflexivity. }
  pose proof (Hmin _ Hr0in) as Hle.
  pose proof (lookup_lt_Some _ _ _ Hr0) as Hlt0.
  apply list_elem_of_lookup in Hin as [w Hw]. unfold cs in Hw.
  rewrite list_lookup_imap in Hw.
  destruct (locals !! w) as [b|] eqn:Hlw; [|discriminate]. simpl in Hw.
  injection Hw as Hw. destruct b; [|exfalso; change (E = allreduce_min cs) in Hw; subst E; lia].
  change (Z.of_nat w = allreduce_min cs) in Hw.
  assert (Hwin : winner_rank locals = Z.of_nat w).
  { unfold winner_rank. fold E. fold cs. symmetry. exact Hw. }
  assert (Hlow : ∀ r, locals !! r = Some true → (w ≤ r)%nat).
  { intros r Hr.
    assert (Z.of_nat r ∈ cs).
    { apply list_elem_of_lookup. exists r. unfold cs.
      rewrite list_lookup_imap, Hr. reflexivity. }
    specialize (Hmin _ H). lia. }
  assert (Hprint : ∀ r, prints_solution locals r = true ↔ r = w).
  { intros r. unfold prints_solution. rewrite Hwin, andb_true_iff, Z.eqb_eq. split.
    - intros [_ H]. lia.
    - intros ->. rewrite Hlw. split; [reflexivity|lia]. }
  exists w. split; [exact Hwin|]. split; [exact Hlw|]. split; [exact Hlow|].
  split; [exact Hprint|].
  intros a b Hab Ha Hb. specialize (Hlow a Ha).
  destruct (prints_solution locals b) eqn:Hp; [|reflexivity].
  apply Hprint in Hp. lia.
Qed.

(** ** The footprint of the search *)

(** *** Tile array updates *)

Lemma get_tile_set_used_ne i j b g : i ≠ j → get_tile (set_used i b g) j = get_tile g j.
Proof. intros H. unfold get_tile, set_used. simpl. rewrite list_lookup_alter_ne; done. Qed.

Lemma get_tile_set_used_eq i b g :
  (i < length (tiles g))%nat → get_tile (set_used i b g) i = with_used b (get_tile g i).
Proof.
  intros H. unfold get_tile, set_used. simpl. rewrite list_lookup_alter_eq.
  destruct (lookup_lt_is_Some_2 _ _ H) as [t ->]. reflexivity.
Qed.

Lemma get_tile_set_rotation_ne i j r g : i ≠ j → get_tile (set_rotation i r g) j = get_tile g j.
Proof. intros H. unfold get_tile, set_rotation. simpl. rewrite list_lookup_alter_ne; done. Qed.

Lemma get_tile_set_rotation_eq i r g :
  (i < length (tiles g))%nat → get_tile (set_rotation i r g) i = with_rotation r (get_tile g i).
Proof.
  intros H. unfold get_tile, set_rotation. simpl. rewrite list_lookup_alter_eq.
  destruct (lookup_lt_is_Some_2 _ _ H) as [t ->]. reflexivity.
Qed.

Lemma used_set_rotation i r g j : used (get_tile (set_rotation i r g) j) = used (get_tile g j).
Proof.
  unfold get_tile, set_rotation. simpl. destruct (decide (i = j)) as [->|Hne].
  - rewrite list_lookup_alter_eq. destruct (tiles g !! j); reflexivity.
  - rewrite list_lookup_alter_ne; done.
Qed.

Lemma colors_set_rotation i r g j : colors (get_tile (set_rotation i r g) j) = colors (get_tile g j).
Proof.
  unfold get_tile, set_rotation. simpl. destruct (decide (i = j)) as [->|Hne].
  - rewrite list_lookup_alter_eq. destruct (tiles g !! j); reflexivity.
  - rewrite list_lookup_alter_ne; done.
Qed.

Lemma colors_set_used i b g j : colors (get_tile (set_used i b g) j) = colors (get_tile g j).
Proof.
  unfold get_tile, set_used. simpl. destruct (decide (i = j)) as [->|Hne].
  - rewrite list_lookup_alter_eq. destruct (tiles g !! j); reflexivity.
  - rewrite list_lookup_alter_ne; done.
Qed.

Lemma length_set_used i b g : length (tiles (set_used i b g)) = length (tiles g).
Proof. apply length_alter. Qed.

Lemma length_set_rotation i r g : length (tiles (set_rotation i r g)) = length (tiles g).
Proof. apply length_alter. Qed.

Lemma board_set_cell_eq x y v g : board (set_cell x y v g) !! (x, y) = v.
Proof. unfold set_cell. simpl. apply lookup_partial_alter_eq. Qed.

Lemma board_set_cell_ne x y v g c : c ≠ (x, y) → board (set_cell x y v g) !! c = board g !! c.
Proof. intros H. unfold set_cell. simpl. apply lookup_partial_alter_ne. congruence. Qed.

Lemma before_irrefl c x y : before c x y → c ≠ (x, y).
Proof. intros H ->. unfold before in H. simpl in H. lia. Qed.

(** *** The advance rule *)

Lemma next_cell_cases sz x y :
  0 < sz ≤ UINT_MAX → 0 ≤ x < sz → 0 ≤ y < sz →
  (x + 1 < sz ∧ next_cell sz x y = (x + 1, y)) ∨
  (x = sz - 1 ∧ y + 1 < sz ∧ next_cell sz x y = (0, y + 1)) ∨
  (x = sz - 1 ∧ y = sz - 1 ∧ next_cell sz x y = (sz, sz)).
Proof.
  intros Hsz Hx Hy. unfold next_cell. rewrite (u32_small (sz - 1)) by lia.
  destruct (Z.ltb_spec x (sz - 1)).
  - left. split; [lia|]. rewrite u32_small by lia. reflexivity.
  - destruct (Z.ltb_spec y (sz - 1)).
    + right. left. split; [lia|]. split; [lia|]. rewrite u32_small by lia. reflexivity.
    + right. right. split; [lia|]. split; [lia|]. reflexivity.
Qed.

Lemma cells_left_last sz : 0 < sz → cells_left sz (sz - 1) (sz - 1) = 1%nat.
Proof. intros H. unfold cells_left. replace (sz * sz - ((sz - 1) * sz + (sz - 1))) with 1 by lia. reflexivity. Qed.

Lemma cells_left_right sz x y :
  0 ≤ y < sz → x + 1 < sz → cells_left sz x y = S (cells_left sz (x + 1) y).
Proof.
  intros Hy Hx. unfold cells_left. rewrite <- Z2Nat.inj_succ by nia.
  f_equal. lia.
Qed.

Lemma cells_left_down sz y :
  0 < sz → 0 ≤ y → y + 1 < sz → cells_left sz (sz - 1) y = S (cells_left sz 0 (y + 1)).
Proof.
  intros Hsz Hy Hy'. unfold cells_left. rewrite <- Z2Nat.inj_succ by nia.
  f_equal. lia.
Qed.

(** *** Composition of the footprints *)

Lemma kept_refl skip x y p : kept skip x y p p.
Proof. unfold kept. repeat split; reflexivity || (intros; reflexivity). Qed.

Lemma undone_refl p : undone p p.
Proof. unfold undone. repeat split; try reflexivity. intros c. left. reflexivity. Qed.

Lemma undone_trans p1 p2 p3 : undone p1 p2 → undone p2 p3 → undone p1 p3.
Proof.
  intros (U1 & S1 & G1 & B1) (U2 & S2 & G2 & B2). unfold undone.
  split; [intros j; rewrite U2; apply U1|].
  split; [congruence|]. split; [congruence|].
  intros c. destruct (B2 c) as [-> | ->]; [apply B1|right; reflexivity].
Qed.

Lemma kept_trans skip x y p1 p2 p3 :
  kept skip x y p1 p2 → kept skip x y p2 p3 → kept skip x y p1 p3.
Proof.
  intros (A1 & A2 & A3 & A4 & A5 & A6 & A7) (B1 & B2 & B3 & B4 & B5 & B6 & B7).
  unfold kept. split; [congruence|]. split; [congruence|]. split; [congruence|].
  split; [congruence|].
  split; [intros j; rewrite B5; apply A5|].
  split; [intros c Hc; rewrite B6 by exact Hc; apply A6; exact Hc|].
  intros j Hs Hu. rewrite B7; [apply A7; assumption|assumption|].
  rewrite A7; assumption.
Qed.

Lemma kept_weaken skip x y nx ny p p' :
  (∀ c, before c x y → before c nx ny) →
  kept None nx ny p p' → kept skip x y p p'.
Proof.
  intros Hb (A1 & A2 & A3 & A4 & A5 & A6 & A7). unfold kept.
  repeat (split; [assumption|]).
  split; [intros c Hc; apply A6, Hb, Hc|].
  intros j _ Hu. apply A7; [discriminate|exact Hu].
Qed.

Lemma kept_skip skip x y p p' : kept None x y p p' → kept skip x y p p'.
Proof. apply kept_weaken. auto. Qed.

Lemma post_compose skip x y p q r p' :
  kept skip x y p q → undone p q → post skip x y q r p' → post skip x y p r p'.
Proof.
  intros K U [K' R]. split; [eapply kept_trans; eassumption|].
  destruct r.
  - destruct R as [R1 R2]. destruct K as (A1 & A2 & A3 & _). destruct U as (_ & S1 & _).
    split; [|exact R2]. rewrite R1, A1, A2, A3, S1. reflexivity.
  - eapply undone_trans; eassumption.
Qed.

Lemma kept_set_rotation x y i r p :
  kept (Some i) x y p (with_game (set_rotation i r (gm p)) p).
Proof.
  unfold kept. simpl. split; [reflexivity|]. split; [reflexivity|]. split; [reflexivity|].
  split; [apply length_set_rotation|].
  split; [intros j; apply colors_set_rotation|].
  split; [reflexivity|].
  intros j Hj _. apply get_tile_set_rotation_ne. congruence.
Qed.

Lemma undone_set_rotation i r p : undone p (with_game (set_rotation i r (gm p)) p).
Proof.
  unfold undone. simpl. split; [intros j; apply used_set_rotation|].
  split; [reflexivity|]. split; [reflexivity|]. intros c. left. reflexivity.
Qed.

Lemma kept_set_cell skip x y v p : kept skip x y p (with_game (set_cell x y v (gm p)) p).
Proof.
  unfold kept. simpl. repeat (split; [reflexivity|]).
  split; [|reflexivity].
  intros c Hc. apply lookup_partial_alter_ne. apply before_irrefl in Hc. congruence.
Qed.

Lemma kept_notify skip x y p : kept skip x y p (notify p).
Proof. unfold kept. simpl. repeat (split; [reflexivity|]). reflexivity. Qed.

Lemma before_next sz x y c :
  0 < sz ≤ UINT_MAX → 0 ≤ x < sz → 0 ≤ y < sz →
  before c x y → before c (next_cell sz x y).1 (next_cell sz x y).2.
Proof.
  intros Hsz Hx Hy Hc. unfold before in *.
  destruct (next_cell_cases sz x y Hsz Hx Hy) as [[_ ->] | [(_ & _ & ->) | (_ & _ & ->)]];
    simpl; lia.
Qed.

(** One accepted placement whose continuation failed, once the cell is
    emptied again. *)
Lemma undone_placed x y p2 p3 p :
  (∀ j, used (get_tile (gm p2) j) = used (get_tile (gm p) j)) →
  sent p2 = sent p → global_stop p2 = global_stop p →
  (∀ c, c ≠ (x, y) → board (gm p2) !! c = board (gm p) !! c) →
  undone p2 p3 →
  undone p (with_game (set_cell x y None (gm p3)) p3).
Proof.
  intros HU HS HG HB (U & S & G & B). unfold undone. simpl.
  split; [intros j; rewrite <- HU; apply U|].
  split; [congruence|]. split; [congruence|].
  intros c. destruct (decide (c = (x, y))) as [-> | Hne].
  - right. apply lookup_partial_alter_eq.
  - rewrite lookup_partial_alter_ne by congruence.
    rewrite <- (HB c Hne). apply B.
Qed.

Lemma mjoin_replicate_S {A} k (l : list A) :
  mjoin (replicate (S k) l) = mjoin (replicate k l) ++ l.
Proof. rewrite replicate_S_end, join_app. simpl. rewrite app_nil_r. reflexivity. Qed.

Section loops_post.
Variable rec : proc → Z → Z → outcome.
Hypothesis rec_post : ∀ p x y r p',
  good p x y → rec p x y = Some (r, p') → post None x y p r p'.

Lemma rot_loop_post x y i n : ∀ rot p r p',
  good p x y →
  rot_loop rec x y i n rot p = Some (r, p') → post (Some i) x y p r p'.
Proof.
  induction n as [|n IH]; intros rot p r p' Hgood Hrun.
  - simpl in Hrun. injection Hrun as <- <-. split; [apply kept_refl|apply undone_refl].
  - cbn [rot_loop] in Hrun. cbv zeta in Hrun.
    set (p1 := with_game (set_rotation i rot (gm p)) p) in *.
    assert (K1 : kept (Some i) x y p p1) by apply kept_set_rotation.
    assert (U1 : undone p p1) by apply undone_set_rotation.
    assert (Hgood1 : good p1 x y) by exact Hgood.
    destruct (valid_move (gm p1) x y i).
    2:{ eapply post_compose; [exact K1|exact U1|]. eapply IH; eassumption. }
    set (p2 := with_game (set_cell x y (Some i) (gm p1)) p1) in *.
    assert (K2 : kept (Some i) x y p1 p2) by apply kept_set_cell.
    destruct Hgood as [Hsz [Hx Hy]].
    change (size (gm p2)) with (size (gm p)) in Hrun.
    pose proof (before_next (size (gm p)) x y) as Hbn.
    destruct (next_cell_cases (size (gm p)) x y Hsz Hx Hy)
      as [[Hx' Hn] | [(Hx' & Hy' & Hn) | (Hx' & Hy' & Hn)]]; rewrite Hn in Hrun, Hbn.
    + (* next cell in the same row *)
      assert ((y =? size (gm p)) = false) as Hy0 by (apply Z.eqb_neq; lia).
      rewrite Hy0 in Hrun.
      destruct (rec p2 (x + 1) y) as [[[|] p3]|] eqn:Hrec; [| |discriminate].
      * injection Hrun as <- <-.
        apply rec_post in Hrec as [K3 [A1 A2]]; [|unfold good, in_bounds; change (size (gm p2)) with (size (gm p)); lia].
        split.
        -- eapply kept_trans; [exact K1|]. eapply kept_trans; [exact K2|].
           eapply kept_trans; [eapply kept_weaken; [|exact K3]|apply kept_notify].
           intros c Hc. apply (Hbn c); assumption.
        -- destruct K3 as (_ & R3 & C3 & _).
           split; [|reflexivity]. simpl. rewrite A1, R3, C3. simpl.
           rewrite (cells_left_right (size (gm p)) x y) by lia.
           rewrite mjoin_replicate_S, app_assoc. reflexivity.
      * apply rec_post in Hrec as [K3 U3]; [|unfold good, in_bounds; change (size (gm p2)) with (size (gm p)); lia].
        set (p4 := with_game (set_cell x y None (gm p3)) p3) in *.
        eapply post_compose; [| |eapply IH; [|exact Hrun]].
        -- eapply kept_trans; [exact K1|]. eapply kept_trans; [exact K2|].
           eapply kept_trans; [eapply kept_weaken; [|exact K3]|apply kept_set_cell].
           intros c Hc. apply (Hbn c); assumption.
        -- eapply undone_trans; [exact U1|].
           apply (undone_placed x y p2 p3 p1); try reflexivity; [|exact U3].
           intros c Hc. apply board_set_cell_ne. exact Hc.
        -- destruct K3 as (S3 & _). split; [|split]; simpl; rewrite ?S3; simpl; assumption.
    + (* first cell of the next row *)
      assert ((y + 1 =? size (gm p)) = false) as Hy0 by (apply Z.eqb_neq; lia).
      rewrite Hy0 in Hrun.
      destruct (rec p2 0 (y + 1)) as [[[|] p3]|] eqn:Hrec; [| |discriminate].
      * injection Hrun as <- <-.
        apply rec_post in Hrec as [K3 [A1 A2]]; [|unfold good, in_bounds; change (size (gm p2)) with (size (gm p)); lia].
        split.
        -- eapply kept_trans; [exact K1|]. eapply kept_trans; [exact K2|].
           eapply kept_trans; [eapply kept_weaken; [|exact K3]|apply kept_notify].
           intros c Hc. apply (Hbn c); assumption.
        -- destruct K3 as (_ & R3 & C3 & _).
           split; [|reflexivity]. simpl. rewrite A1, R3, C3. simpl.
           rewrite Hx', (cells_left_down (size (gm p)) y) by lia.
           rewrite mjoin_replicate_S, app_assoc. reflexivity.
      * apply rec_post in Hrec as [K3 U3]; [|unfold good, in_bounds; change (size (gm p2)) with (size (gm p)); lia].
        set (p4 := with_game (set_cell x y None (gm p3)) p3) in *.
        eapply post_compose; [| |eapply IH; [|exact Hrun]].
        -- eapply kept_trans; [exact K1|]. eapply kept_trans; [exact K2|].
           eapply kept_trans; [eapply kept_weaken; [|exact K3]|apply kept_set_cell].
           intros c Hc. apply (Hbn c); assumption.
        -- eapply undone_trans; [exact U1|].
           apply (undone_placed x y p2 p3 p1); try reflexivity; [|exact U3].
           intros c Hc. apply board_set_cell_ne. exact Hc.
        -- destruct K3 as (S3 & _). split; [|split]; simpl; rewrite ?S3; simpl; assumption.
    + (* last cell: the board is complete *)
      rewrite Z.eqb_refl in Hrun. injection Hrun as <- <-.
      split.
      * eapply kept_trans; [exact K1|]. eapply kept_trans; [exact K2|apply kept_notify].
      * split; [|reflexivity]. simpl.
        rewrite Hx', Hy', cells_left_last by lia. simpl. rewrite app_nil_r. reflexivity.
Qed.
End loops_post.

Lemma post_mark_used x y i p r p' :
  (i < length (tiles (gm p)))%nat → used (get_tile (gm p) i) = false →
  post (Some i) x y (with_game (set_used i true (gm p)) p) true p' →
  r = true → post None x y p r p'.
Proof.
  intros Hi Hu [K [A1 A2]] ->. split; [|split; [exact A1|exact A2]].
  destruct K as (K1 & K2 & K3 & K4 & K5 & K6 & K7). simpl in *.
  unfold kept. split; [exact K1|]. split; [exact K2|]. split; [exact K3|].
  split; [rewrite K4; apply length_set_used|].
  split; [intros j; rewrite K5; apply colors_set_used|].
  split; [exact K6|].
  intros j _ Hj. assert (i ≠ j) by (intros ->; congruence).
  rewrite K7; [apply get_tile_set_used_ne; assumption|congruence|].
  rewrite get_tile_set_used_ne; assumption.
Qed.

Lemma post_unmark_used x y i p p' :
  (i < length (tiles (gm p)))%nat → used (get_tile (gm p) i) = false →
  post (Some i) x y (with_game (set_used i true (gm p)) p) false p' →
  kept None x y p (with_game (set_used i false (gm p')) p') ∧
  undone p (with_game (set_used i false (gm p')) p').
Proof.
  intros Hi Hu [K U].
  destruct K as (K1 & K2 & K3 & K4 & K5 & K6 & K7).
  destruct U as (U1 & U2 & U3 & U4).
  cbn [gm with_game sent rank comm_size global_stop] in *.
  rewrite length_set_used in K4.
  split.
  - unfold kept. cbn [gm with_game sent rank comm_size global_stop].
    split; [exact K1|]. split; [exact K2|]. split; [exact K3|].
    split; [rewrite length_set_used; exact K4|].
    split; [intros j; rewrite colors_set_used, K5; apply colors_set_used|].
    split; [exact K6|].
    intros j _ Hj. assert (i ≠ j) by (intros ->; congruence).
    rewrite get_tile_set_used_ne by assumption.
    rewrite K7; [apply get_tile_set_used_ne; assumption|congruence|].
    rewrite get_tile_set_used_ne; assumption.
  - unfold undone. cbn [gm with_game sent rank comm_size global_stop].
    split; [|split; [exact U2|split; [exact U3|exact U4]]].
    intros j. destruct (decide (i = j)) as [<- | Hne].
    + rewrite get_tile_set_used_eq by lia. rewrite Hu. reflexivity.
    + rewrite get_tile_set_used_ne by assumption. rewrite U1.
      rewrite get_tile_set_used_ne by assumption. reflexivity.
Qed.

Section tiles_post.
Variable rec : proc → Z → Z → outcome.
Hypothesis rec_post : ∀ p x y r p',
  good p x y → rec p x y = Some (r, p') → post None x y p r p'.

Lemma tiles_loop_post x y n : ∀ i p r p',
  good p x y → (i + n ≤ length (tiles (gm p)))%nat →
  tiles_loop rec x y n i p = Some (r, p') → post None x y p r p'.
Proof.
  induction n as [|n IH]; intros i p r p' Hgood Hlen Hrun.
  - simpl in Hrun. injection Hrun as <- <-. split; [apply kept_refl|apply undone_refl].
  - cbn [tiles_loop] in Hrun.
    destruct (used (get_tile (gm p) i)) eqn:Hu.
    + apply (IH (S i)); [exact Hgood|lia|exact Hrun].
    + destruct (rot_loop rec x y i 4 0 (with_game (set_used i true (gm p)) p))
        as [[[|] q]|] eqn:Hrot; [| |discriminate].
      * injection Hrun as <- <-.
        apply (rot_loop_post rec rec_post) in Hrot; [|exact Hgood].
        eapply post_mark_used; [|exact Hu|exact Hrot|reflexivity]. lia.
      * apply (rot_loop_post rec rec_post) in Hrot; [|exact Hgood].
        apply post_unmark_used in Hrot as [K U]; [|lia|exact Hu].
        eapply post_compose; [exact K|exact U|].
        apply (IH (S i)); [| |exact Hrun].
        -- destruct K as (K1 & _). unfold good, in_bounds in *. rewrite K1. exact Hgood.
        -- destruct K as (_ & _ & _ & K4 & _). rewrite K4. lia.
Qed.
End tiles_post.

Lemma poll_tick_frame p :
  gm (poll (tick p)).2 = gm p ∧ rank (poll (tick p)).2 = rank p ∧
  comm_size (poll (tick p)).2 = comm_size p ∧ sent (poll (tick p)).2 = sent p ∧
  global_stop (poll (tick p)).2 = global_stop p.
Proof.
  unfold poll. destruct (Z.rem (check_counter (tick p)) 1000 =? 0); [|repeat split].
  destruct (probes (tick p)) as [|[v|] rest]; repeat split.
Qed.

Lemma kept_same_game skip x y p p' :
  gm p' = gm p → rank p' = rank p → comm_size p' = comm_size p → kept skip x y p p'.
Proof. intros E1 E2 E3. unfold kept. rewrite E1, E2, E3. repeat split; reflexivity. Qed.

Lemma undone_same_game p p' :
  gm p' = gm p → sent p' = sent p → global_stop p' = global_stop p → undone p p'.
Proof.
  intros E1 E2 E3. unfold undone. rewrite E1, E2, E3.
  repeat split; try reflexivity. intros c; left; reflexivity.
Qed.

(** Every call of [play] on the board leaves what [post] says. *)
Lemma play_post fuel : ∀ p x y r p',
  good p x y → play fuel p x y = Some (r, p') → post None x y p r p'.
Proof.
  induction fuel as [|fuel IH]; intros p x y r p' Hgood Hrun; [discriminate|].
  cbn [play] in Hrun.
  destruct (global_stop p).
  { injection Hrun as <- <-. split; [apply kept_refl|apply undone_refl]. }
  destruct (poll_tick_frame p) as (E1 & E2 & E3 & E4 & E5).
  destruct (poll (tick p)) as [received p1]. simpl in *.
  assert (K : kept None x y p p1) by (apply kept_same_game; assumption).
  assert (U : undone p p1) by (apply undone_same_game; assumption).
  destruct received.
  { injection Hrun as <- <-. split; assumption. }
  destruct (global_solution_found p1).
  { injection Hrun as <- <-. split; assumption. }
  eapply post_compose; [exact K|exact U|].
  eapply (tiles_loop_post _ IH); [| |exact Hrun].
  - unfold good, in_bounds. rewrite E1. exact Hgood.
  - simpl. lia.
Qed.

(** *** [play] returns: the recursion depth is bounded by the cells left *)

Section loops_total.
Variable rec : proc → Z → Z → outcome.
Variable k : nat.
Hypothesis rec_post : ∀ p x y r p',
  good p x y → rec p x y = Some (r, p') → post None x y p r p'.
Hypothesis rec_total : ∀ p x y,
  good p x y → (cells_left (size (gm p)) x y < k)%nat → is_Some (rec p x y).

Lemma rot_loop_total x y i n : ∀ rot p,
  good p x y → (cells_left (size (gm p)) x y ≤ k)%nat →
  is_Some (rot_loop rec x y i n rot p).
Proof.
  induction n as [|n IH]; intros rot p Hgood Hk; [eexists; reflexivity|].
  cbn [rot_loop]. cbv zeta.
  set (p1 := with_game (set_rotation i rot (gm p)) p).
  destruct (valid_move (gm p1) x y i); [|apply IH; assumption].
  set (p2 := with_game (set_cell x y (Some i) (gm p1)) p1).
  change (size (gm p2)) with (size (gm p)).
  destruct Hgood as [Hsz [Hx Hy]].
  assert (Hcont : ∀ nx ny, good p2 nx ny →
            (cells_left (size (gm p)) nx ny < k)%nat →
            is_Some (match rec p2 nx ny with
                     | Some (true, p3) => Some (true, notify p3)
                     | Some (false, p3) =>
                         rot_loop rec x y i n (rot + 1)
                           (with_game (set_cell x y None (gm p3)) p3)
                     | None => None
                     end)).
  { intros nx ny Hg2 Hlt. destruct (rec_total p2 nx ny Hg2 Hlt) as [[[|] p3] Hrec];
      rewrite Hrec; [eexists; reflexivity|].
    apply rec_post in Hrec as [(S3 & _) _]; [|exact Hg2].
    apply IH; unfold good, in_bounds; cbn [gm with_game set_cell size];
      rewrite S3; [split; [exact Hsz|split; assumption]|exact Hk]. }
  destruct (next_cell_cases (size (gm p)) x y Hsz Hx Hy)
    as [[Hx' Hn] | [(Hx' & Hy' & Hn) | (Hx' & Hy' & Hn)]]; rewrite Hn.
  - replace (y =? size (gm p)) with false by (symmetry; apply Z.eqb_neq; lia).
    apply Hcont; [unfold good, in_bounds; change (size (gm p2)) with (size (gm p)); lia|].
    rewrite (cells_left_right (size (gm p)) x y) in Hk by lia. lia.
  - replace (y + 1 =? size (gm p)) with false by (symmetry; apply Z.eqb_neq; lia).
    apply Hcont; [unfold good, in_bounds; change (size (gm p2)) with (size (gm p)); lia|].
    rewrite Hx', (cells_left_down (size (gm p)) y) in Hk by lia. lia.
  - rewrite Z.eqb_refl. eexists; reflexivity.
Qed.

Lemma tiles_loop_total x y n : ∀ i p,
  good p x y → (cells_left (size (gm p)) x y ≤ k)%nat →
  (i + n ≤ length (tiles (gm p)))%nat →
  is_Some (tiles_loop rec x y n i p).
Proof.
  induction n as [|n IH]; intros i p Hgood Hk Hlen; [eexists; reflexivity|].
  cbn [tiles_loop].
  destruct (used (get_tile (gm p) i)) eqn:Hu; [apply IH; [assumption|assumption|lia]|].
  destruct (rot_loop_total x y i 4 0 (with_game (set_used i true (gm p)) p) Hgood Hk)
    as [[[|] q] Hrot]; rewrite Hrot; [eexists; reflexivity|].
  apply (rot_loop_post rec rec_post) in Hrot; [|exact Hgood].
  apply post_unmark_used in Hrot as [K U]; [|lia|exact Hu].
  destruct K as (K1 & _ & _ & K4 & _).
  apply IH; unfold good, in_bounds; rewrite ?K1, ?K4; [exact Hgood|exact Hk|lia].
Qed.
End loops_total.

Lemma play_total fuel : ∀ p x y,
  good p x y → (cells_left (size (gm p)) x y < fuel)%nat → is_Some (play fuel p x y).
Proof.
  induction fuel as [|fuel IH]; intros p x y Hgood Hk; [lia|].
  cbn [play]. destruct (global_stop p); [eexists; reflexivity|].
  destruct (poll_tick_frame p) as (E1 & _).
  destruct (poll (tick p)) as [received p1]. simpl in E1.
  destruct received; [eexists; reflexivity|].
  destruct (global_solution_found p1); [eexists; reflexivity|].
  apply (tiles_loop_total (play fuel) fuel (play_post fuel) IH);
    unfold good, in_bounds; rewrite ?E1; [exact Hgood|lia|simpl; lia].
Qed.

(** *** The two loops of [play] as one pass over the candidates *)

Lemma game_eq g g' :
  size g = size g' → board g = board g' → tiles g = tiles g' → g = g'.
Proof. destruct g, g'. simpl. intros -> -> ->. reflexivity. Qed.

Lemma set_used_id i b g : used (get_tile g i) = b → set_used i b g = g.
Proof.
  intros H. apply game_eq; try reflexivity. unfold set_used. simpl.
  apply list_eq. intros j. destruct (decide (i = j)) as [<- | Hne].
  - rewrite list_lookup_alter_eq. unfold get_tile in H.
    destruct (tiles g !! i) as [t|]; [|reflexivity]. simpl in *.
    destruct t; simpl in *. subst. reflexivity.
  - apply list_lookup_alter_ne. exact Hne.
Qed.

Lemma set_used_twice i b b' g : set_used i b (set_used i b' g) = set_used i b g.
Proof.
  apply game_eq; try reflexivity. unfold set_used. simpl.
  rewrite list_alter_alter_eq. apply list_alter_ext; [|reflexivity].
  intros t _. reflexivity.
Qed.

Lemma set_used_undo i b g : used (get_tile g i) = b → set_used i b (set_used i (negb b) g) = g.
Proof. intros H. rewrite set_used_twice. apply set_used_id, H. Qed.

Lemma candidates_from_S g i n :
  candidates_from g i (S n) =
  (if used (get_tile g i) then [] else (fun r => (i, r)) <$> [0; 1; 2; 3])
  ++ candidates_from g (S i) n.
Proof.
  unfold candidates_from. cbn [seq]. rewrite filter_cons.
  destruct (decide (used (get_tile g i) = false)) as [H | H].
  - rewrite H. rewrite bind_cons. reflexivity.
  - destruct (used (get_tile g i)); [reflexivity|congruence].
Qed.

Lemma candidates_from_ext g g' i n :
  (∀ j, used (get_tile g' j) = used (get_tile g j)) →
  candidates_from g' i n = candidates_from g i n.
Proof.
  intros H. revert i. induction n as [|n IH]; intros i; [reflexivity|].
  rewrite !candidates_from_S, H, IH. reflexivity.
Qed.

Lemma next_cell_good sz x y nx ny :
  0 < sz ≤ UINT_MAX → 0 ≤ x < sz → 0 ≤ y < sz →
  next_cell sz x y = (nx, ny) → ny ≠ sz → 0 ≤ nx < sz ∧ 0 ≤ ny < sz.
Proof.
  intros Hsz Hx Hy Hn Hne.
  destruct (next_cell_cases sz x y Hsz Hx Hy) as [[? E] | [(? & ? & E) | (? & ? & E)]];
    rewrite E in Hn; injection Hn as <- <-; lia.
Qed.

Section loops_as_candidates.
Variables rec rec' : proc → Z → Z → outcome.
Hypothesis rec_post : ∀ p x y r p',
  good p x y → rec p x y = Some (r, p') → post None x y p r p'.
Hypothesis rec_eq : ∀ p x y, good p x y → rec p x y = rec' p x y.

Lemma rot_loop_as_candidates x y i n : ∀ rot p rest,
  good p x y → used (get_tile (gm p) i) = true →
  try_candidates rec' x y (((fun r => (i, r)) <$> rots rot n) ++ rest)
    (with_game (set_used i false (gm p)) p)
  = match rot_loop rec x y i n rot p with
    | None => None
    | Some (true, p') => Some (true, p')
    | Some (false, p') =>
        try_candidates rec' x y rest (with_game (set_used i false (gm p')) p')
    end.
Proof.
  induction n as [|n IH]; intros rot p rest Hgood Hu; [reflexivity|].
  cbn [rots fmap list_fmap app try_candidates rot_loop]. cbv zeta.
  assert (E : with_game (set_rotation i rot
                (set_used i true (gm (with_game (set_used i false (gm p)) p))))
                (with_game (set_used i false (gm p)) p)
              = with_game (set_rotation i rot (gm p)) p).
  { cbn [gm with_game].
    pose proof (set_used_undo i true (gm p) Hu) as Hundo. cbn [negb] in Hundo.
    rewrite Hundo. reflexivity. }
  rewrite E. clear E.
  set (p1 := with_game (set_rotation i rot (gm p)) p).
  assert (Hu1 : used (get_tile (gm p1) i) = true)
    by (unfold p1; cbn [gm with_game]; rewrite used_set_rotation; exact Hu).
  destruct (valid_move (gm p1) x y i).
  2:{ apply (IH (rot + 1) p1 rest); [exact Hgood|exact Hu1]. }
  set (p2 := with_game (set_cell x y (Some i) (gm p1)) p1).
  change (size (gm p2)) with (size (gm p)).
  destruct (next_cell (size (gm p)) x y) as [nx ny] eqn:Hn.
  destruct (ny =? size (gm p)) eqn:Hlast; [reflexivity|].
  apply Z.eqb_neq in Hlast.
  destruct Hgood as [Hsz [Hx Hy]].
  assert (Hg2 : good p2 nx ny).
  { split; [exact Hsz|]. exact (next_cell_good (size (gm p)) x y nx ny Hsz Hx Hy Hn Hlast). }
  rewrite <- (rec_eq p2 nx ny Hg2).
  destruct (rec p2 nx ny) as [[[|] p3]|] eqn:Hrec; [reflexivity| |reflexivity].
  apply rec_post in Hrec as [(S3 & _) (U3 & _)]; [|exact Hg2].
  apply (IH (rot + 1) (with_game (set_cell x y None (gm p3)) p3) rest).
  - unfold good, in_bounds. cbn [gm with_game set_cell size]. rewrite S3.
    split; [exact Hsz|split; assumption].
  - change (used (get_tile (gm p3) i) = true). rewrite U3. exact Hu1.
Qed.

Lemma tiles_loop_as_candidates x y n : ∀ i p,
  good p x y → (i + n ≤ length (tiles (gm p)))%nat →
  tiles_loop rec x y n i p = try_candidates rec' x y (candidates_from (gm p) i n) p.
Proof.
  induction n as [|n IH]; intros i p Hgood Hlen; [reflexivity|].
  rewrite candidates_from_S. cbn [tiles_loop].
  destruct (used (get_tile (gm p) i)) eqn:Hu.
  - apply IH; [exact Hgood|lia].
  - set (q := with_game (set_used i true (gm p)) p).
    assert (Hq : used (get_tile (gm q) i) = true).
    { unfold q. cbn [gm with_game]. rewrite get_tile_set_used_eq by lia. reflexivity. }
    pose proof (rot_loop_as_candidates x y i 4 0 q (candidates_from (gm p) (S i) n) Hgood Hq)
      as Hrot.
    change (rots 0 4) with [0; 1; 2; 3] in Hrot.
    replace (with_game (set_used i false (gm q)) q) with p in Hrot.
    2:{ unfold q. cbn [gm with_game].
        pose proof (set_used_undo i false (gm p) Hu) as Hundo. cbn [negb] in Hundo.
        rewrite Hundo. destruct p; reflexivity. }
    rewrite Hrot.
    destruct (rot_loop rec x y i 4 0 q) as [[[|] p']|] eqn:Hrun; try reflexivity.
    apply (rot_loop_post rec rec_post) in Hrun; [|exact Hgood].
    apply post_unmark_used in Hrun as [K U]; [|lia|exact Hu].
    rewrite <- (candidates_from_ext (gm p) _ (S i) n (proj1 U)).
    destruct K as (K1 & _ & _ & K4 & _).
    apply IH; unfold good, in_bounds; rewrite ?K1, ?K4; [exact Hgood|lia].
Qed.
End loops_as_candidates.

Lemma play_as_candidates fuel : ∀ p x y,
  good p x y → play fuel p x y = play_by_candidates fuel p x y.
Proof.
  induction fuel as [|fuel IH]; intros p x y Hgood; [reflexivity|].
  cbn [play play_by_candidates]. destruct (global_stop p); [reflexivity|].
  destruct (poll_tick_frame p) as (E1 & _).
  destruct (poll (tick p)) as [received p1]. simpl in E1.
  destruct received; [reflexivity|].
  destruct (global_solution_found p1); [reflexivity|].
  apply (tiles_loop_as_candidates (play fuel) (play_by_candidates fuel) (play_post fuel) IH);
    unfold good, in_bounds; rewrite ?E1; [exact Hgood|simpl; lia].
Qed.

(** The candidates are exactly the unused tiles with the rotations 0..3,
    listed in ascending order. *)
Lemma candidates_from_elem g i n j r :
  (j, r) ∈ candidates_from g i n ↔
  (i ≤ j < i + n)%nat ∧ used (get_tile g j) = false ∧ 0 ≤ r ≤ 3.
Proof.
  unfold candidates_from. rewrite list_elem_of_bind. split.
  - intros (j' & Hin & Hj'). apply list_elem_of_filter in Hj' as [Hu Hs].
    apply elem_of_seq in Hs. apply list_elem_of_fmap in Hin as (r' & [= -> ->] & Hr).
    split; [lia|]. split; [exact Hu|].
    repeat (apply elem_of_cons in Hr as [-> | Hr]; [lia|]). inversion Hr.
  - intros (Hj & Hu & Hr). exists j. split.
    + apply list_elem_of_fmap. exists r. split; [reflexivity|].
      assert (r = 0 ∨ r = 1 ∨ r = 2 ∨ r = 3) as [-> | [-> | [-> | ->]]] by lia;
        repeat constructor.
    + apply list_elem_of_filter. split; [exact Hu|]. apply elem_of_seq. lia.
Qed.

Lemma candidates_from_sorted g n : ∀ i, StronglySorted cand_lt (candidates_from g i n).
Proof.
  induction n as [|n IH]; intros i; [constructor|].
  rewrite candidates_from_S. apply StronglySorted_app. split; [|split; [|apply IH]].
  - intros [j1 r1] [j2 r2] H1 H2.
    apply candidates_from_elem in H2 as (H2 & _).
    destruct (used (get_tile g i)); [inversion H1|].
    apply list_elem_of_fmap in H1 as (r' & [= -> ->] & _). left. simpl. lia.
  - destruct (used (get_tile g i)); [constructor|]. cbn [fmap list_fmap].
    repeat (apply SSorted_cons;
            [|repeat (apply List.Forall_cons; [right; split; reflexivity|]);
              apply List.Forall_nil]).
    apply SSorted_nil.
Qed.

(** *** Neither [valid_move] nor [play] reads the cell they work on *)

Lemma u32_range z : 0 ≤ u32 z < 2 ^ 32.
Proof. unfold u32. apply Z.mod_pos_bound. lia. Qed.

Lemma u32_pred_ne x : 0 < x → u32 (x - 1) ≠ x.
Proof.
  intros Hx. destruct (Z.lt_ge_cases (x - 1) (2 ^ 32)).
  - unfold u32. rewrite Z.mod_small by lia. lia.
  - pose proof (u32_range (x - 1)). lia.
Qed.

Lemma u32_succ_ne x s : x < u32 s → u32 (x + 1) ≠ x.
Proof.
  intros Hx. pose proof (u32_range s). pose proof (u32_range (x + 1)).
  destruct (Z.lt_ge_cases x 0); [lia|].
  unfold u32 in *. rewrite (Z.mod_small (x + 1)) by lia. lia.
Qed.

Lemma guarded_lookup (b : bool) g x y v c t sn st :
  (b = true → c ≠ (x, y)) →
  b && mismatch (set_cell x y v g) (board (set_cell x y v g) !! c) sn t st
  = b && mismatch g (board g !! c) sn t st.
Proof.
  intros H. destruct b; [|reflexivity]. cbn [andb].
  rewrite board_set_cell_ne by (apply H; reflexivity). reflexivity.
Qed.

Lemma valid_move_ignores_cell g x y v i :
  valid_move (set_cell x y v g) x y i = valid_move g x y i.
Proof.
  rewrite !valid_move_conj. cbv zeta.
  change (get_tile (set_cell x y v g) i) with (get_tile g i).
  change (size (set_cell x y v g)) with (size g).
  rewrite !guarded_lookup; [reflexivity| | | |].
  - intros H%Z.ltb_lt [= E]. eapply u32_succ_ne; eassumption.
  - intros H%Z.ltb_lt [= E]. eapply u32_pred_ne; eassumption.
  - intros H%Z.ltb_lt [= E]. eapply u32_succ_ne; eassumption.
  - intros H%Z.ltb_lt [= E]. eapply u32_pred_ne; eassumption.
Qed.

Lemma with_game_self p : with_game (gm p) p = p.
Proof. destruct p; reflexivity. Qed.

Lemma set_cell_self x y g : set_cell x y (board g !! (x, y)) g = g.
Proof.
  apply game_eq; try reflexivity. unfold set_cell. simpl. apply partial_alter_self.
Qed.

Lemma set_cell_twice x y v w g : set_cell x y v (set_cell x y w g) = set_cell x y v g.
Proof.
  apply game_eq; try reflexivity. unfold set_cell. simpl.
  rewrite partial_alter_partial_alter_eq. reflexivity.
Qed.

Lemma same_but_refl x y p : same_but x y p p.
Proof.
  exists (board (gm p) !! (x, y)). rewrite set_cell_self, with_game_self. reflexivity.
Qed.

Lemma same_outcome_refl x y o : same_outcome x y o o.
Proof. destruct o as [[r p]|]; simpl; [|exact I]. split; [reflexivity|apply same_but_refl]. Qed.

Lemma poll_tick_with_game g p :
  poll (tick (with_game g p)) =
  ((poll (tick p)).1, with_game g (poll (tick p)).2).
Proof.
  unfold poll. cbn [check_counter tick with_game probes].
  destruct (Z.rem (check_counter p + 1) 1000 =? 0); [|reflexivity].
  destruct (probes p) as [|[s|] rest]; reflexivity.
Qed.

Section loops_same.
Variable rec : proc → Z → Z → outcome.
Variables x y : Z.

Lemma rot_loop_same i n : ∀ rot p q,
  same_but x y p q →
  same_outcome x y (rot_loop rec x y i n rot p) (rot_loop rec x y i n rot q).
Proof.
  induction n as [|n IH]; intros rot p q [v ->].
  - simpl. split; [reflexivity|]. exists v. reflexivity.
  - cbn [rot_loop]. cbv zeta.
    change (gm (with_game (set_rotation i rot (gm (with_game (set_cell x y v (gm p)) p)))
               (with_game (set_cell x y v (gm p)) p)))
      with (set_cell x y v (set_rotation i rot (gm p))).
    change (gm (with_game (set_rotation i rot (gm p)) p)) with (set_rotation i rot (gm p)).
    rewrite valid_move_ignores_cell.
    destruct (valid_move (set_rotation i rot (gm p)) x y i).
    + change (with_game (set_cell x y (Some i) (set_cell x y v (set_rotation i rot (gm p))))
                (with_game (set_rotation i rot (gm (with_game (set_cell x y v (gm p)) p)))
                   (with_game (set_cell x y v (gm p)) p)))
        with (with_game (set_cell x y (Some i) (set_cell x y v (set_rotation i rot (gm p)))) p).
      rewrite set_cell_twice.
      change (with_game (set_cell x y (Some i) (set_rotation i rot (gm p)))
                (with_game (set_rotation i rot (gm p)) p))
        with (with_game (set_cell x y (Some i) (set_rotation i rot (gm p))) p).
      apply same_outcome_refl.
    + apply IH. exists v. reflexivity.
Qed.

Lemma tiles_loop_same n : ∀ i p q,
  same_but x y p q →
  same_outcome x y (tiles_loop rec x y n i p) (tiles_loop rec x y n i q).
Proof.
  induction n as [|n IH]; intros i p q Hpq.
  - destruct Hpq as [v ->]. simpl. split; [reflexivity|]. exists v. reflexivity.
  - cbn [tiles_loop].
    assert (Hu : used (get_tile (gm q) i) = used (get_tile (gm p) i))
      by (destruct Hpq as [v ->]; reflexivity).
    rewrite Hu. destruct (used (get_tile (gm p) i)); [apply IH; exact Hpq|].
    assert (Hm : same_but x y (with_game (set_used i true (gm p)) p)
                              (with_game (set_used i true (gm q)) q))
      by (destruct Hpq as [v ->]; exists v; reflexivity).
    pose proof (rot_loop_same i 4 0 _ _ Hm) as Hrot.
    destruct (rot_loop rec x y i 4 0 (with_game (set_used i true (gm p)) p))
      as [[[|] p']|];
      destruct (rot_loop rec x y i 4 0 (with_game (set_used i true (gm q)) q))
      as [[[|] q']|]; simpl in Hrot; try (destruct Hrot; discriminate); try contradiction.
    + exact Hrot.
    + apply IH. destruct Hrot as [_ [v ->]]. exists v. reflexivity.
    + exact I.
Qed.
End loops_same.

Lemma play_same fuel p x y v :
  same_outcome x y (play fuel p x y)
                   (play fuel (with_game (set_cell x y v (gm p)) p) x y).
Proof.
  destruct fuel as [|fuel]; [exact I|].
  cbn [play]. change (global_stop (with_game (set_cell x y v (gm p)) p)) with (global_stop p).
  destruct (global_stop p).
  { simpl. split; [reflexivity|]. exists v. reflexivity. }
  rewrite poll_tick_with_game.
  destruct (poll_tick_frame p) as (E1 & _).
  destruct (poll (tick p)) as [received p1]. simpl in E1. cbn [fst snd].
  destruct received.
  { simpl. split; [reflexivity|]. exists v. rewrite E1. reflexivity. }
  change (global_solution_found (with_game (set_cell x y v (gm p)) p1))
    with (global_solution_found p1).
  destruct (global_solution_found p1).
  { simpl. split; [reflexivity|]. exists v. rewrite E1. reflexivity. }
  change (length (tiles (gm (with_game (set_cell x y v (gm p)) p1))))
    with (length (tiles (gm p))).
  rewrite E1. apply tiles_loop_same. exists v. rewrite E1. reflexivity.
Qed.

(** *** The advance rule walks through every cell *)

Lemma scan_S sz k c : scan sz (S k) c = next_cell sz (scan sz k c).1 (scan sz k c).2.
Proof. reflexivity. Qed.

Lemma scan_add sz a b c : scan sz (a + b) c = scan sz a (scan sz b c).
Proof. unfold scan. apply Nat.iter_add. Qed.

Lemma scan_row sz y (k : nat) :
  0 < sz ≤ UINT_MAX → 0 ≤ y < sz → Z.of_nat k < sz →
  scan sz k (0, y) = (Z.of_nat k, y).
Proof.
  intros Hsz Hy. induction k as [|k IH]; intros Hk; [reflexivity|].
  rewrite scan_S, IH by lia. cbn [fst snd].
  destruct (next_cell_cases sz (Z.of_nat k) y Hsz ltac:(lia) Hy)
    as [[_ ->] | [(? & _) | (? & _)]]; [f_equal; lia|lia|lia].
Qed.

Lemma scan_rows sz (j : nat) :
  0 < sz ≤ UINT_MAX → Z.of_nat j < sz →
  scan sz (j * Z.to_nat sz) (0, 0) = (0, Z.of_nat j).
Proof.
  intros Hsz. induction j as [|j IH]; intros Hj; [reflexivity|].
  cbn [Nat.mul]. rewrite scan_add, IH by lia.
  replace (Z.to_nat sz) with (S (Z.to_nat (sz - 1))) by lia.
  rewrite scan_S, scan_row by lia. cbn [fst snd].
  destruct (next_cell_cases sz (Z.of_nat (Z.to_nat (sz - 1))) (Z.of_nat j) Hsz
              ltac:(lia) ltac:(lia))
    as [[? _] | [(_ & _ & ->) | (_ & ? & _)]]; [lia|f_equal; lia|lia].
Qed.

Lemma scan_reaches sz x y :
  0 < sz ≤ UINT_MAX → 0 ≤ x < sz → 0 ≤ y < sz →
  scan sz (Z.to_nat (y * sz + x)) (0, 0) = (x, y).
Proof.
  intros Hsz Hx Hy.
  replace (Z.to_nat (y * sz + x)) with (Z.to_nat x + Z.to_nat y * Z.to_nat sz)%nat by nia.
  rewrite scan_add, scan_rows by lia. rewrite Z2Nat.id by lia.
  rewrite scan_row by lia. f_equal. lia.
Qed.

(** *** A placement on an occupied cell replaces the occupant *)

Lemma mismatch_ext g g' cell sn t t' st :
  (∀ n s, cell = Some n → X_COLOR (get_tile g n) s = X_COLOR (get_tile g' n) s) →
  (∀ s, X_COLOR t s = X_COLOR t' s) →
  mismatch g cell sn t st = mismatch g' cell sn t' st.
Proof.
  intros Hn Ht. destruct cell as [n|]; [|reflexivity]. simpl.
  rewrite (Hn n sn eq_refl), Ht. reflexivity.
Qed.

Lemma valid_move_ext g g' x y i :
  size g = size g' → board g = board g' →
  (∀ s, X_COLOR (get_tile g i) s = X_COLOR (get_tile g' i) s) →
  (∀ c n s, board g !! c = Some n → X_COLOR (get_tile g n) s = X_COLOR (get_tile g' n) s) →
  valid_move g x y i = valid_move g' x y i.
Proof.
  intros Hs Hb Hi Hn. rewrite !valid_move_conj. cbv zeta.
  unfold N_COLOR, E_COLOR, S_COLOR, W_COLOR. rewrite !Hi, <- Hs, <- Hb.
  assert (Hm : ∀ c sn st,
             mismatch g (board g !! c) sn (get_tile g i) st
             = mismatch g' (board g !! c) sn (get_tile g' i) st).
  { intros c sn st. apply mismatch_ext; [|exact Hi]. intros n s Hc. eapply Hn, Hc. }
  rewrite !Hm. reflexivity.
Qed.

Lemma X_COLOR_with_rotation r t t' s :
  colors t = colors t' → X_COLOR (with_rotation r t) s = X_COLOR (with_rotation r t') s.
Proof. intros H. unfold X_COLOR. simpl. rewrite H. reflexivity. Qed.

Lemma valid_move_clean p q x y i rot :
  clean p q → placed_used (gm p) →
  (i < length (tiles (gm p)))%nat → used (get_tile (gm p) i) = false →
  valid_move (set_rotation i rot (gm q)) x y i
  = valid_move (set_rotation i rot (gm p)) x y i.
Proof.
  intros (Cs & Cb & Cl & Cc & Cu) Hpl Hi Hu. apply valid_move_ext.
  - exact Cs.
  - exact Cb.
  - intros s. rewrite !get_tile_set_rotation_eq by lia.
    apply X_COLOR_with_rotation, Cc.
  - intros c n s Hc. cbn [board set_rotation] in Hc. rewrite Cb in Hc.
    pose proof (Hpl c n Hc) as Hn.
    assert (i ≠ n) by (intros ->; congruence).
    rewrite !get_tile_set_rotation_ne by assumption. rewrite (Cu n Hn). reflexivity.
Qed.

Lemma before_next_cell sz x y nx ny :
  0 < sz ≤ UINT_MAX → 0 ≤ x < sz → 0 ≤ y < sz →
  next_cell sz x y = (nx, ny) → ny ≠ sz → before (x, y) nx ny.
Proof.
  intros Hsz Hx Hy Hn Hne. unfold before. simpl.
  destruct (next_cell_cases sz x y Hsz Hx Hy) as [[? E] | [(? & ? & E) | (? & ? & E)]];
    rewrite E in Hn; injection Hn as <- <-; lia.
Qed.

Section loops_touched.
Variable rec : proc → Z → Z → outcome.
Hypothesis rec_post : ∀ p x y r p',
  good p x y → rec p x y = Some (r, p') → post None x y p r p'.
Variables x y : Z.
Variable c : nat.

Lemma rot_loop_touched i n : ∀ rot q r q',
  good q x y → i ≠ c → used (get_tile (gm q) c) = true →
  board (gm q) !! (x, y) ≠ Some c ∨
    ((0 < n)%nat ∧ valid_move (set_rotation i rot (gm q)) x y i = true) →
  rot_loop rec x y i n rot q = Some (r, q') → touched x y c q'.
Proof.
  induction n as [|n IH]; intros rot q r q' Hgood Hic Hc Hcase Hrun.
  - simpl in Hrun. injection Hrun as <- <-.
    destruct Hcase as [Hb | [? _]]; [split; assumption|lia].
  - cbn [rot_loop] in Hrun. cbv zeta in Hrun.
    set (q1 := with_game (set_rotation i rot (gm q)) q) in *.
    assert (Hc1 : used (get_tile (gm q1) c) = true)
      by (unfold q1; cbn [gm with_game]; rewrite used_set_rotation; exact Hc).
    change (gm q1) with (set_rotation i rot (gm q)) in Hrun at 1.
    destruct (valid_move (set_rotation i rot (gm q)) x y i) eqn:Hv.
    2:{ destruct Hcase as [Hb | [_ ?]]; [|discriminate].
        apply (IH (rot + 1) q1 r q'); [exact Hgood|exact Hic|exact Hc1|left; exact Hb|exact Hrun]. }
    clear Hcase.
    set (q2 := with_game (set_cell x y (Some i) (gm q1)) q1) in *.
    assert (Hb2 : board (gm q2) !! (x, y) = Some i) by apply board_set_cell_eq.
    assert (Hc2 : used (get_tile (gm q2) c) = true) by exact Hc1.
    change (size (gm q2)) with (size (gm q)) in Hrun.
    destruct (next_cell (size (gm q)) x y) as [nx ny] eqn:Hn.
    destruct (ny =? size (gm q)) eqn:Hlast.
    { injection Hrun as <- <-. split; [exact Hc2|].
      change (board (gm (notify q2))) with (board (gm q2)). rewrite Hb2. congruence. }
    apply Z.eqb_neq in Hlast. destruct Hgood as [Hsz [Hx Hy]].
    assert (Hg2 : good q2 nx ny).
    { split; [exact Hsz|]. exact (next_cell_good (size (gm q)) x y nx ny Hsz Hx Hy Hn Hlast). }
    pose proof (before_next_cell (size (gm q)) x y nx ny Hsz Hx Hy Hn Hlast) as Hbef.
    destruct (rec q2 nx ny) as [[[|] q3]|] eqn:Hrec; [| |discriminate];
      (apply rec_post in Hrec as [(K1 & _ & _ & _ & _ & K6 & K7) _]; [|exact Hg2]).
    + injection Hrun as <- <-. split.
      * change (get_tile (gm (notify q3)) c) with (get_tile (gm q3) c).
        rewrite K7; [exact Hc2|discriminate|exact Hc2].
      * change (board (gm (notify q3))) with (board (gm q3)).
        rewrite (K6 _ Hbef), Hb2. congruence.
    + apply (IH (rot + 1) (with_game (set_cell x y None (gm q3)) q3) r q');
        [| exact Hic | | | exact Hrun].
      * unfold good, in_bounds. cbn [gm with_game set_cell size]. rewrite K1.
        split; [exact Hsz|split; assumption].
      * change (used (get_tile (gm q3) c) = true).
        rewrite K7; [exact Hc2|discriminate|exact Hc2].
      * left. cbn [gm with_game]. rewrite board_set_cell_eq. discriminate.
Qed.

Lemma rot_loop_clean p i n : ∀ rot q r q',
  good q x y → clean p q → placed_used (gm p) →
  (i < length (tiles (gm p)))%nat → used (get_tile (gm p) i) = false →
  used (get_tile (gm p) c) = true →
  rot_loop rec x y i n rot q = Some (r, q') →
  touched x y c q' ∨
  (r = false ∧ clean p q' ∧
   ∀ rot', rot ≤ rot' < rot + Z.of_nat n →
           valid_move (set_rotation i rot' (gm p)) x y i = false).
Proof.
  induction n as [|n IH]; intros rot q r q' Hgood Hcl Hpl Hi Hu Hc Hrun.
  - simpl in Hrun. injection Hrun as <- <-. right.
    split; [reflexivity|]. split; [exact Hcl|]. intros rot' ?. lia.
  - assert (Hic : i ≠ c) by (intros ->; congruence).
    assert (Hcq : used (get_tile (gm q) c) = true).
    { destruct Hcl as (_ & _ & _ & _ & Cu). rewrite (Cu c Hc). exact Hc. }
    destruct (valid_move (set_rotation i rot (gm q)) x y i) eqn:Hv.
    + left. apply (rot_loop_touched i (S n) rot q r q');
        [exact Hgood|exact Hic|exact Hcq| |exact Hrun].
      right. split; [lia|exact Hv].
    + cbn [rot_loop] in Hrun. cbv zeta in Hrun.
      change (gm (with_game (set_rotation i rot (gm q)) q))
        with (set_rotation i rot (gm q)) in Hrun.
      rewrite Hv in Hrun.
      assert (Hcl1 : clean p (with_game (set_rotation i rot (gm q)) q)).
      { destruct Hcl as (Cs & Cb & Cl & Cc & Cu). unfold clean. cbn [gm with_game].
        split; [exact Cs|]. split; [exact Cb|].
        split; [rewrite length_set_rotation; exact Cl|].
        split; [intros j; rewrite colors_set_rotation; apply Cc|].
        intros j Hj. assert (i ≠ j) by (intros ->; congruence).
        rewrite get_tile_set_rotation_ne by assumption. apply Cu, Hj. }
      destruct (IH (rot + 1) (with_game (set_rotation i rot (gm q)) q) r q'
                  Hgood Hcl1 Hpl Hi Hu Hc Hrun)
        as [Ht | (Hr & Hcl' & Hall)]; [left; exact Ht|].
      right. split; [exact Hr|]. split; [exact Hcl'|].
      intros rot' Hrot'. destruct (Z.eq_dec rot' rot) as [-> | Hne].
      * rewrite <- (valid_move_clean p q x y i rot Hcl Hpl Hi Hu). exact Hv.
      * apply Hall. lia.
Qed.

Lemma tiles_loop_touched n : ∀ i q r q',
  good q x y → (i + n ≤ length (tiles (gm q)))%nat → touched x y c q →
  tiles_loop rec x y n i q = Some (r, q') → touched x y c q'.
Proof.
  induction n as [|n IH]; intros i q r q' Hgood Hlen [Hc Hb] Hrun.
  - simpl in Hrun. injection Hrun as <- <-. split; assumption.
  - cbn [tiles_loop] in Hrun.
    destruct (used (get_tile (gm q) i)) eqn:Hu.
    { apply (IH (S i) q r q'); [exact Hgood|lia|split; assumption|exact Hrun]. }
    assert (Hic : i ≠ c) by (intros ->; congruence).
    destruct (rot_loop rec x y i 4 0 (with_game (set_used i true (gm q)) q))
      as [[[|] q1]|] eqn:Hrot; [| |discriminate].
    + injection Hrun as <- <-.
      apply (rot_loop_touched i 4 0 (with_game (set_used i true (gm q)) q) true q1);
        [exact Hgood|exact Hic| | |exact Hrot].
      * cbn [gm with_game]. rewrite get_tile_set_used_ne by exact Hic. exact Hc.
      * left. exact Hb.
    + pose proof Hrot as Hpost.
      apply (rot_loop_post rec rec_post) in Hpost; [|exact Hgood].
      apply post_unmark_used in Hpost as [(K1 & _ & _ & K4 & _) _]; [|lia|exact Hu].
      apply (rot_loop_touched i 4 0) in Hrot as [Hc1 Hb1];
        [|exact Hgood|exact Hic| |left; exact Hb].
      2:{ cbn [gm with_game]. rewrite get_tile_set_used_ne by exact Hic. exact Hc. }
      apply (IH (S i) (with_game (set_used i false (gm q1)) q1) r q');
        [| | |exact Hrun].
      * unfold good, in_bounds. rewrite K1. exact Hgood.
      * rewrite K4. lia.
      * split; [|exact Hb1]. cbn [gm with_game].
        rewrite get_tile_set_used_ne by exact Hic. exact Hc1.
Qed.

Lemma tiles_loop_clean p n : ∀ i q r q',
  good q x y → (i + n ≤ length (tiles (gm q)))%nat →
  clean p q → (∀ j, used (get_tile (gm q) j) = used (get_tile (gm p) j)) →
  placed_used (gm p) → used (get_tile (gm p) c) = true →
  tiles_loop rec x y n i q = Some (r, q') →
  touched x y c q' ∨
  (∀ j rot, (i ≤ j < i + n)%nat → used (get_tile (gm p) j) = false → 0 ≤ rot ≤ 3 →
            valid_move (set_rotation j rot (gm p)) x y j = false).
Proof.
  induction n as [|n IH]; intros i q r q' Hgood Hlen Hcl Hfl Hpl Hc Hrun.
  - right. intros j rot Hj. lia.
  - cbn [tiles_loop] in Hrun.
    pose proof Hcl as (Cs & Cb & Cl & Cc & Cu).
    destruct (used (get_tile (gm q) i)) eqn:Hu.
    { destruct (IH (S i) q r q' Hgood ltac:(lia) Hcl Hfl Hpl Hc Hrun) as [Ht | Hall];
        [left; exact Ht|right].
      intros j rot Hj Huj Hrot. destruct (decide (j = i)) as [-> | Hne].
      - rewrite <- Hfl in Huj. congruence.
      - apply Hall; [lia|exact Huj|exact Hrot]. }
    assert (Hup : used (get_tile (gm p) i) = false) by (rewrite <- Hfl; exact Hu).
    assert (Hic : i ≠ c) by (intros ->; congruence).
    set (qm := with_game (set_used i true (gm q)) q) in *.
    assert (Hclm : clean p qm).
    { unfold clean, qm. cbn [gm with_game].
      split; [exact Cs|]. split; [exact Cb|].
      split; [rewrite length_set_used; exact Cl|].
      split; [intros j; rewrite colors_set_used; apply Cc|].
      intros j Hj. assert (i ≠ j) by (intros ->; congruence).
      rewrite get_tile_set_used_ne by assumption. apply Cu, Hj. }
    destruct (rot_loop rec x y i 4 0 qm) as [[[|] q1]|] eqn:Hrot; [| |discriminate].
    + injection Hrun as <- <-. left.
      destruct (rot_loop_clean p i 4 0 qm true q1 Hgood Hclm Hpl ltac:(lia) Hup Hc Hrot)
        as [Ht | (? & _)]; [exact Ht|discriminate].
    + pose proof Hrot as Hpost.
      apply (rot_loop_post rec rec_post) in Hpost; [|exact Hgood].
      apply post_unmark_used in Hpost as [(K1 & _ & _ & K4 & _) (U1 & _)]; [|lia|exact Hu].
      set (q2 := with_game (set_used i false (gm q1)) q1) in *.
      assert (Hg2 : good q2 x y) by (unfold good, in_bounds; rewrite K1; exact Hgood).
      destruct (rot_loop_clean p i 4 0 qm false q1 Hgood Hclm Hpl ltac:(lia) Hup Hc Hrot)
        as [[Hc1 Hb1] | (_ & Hcl1 & Hrots)].
      * left. apply (tiles_loop_touched n (S i) q2 r q'); [exact Hg2|rewrite K4; lia| |exact Hrun].
        split; [|exact Hb1]. unfold q2. cbn [gm with_game].
        rewrite get_tile_set_used_ne by exact Hic. exact Hc1.
      * assert (Hcl2 : clean p q2).
        { destruct Hcl1 as (Cs1 & Cb1 & Cl1 & Cc1 & Cu1). unfold clean, q2.
          cbn [gm with_game].
          split; [exact Cs1|]. split; [exact Cb1|].
          split; [rewrite length_set_used; exact Cl1|].
          split; [intros j; rewrite colors_set_used; apply Cc1|].
          intros j Hj. assert (i ≠ j) by (intros ->; congruence).
          rewrite get_tile_set_used_ne by assumption. apply Cu1, Hj. }
        assert (Hfl2 : ∀ j, used (get_tile (gm q2) j) = used (get_tile (gm p) j))
          by (intros j; rewrite U1; apply Hfl).
        destruct (IH (S i) q2 r q' Hg2 ltac:(rewrite K4; lia) Hcl2 Hfl2 Hpl Hc Hrun)
          as [Ht | Hall]; [left; exact Ht|right].
        intros j rot Hj Huj Hrot'. destruct (decide (j = i)) as [-> | Hne].
        -- apply Hrots. lia.
        -- apply Hall; [lia|exact Huj|exact Hrot'].
Qed.
End loops_touched.

Lemma clean_refl p : clean p p.
Proof. unfold clean. repeat split; reflexivity || (intros; reflexivity). Qed.

Lemma play_replaces_occupant fuel p x y c i rot r p' :
  good p x y →
  global_stop p = false → global_solution_found p = false → (poll (tick p)).1 = false →
  board (gm p) !! (x, y) = Some c → used (get_tile (gm p) c) = true →
  placed_used (gm p) →
  (i < length (tiles (gm p)))%nat → used (get_tile (gm p) i) = false → 0 ≤ rot ≤ 3 →
  valid_move (set_rotation i rot (gm p)) x y i = true →
  play fuel p x y = Some (r, p') →
  board (gm p') !! (x, y) ≠ Some c.
Proof.
  intros Hgood Hstop Hfound Hpoll Hb Hc Hpl Hi Hu Hrot Hv Hrun.
  destruct fuel as [|fuel]; [discriminate|]. cbn [play] in Hrun.
  rewrite Hstop in Hrun.
  assert (Hf1 : global_solution_found (poll (tick p)).2 = false).
  { revert Hpoll. unfold poll. cbn [tick check_counter probes].
    destruct (Z.rem (check_counter p + 1) 1000 =? 0); [|intros _; exact Hfound].
    destruct (probes p) as [|[s|] rest]; simpl; [intros _; exact Hfound|discriminate|
      intros _; exact Hfound]. }
  destruct (poll_tick_frame p) as (E1 & _).
  destruct (poll (tick p)) as [received p1]. cbn [fst snd] in *. subst received.
  rewrite Hf1 in Hrun.
  assert (Hcl : clean p p1) by (unfold clean; rewrite E1; apply (clean_refl p)).
  destruct (tiles_loop_clean (play fuel) (play_post fuel) x y c p
              (length (tiles (gm p1))) 0 p1 r p') as [[_ Ht] | Hall]; try assumption.
  - unfold good, in_bounds. rewrite E1. exact Hgood.
  - simpl. lia.
  - intros j. rewrite E1. reflexivity.
  - specialize (Hall i rot). rewrite Hall in Hv; [discriminate| |exact Hu|exact Hrot].
    rewrite E1. lia.
Qed.

(** ** The claims of the specification *)

(** C1: on a well-formed game and in-bounds coordinates, [valid_move]
    returns 1 exactly when (i) every side of the tile that lies on the
    boundary of the board shows color 0 under its current rotation and (ii)
    every occupied orthogonal neighbour shows on its facing side the color
    of the facing side of the tile.  [valid_move] returns the flag only: it
    writes neither the board nor the tile. *)
Theorem valid_move_checks_border_and_neighbours g x y ti :
  wf_game g → in_bounds g x y → (ti < length (tiles g))%nat →
  valid_move g x y ti = true ↔
  border_sides_ok g x y (get_tile g ti) ∧ neighbours_ok g x y (get_tile g ti).
Proof.
  intros (Hsz & _ & _) [Hx Hy] _.
  rewrite valid_move_tests, (u32_small (size g - 1)) by lia.
  unfold border_sides_ok, neighbours_ok, N_COLOR, E_COLOR, S_COLOR, W_COLOR.
  assert (Hxm : 0 < x → u32 (x - 1) = x - 1) by (intros; apply u32_small; lia).
  assert (Hxp : x < size g - 1 → u32 (x + 1) = x + 1) by (intros; apply u32_small; lia).
  assert (Hym : 0 < y → u32 (y - 1) = y - 1) by (intros; apply u32_small; lia).
  assert (Hyp : y < size g - 1 → u32 (y + 1) = y + 1) by (intros; apply u32_small; lia).
  split.
  - intros (((((((H1 & H2) & H3) & H4) & H5) & H6) & H7) & H8).
    repeat split; try assumption; intros n Hc Hl.
    + apply H5; [assumption|]. rewrite Hxm; assumption.
    + apply H6; [assumption|]. rewrite Hxp; assumption.
    + apply H7; [assumption|]. rewrite Hym; assumption.
    + apply H8; [assumption|]. rewrite Hyp; assumption.
  - intros ((H1 & H2 & H3 & H4) & (H5 & H6 & H7 & H8)).
    repeat split; try assumption; intros n Hc Hl.
    + apply H5; [assumption|]. rewrite <- Hxm; assumption.
    + apply H6; [assumption|]. rewrite <- Hxp; assumption.
    + apply H7; [assumption|]. rewrite <- Hym; assumption.
    + apply H8; [assumption|]. rewrite <- Hyp; assumption.
Qed.

(** C1 on the board seeded with tile 0 of [puzzle_nw]: tile 1 at (1, 0). *)
Lemma valid_move_checks_border_and_neighbours_witness :
  let g := seed_board (load puzzle_nw) (Corner 0 0 0) in
  valid_move g 1 0 1 = true ∧
  (valid_move g 1 0 1 = true ↔
   border_sides_ok g 1 0 (get_tile g 1) ∧ neighbours_ok g 1 0 (get_tile g 1)).
Proof.
  split; [vm_compute; reflexivity|].
  apply (valid_move_checks_border_and_neighbours
           (seed_board (load puzzle_nw) (Corner 0 0 0)) 1 0 1).
  - by_evaluation.
  - vm_compute. repeat split; congruence.
  - vm_compute. lia.
Defined.

(** C3: at every cell of the board, [play] is [play_by_candidates]: it
    tries the pairs (tile, rotation) of the tiles unused on entry, rotations
    0..3, in ascending order, places the first one that [valid_move]
    accepts with the tile marked used, advances, and on failure of the
    continuation goes on with the next pair, at this cell and at every cell
    the recursion reaches. *)
Theorem play_tries_candidates_in_order fuel p x y :
  good p x y →
  play fuel p x y = play_by_candidates fuel p x y ∧
  StronglySorted cand_lt (candidates (gm p)) ∧
  ∀ i rot, (i, rot) ∈ candidates (gm p) ↔
           (i < length (tiles (gm p)))%nat ∧ used (get_tile (gm p) i) = false ∧
           0 ≤ rot ≤ 3.
Proof.
  intros Hgood. split; [apply play_as_candidates, Hgood|].
  split; [apply candidates_from_sorted|].
  intros i rot. unfold candidates. rewrite candidates_from_elem. split.
  - intros (H1 & H2 & H3). split; [lia|]. split; assumption.
  - intros (H1 & H2 & H3). split; [lia|]. split; assumption.
Qed.

(** C3 on the first call of the process seeded with tile 0 of [puzzle_nw]. *)
Lemma play_tries_candidates_in_order_witness :
  let p := fresh (seed_board (load puzzle_nw) (Corner 0 0 0)) 0 4 in
  candidates (gm p) =
    [(1%nat, 0); (1%nat, 1); (1%nat, 2); (1%nat, 3);
     (2%nat, 0); (2%nat, 1); (2%nat, 2); (2%nat, 3);
     (3%nat, 0); (3%nat, 1); (3%nat, 2); (3%nat, 3)] ∧
  play 5 p 1 0 = play_by_candidates 5 p 1 0.
Proof.
  split; [vm_compute; reflexivity|].
  apply (play_tries_candidates_in_order 5
           (fresh (seed_board (load puzzle_nw) (Corner 0 0 0)) 0 4) 1 0).
  vm_compute. repeat split; congruence.
Defined.

(** C4 with three active processes of which 1 and 2 completed the board:
    the winner is 1, and 2 does not print. *)
Lemma winner_is_lowest_finisher_witness :
  [false; true; true] !! 1%nat = Some true ∧
  global_result [false; true; true] ≠ 0 ∧
  ∃ w : nat,
    winner_rank [false; true; true] = Z.of_nat w ∧
    [false; true; true] !! w = Some true ∧
    (∀ r, [false; true; true] !! r = Some true → (w ≤ r)%nat) ∧
    (∀ r, prints_solution [false; true; true] r = true ↔ r = w) ∧
    (∀ a b, (a < b)%nat → [false; true; true] !! a = Some true →
            [false; true; true] !! b = Some true →
            prints_solution [false; true; true] b = false).
Proof.
  split; [reflexivity|].
  apply (winner_is_lowest_finisher [false; true; true]).
  exists 1%nat. reflexivity.
Defined.

Lemma stop_messages_elem rk n m :
  m ∈ stop_messages rk n ↔ 0 ≤ m.1 < n ∧ m.1 ≠ rk ∧ m.2 = rk.
Proof.
  unfold stop_messages. rewrite list_elem_of_fmap. split.
  - intros (q & -> & Hq). apply list_elem_of_filter in Hq as [Hne Hq].
    apply elem_of_seqZ in Hq. simpl. split; [lia|]. split; [exact Hne|reflexivity].
  - intros (H1 & H2 & H3). exists m.1. split; [destruct m; simpl in *; congruence|].
    apply list_elem_of_filter. split; [exact H2|]. apply elem_of_seqZ. lia.
Qed.

Lemma stop_messages_NoDup rk n : NoDup (stop_messages rk n).
Proof.
  unfold stop_messages. apply NoDup_fmap_2.
  - intros a b [= ->]. reflexivity.
  - apply NoDup_filter, NoDup_seqZ.
Qed.

(** C5, as the code has it: every call of [play] that returns 1, the one
    that completes the board and each call that encloses it, sets the stop
    flag and sends one round of stop messages before it returns: one
    message, carrying the own rank, to each other process of
    [MPI_COMM_WORLD].  A call at [(x, y)] that returns 1 has therefore sent
    as many rounds as there are cells from [(x, y)] to the last one; a call
    that returns 0 has sent nothing. *)
Theorem play_notifies_once_per_level fuel p x y r p' :
  good p x y → play fuel p x y = Some (r, p') →
  sent p' = sent p ++
            (if r then mjoin (replicate (cells_left (size (gm p)) x y)
                                        (stop_messages (rank p) (comm_size p)))
             else []) ∧
  (r = true → global_stop p' = true ∧ (1 ≤ cells_left (size (gm p)) x y)%nat) ∧
  NoDup (stop_messages (rank p) (comm_size p)) ∧
  ∀ m, m ∈ stop_messages (rank p) (comm_size p) ↔
       0 ≤ m.1 < comm_size p ∧ m.1 ≠ rank p ∧ m.2 = rank p.
Proof.
  intros Hgood Hrun. apply play_post in Hrun as [_ Hr]; [|exact Hgood].
  split; [|split; [|split; [apply stop_messages_NoDup|apply stop_messages_elem]]].
  - destruct r; [apply Hr|]. destruct Hr as (_ & -> & _). rewrite app_nil_r. reflexivity.
  - intros ->. split; [apply Hr|].
    destruct Hgood as [Hsz [Hx Hy]]. unfold cells_left. nia.
Qed.

(** C5 fails as stated: the process of rank 0 of 4 that solves [puzzle_nw]
    from the cell (1, 0) sends three stop messages to each other process. *)
Lemma notifications_of_a_solver :
  (fun rp => (rp.1, sent rp.2))
    <$> worker (load puzzle_nw)
          [Corner 0 0 0; Corner 1 0 1; Corner 2 0 2; Corner 3 0 3] 0 4 []
  = Some (true, [(1, 0); (2, 0); (3, 0); (1, 0); (2, 0); (3, 0); (1, 0); (2, 0); (3, 0)]).
Proof. vm_compute. reflexivity. Qed.

(** C5 as amended, on the same search. *)
Lemma play_notifies_once_per_level_witness :
  let p := fresh (seed_board (load puzzle_nw) (Corner 0 0 0)) 0 4 in
  ∃ p', play 5 p 1 0 = Some (true, p') ∧
        sent p' = sent p ++ mjoin (replicate 3 (stop_messages 0 4)).
Proof.
  cbv zeta.
  destruct (play 5 (fresh (seed_board (load puzzle_nw) (Corner 0 0 0)) 0 4) 1 0)
    as [[[|] p']|] eqn:E.
  - exists p'. split; [reflexivity|].
    apply (play_notifies_once_per_level 5
             (fresh (seed_board (load puzzle_nw) (Corner 0 0 0)) 0 4) 1 0 true p');
      [vm_compute; repeat split; congruence|exact E].
  - exfalso. vm_compute in E. discriminate.
  - exfalso. vm_compute in E. discriminate.
Defined.

Lemma cells_head sz : 0 < sz → ∃ rest, cells sz = (0, 0) :: rest.
Proof.
  intros Hsz. unfold cells. rewrite (seqZ_cons 0 sz) by lia.
  cbn [mbind list_bind fmap list_fmap app]. eexists. reflexivity.
Qed.

Lemma seeded_corner_on_the_scan g c :
  2 ≤ size g ≤ UINT_MAX → 1 ≤ corner_type c ≤ 3 →
  find_start (seed_board g c) = (0, 0) ∧
  board (seed_board g c) !! corner_cell (size g) (corner_type c)
    = Some (Z.to_nat (tile_id c)) ∧
  ∃ k, (0 < k)%nat ∧ scan (size g) k (0, 0) = corner_cell (size g) (corner_type c).
Proof.
  intros Hsz Hct.
  assert (Hcc : ∃ cx cy, corner_cell (size g) (corner_type c) = (cx, cy) ∧
                  0 ≤ cx < size g ∧ 0 ≤ cy < size g ∧ (cx, cy) ≠ (0, 0)).
  { unfold corner_cell. rewrite (u32_small (size g - 1)) by lia.
    assert (corner_type c = 1 ∨ corner_type c = 2 ∨ corner_type c = 3)
      as [-> | [-> | ->]] by lia; cbn [Z.eqb Pos.eqb]; eexists _, _;
      (split; [reflexivity|]); (split; [lia|]); (split; [lia|]); intros [=]; lia. }
  destruct Hcc as (cx & cy & Hcc & Hx & Hy & Hne).
  unfold seed_board. rewrite Hcc. split; [|split].
  - unfold find_start.
    match goal with |- context [cells (size ?sb)] => change (size sb) with (size g) end.
    destruct (cells_head (size g)) as [rest ->]; [lia|]. cbn [List.find].
    rewrite bool_decide_eq_true_2; [reflexivity|].
    rewrite board_set_cell_ne by congruence. apply lookup_empty.
  - apply board_set_cell_eq.
  - exists (Z.to_nat (cy * size g + cx)). split.
    + assert (cx ≠ 0 ∨ cy ≠ 0) as [?|?] by (destruct (Z.eq_dec cx 0); [right|left]; congruence); nia.
    + apply scan_reaches; lia.
Qed.

(** C6: [valid_move] does not read the cell it is asked about, and the
    return value of [play] does not depend on what that cell holds; for a
    corner other than the top-left one the search starts at (0, 0) and the
    advance rule leads from there to the seeded corner cell; and a call of
    [play] on an occupied cell for which some unused tile, in some rotation,
    satisfies [valid_move] ends with the cell no longer holding its
    occupant. *)
Theorem play_overwrites_occupied_cell :
  (∀ g x y v i, valid_move (set_cell x y v g) x y i = valid_move g x y i) ∧
  (∀ fuel p x y v,
     same_outcome x y (play fuel p x y)
                      (play fuel (with_game (set_cell x y v (gm p)) p) x y)) ∧
  (∀ g c, 2 ≤ size g ≤ UINT_MAX → 1 ≤ corner_type c ≤ 3 →
     find_start (seed_board g c) = (0, 0) ∧
     board (seed_board g c) !! corner_cell (size g) (corner_type c)
       = Some (Z.to_nat (tile_id c)) ∧
     ∃ k, (0 < k)%nat ∧ scan (size g) k (0, 0) = corner_cell (size g) (corner_type c)) ∧
  (∀ fuel p x y c i rot r p',
     good p x y →
     global_stop p = false → global_solution_found p = false →
     (poll (tick p)).1 = false →
     board (gm p) !! (x, y) = Some c → used (get_tile (gm p) c) = true →
     placed_used (gm p) →
     (i < length (tiles (gm p)))%nat → used (get_tile (gm p) i) = false →
     0 ≤ rot ≤ 3 → valid_move (set_rotation i rot (gm p)) x y i = true →
     play fuel p x y = Some (r, p') →
     board (gm p') !! (x, y) ≠ Some c).
Proof.
  split; [intros; apply valid_move_ignores_cell|].
  split; [intros; apply play_same|].
  split; [apply seeded_corner_on_the_scan|].
  intros fuel p x y c i rot r p'. apply play_replaces_occupant.
Qed.

(** C6 on the process seeded with tile 1 of [puzzle_dup] in the NE corner:
    the call on that corner finds tile 2 acceptable. *)
Lemma play_overwrites_occupied_cell_witness :
  board (gm dup_at_corner) !! (1, 0) = Some 1%nat ∧
  ∃ r p', play 4 dup_at_corner 1 0 = Some (r, p') ∧
          board (gm p') !! (1, 0) ≠ Some 1%nat.
Proof.
  split; [vm_compute; reflexivity|].
  destruct (play 4 dup_at_corner 1 0) as [[r p']|] eqn:E.
  - exists r, p'. split; [reflexivity|].
    apply (proj2 (proj2 (proj2 play_overwrites_occupied_cell))
             4%nat dup_at_corner 1 0 1%nat 2%nat 0 r p');
      try (vm_compute; reflexivity); try exact E.
    + vm_compute. repeat split; congruence.
    + by_evaluation.
    + vm_compute. lia.
    + lia.
  - exfalso. vm_compute in E. discriminate.
Defined.

(** C8 fails as stated: [valid_move] accepts a tile whose West side shows
    color 0 against the East side, also 0, of an occupied neighbour, and a
    tile with color 0 on four sides in the middle of the board. *)
Lemma valid_move_accepts_zero_between_tiles :
  valid_move zero_game 2 0 1 = true ∧ board zero_game !! (1, 0) = Some 0%nat ∧
  W_COLOR (get_tile zero_game 1) = 0 ∧ E_COLOR (get_tile zero_game 0) = 0 ∧
  valid_move zero_game 1 1 1 = true.
Proof.
  split; [vm_compute; reflexivity|]. split; [vm_compute; reflexivity|].
  split; [vm_compute; reflexivity|]. split; vm_compute; reflexivity.
Qed.

(** C8, as the code has it: an accepted placement shows color 0 on every
    side on the boundary of the board, and towards an occupied neighbour it
    shows color 0 exactly when the neighbour does on its facing side. *)
Theorem valid_move_compares_zero_like_any_color g x y ti :
  wf_game g → in_bounds g x y → (ti < length (tiles g))%nat →
  valid_move g x y ti = true →
  border_sides_ok g x y (get_tile g ti) ∧
  (∀ n, 0 < x → board g !! (x - 1, y) = Some n →
        (W_COLOR (get_tile g ti) = 0 ↔ E_COLOR (get_tile g n) = 0)) ∧
  (∀ n, x < size g - 1 → board g !! (x + 1, y) = Some n →
        (E_COLOR (get_tile g ti) = 0 ↔ W_COLOR (get_tile g n) = 0)) ∧
  (∀ n, 0 < y → board g !! (x, y - 1) = Some n →
        (N_COLOR (get_tile g ti) = 0 ↔ S_COLOR (get_tile g n) = 0)) ∧
  (∀ n, y < size g - 1 → board g !! (x, y + 1) = Some n →
        (S_COLOR (get_tile g ti) = 0 ↔ N_COLOR (get_tile g n) = 0)).
Proof.
  intros (Hsz & _ & _) [Hx Hy] _ Hv.
  apply valid_move_tests in Hv. rewrite (u32_small (size g - 1)) in Hv by lia.
  destruct Hv as (((((((H1 & H2) & H3) & H4) & H5) & H6) & H7) & H8).
  unfold border_sides_ok, N_COLOR, E_COLOR, S_COLOR, W_COLOR.
  split; [repeat split; assumption|].
  split; [|split; [|split]]; intros n Hc Hn.
  - rewrite <- (H5 n Hc); [reflexivity|]. rewrite u32_small by lia. exact Hn.
  - rewrite <- (H6 n Hc); [reflexivity|]. rewrite u32_small by lia. exact Hn.
  - rewrite <- (H7 n Hc); [reflexivity|]. rewrite u32_small by lia. exact Hn.
  - rewrite <- (H8 n Hc); [reflexivity|]. rewrite u32_small by lia. exact Hn.
Qed.

(** C8 as amended, on [zero_game]. *)
Lemma valid_move_compares_zero_like_any_color_witness :
  valid_move zero_game 2 0 1 = true ∧
  (W_COLOR (get_tile zero_game 1) = 0 ↔ E_COLOR (get_tile zero_game 0) = 0).
Proof.
  split; [vm_compute; reflexivity|].
  apply (valid_move_compares_zero_like_any_color zero_game 2 0 1).
  - by_evaluation.
  - vm_compute. repeat split; congruence.
  - vm_compute. lia.
  - vm_compute. reflexivity.
  - lia.
  - vm_compute. reflexivity.
Defined.

(** *** What a search needs and what a failed search leaves *)

(** After a call of [play] that returns 0 the used flags are as on entry,
    and so is the board when the cells from the target on were empty. *)
Lemma failed_play_restores fuel p x y p' :
  good p x y → (∀ c, ¬ before c x y → board (gm p) !! c = None) →
  play fuel p x y = Some (false, p') →
  board (gm p') = board (gm p) ∧
  ∀ j, used (get_tile (gm p') j) = used (get_tile (gm p) j).
Proof.
  intros Hgood Hempty Hrun.
  apply play_post in Hrun as [(_ & _ & _ & _ & _ & K6 & _) (U1 & _ & _ & U4)]; [|exact Hgood].
  split; [|exact U1]. apply map_eq. intros c.
  destruct (Z.lt_ge_cases c.2 y) as [H1|H1]; [apply K6; left; exact H1|].
  destruct (Z.eq_dec c.2 y) as [H2|H2].
  - destruct (Z.lt_ge_cases c.1 x) as [H3|H3]; [apply K6; right; split; assumption|].
    destruct (U4 c) as [E|E]; [exact E|]. rewrite E. symmetry. apply Hempty.
    unfold before. lia.
  - destruct (U4 c) as [E|E]; [exact E|]. rewrite E. symmetry. apply Hempty.
    unfold before. lia.
Qed.

Lemma unused_filter_ext (l l' : list tile) :
  length l' = length l →
  (∀ j, used (default null_tile (l' !! j)) = used (default null_tile (l !! j))) →
  length (filter (fun t => used t = false) l')
  = length (filter (fun t => used t = false) l).
Proof.
  revert l'. induction l as [|t l IH]; intros [|t' l'] Hlen Hu; try discriminate; [reflexivity|].
  rewrite !filter_cons. pose proof (Hu 0%nat) as H0. simpl in H0.
  assert (IHl : length (filter (fun t => used t = false) l')
                = length (filter (fun t => used t = false) l)).
  { apply IH; [simpl in Hlen; lia|]. intros j. apply (Hu (S j)). }
  rewrite H0. destruct (decide (used t = false)); simpl; rewrite IHl; reflexivity.
Qed.

Lemma unused_count_ext g g' :
  length (tiles g') = length (tiles g) →
  (∀ j, used (get_tile g' j) = used (get_tile g j)) →
  unused_count g' = unused_count g.
Proof. intros Hl Hu. apply unused_filter_ext; assumption. Qed.

Lemma unused_filter_mark (l : list tile) : ∀ i,
  (i < length l)%nat → used (default null_tile (l !! i)) = false →
  S (length (filter (fun t => used t = false) (alter (with_used true) i l)))
  = length (filter (fun t => used t = false) l).
Proof.
  induction l as [|t l IH]; intros i Hi Hu; [simpl in Hi; lia|].
  destruct i as [|i]; simpl in Hu.
  - cbn [alter list_alter]. rewrite !filter_cons.
    destruct (decide (used (with_used true t) = false)) as [H|_]; [discriminate|].
    destruct (decide (used t = false)); [reflexivity|contradiction].
  - cbn [alter list_alter]. rewrite !filter_cons.
    destruct (decide (used t = false)); simpl; rewrite <- (IH i); try reflexivity;
      simpl in Hi; try lia; exact Hu.
Qed.

Lemma unused_count_mark i g :
  (i < length (tiles g))%nat → used (get_tile g i) = false →
  S (unused_count (set_used i true g)) = unused_count g.
Proof. intros Hi Hu. apply unused_filter_mark; assumption. Qed.

Section loops_need_tiles.
Variable rec : proc → Z → Z → outcome.
Hypothesis rec_post : ∀ p x y r p',
  good p x y → rec p x y = Some (r, p') → post None x y p r p'.
Hypothesis rec_needs : ∀ p x y p',
  good p x y → rec p x y = Some (true, p') →
  (cells_left (size (gm p)) x y ≤ unused_count (gm p))%nat.

Lemma rot_loop_needs_tiles x y i n : ∀ rot q q',
  good q x y →
  rot_loop rec x y i n rot q = Some (true, q') →
  (cells_left (size (gm q)) x y ≤ S (unused_count (gm q)))%nat.
Proof.
  induction n as [|n IH]; intros rot q q' Hgood Hrun; [discriminate|].
  cbn [rot_loop] in Hrun. cbv zeta in Hrun.
  set (q1 := with_game (set_rotation i rot (gm q)) q) in *.
  assert (Hc1 : unused_count (gm q1) = unused_count (gm q)).
  { apply unused_count_ext; [apply length_set_rotation|intros j; apply used_set_rotation]. }
  destruct (valid_move (gm q1) x y i).
  2:{ rewrite <- Hc1. apply (IH (rot + 1) q1 q'); [exact Hgood|exact Hrun]. }
  set (q2 := with_game (set_cell x y (Some i) (gm q1)) q1) in *.
  change (size (gm q2)) with (size (gm q)) in Hrun.
  destruct Hgood as [Hsz [Hx Hy]].
  destruct (next_cell (size (gm q)) x y) as [nx ny] eqn:Hn.
  destruct (ny =? size (gm q)) eqn:Hlast.
  { destruct (next_cell_cases (size (gm q)) x y Hsz Hx Hy)
      as [[? E] | [(? & ? & E) | (-> & -> & E)]]; rewrite E in Hn; injection Hn as <- <-;
      try (apply Z.eqb_eq in Hlast; lia).
    rewrite cells_left_last by lia. lia. }
  apply Z.eqb_neq in Hlast.
  assert (Hg2 : good q2 nx ny).
  { split; [exact Hsz|]. exact (next_cell_good (size (gm q)) x y nx ny Hsz Hx Hy Hn Hlast). }
  assert (Hstep : cells_left (size (gm q)) x y = S (cells_left (size (gm q)) nx ny)).
  { destruct (next_cell_cases (size (gm q)) x y Hsz Hx Hy)
      as [[? E] | [(-> & ? & E) | (? & ? & E)]]; rewrite E in Hn; injection Hn as <- <-.
    - apply cells_left_right; lia.
    - apply cells_left_down; lia.
    - lia. }
  destruct (rec q2 nx ny) as [[[|] q3]|] eqn:Hrec; [| |discriminate].
  - apply rec_needs in Hrec; [|exact Hg2].
    change (size (gm q2)) with (size (gm q)) in Hrec.
    change (unused_count (gm q2)) with (unused_count (gm q1)) in Hrec. lia.
  - apply rec_post in Hrec as [(K1 & _ & _ & K4 & _) (U1 & _)]; [|exact Hg2].
    set (q4 := with_game (set_cell x y None (gm q3)) q3) in *.
    assert (Hc4 : unused_count (gm q4) = unused_count (gm q)).
    { rewrite <- Hc1. apply unused_count_ext; [exact K4|exact U1]. }
    assert (Hs4 : size (gm q4) = size (gm q)) by exact K1.
    rewrite <- Hc4, <- Hs4. apply (IH (rot + 1) q4 q'); [|exact Hrun].
    unfold good, in_bounds. rewrite Hs4. split; [exact Hsz|split; assumption].
Qed.

Lemma tiles_loop_needs_tiles x y n : ∀ i q q',
  good q x y → (i + n ≤ length (tiles (gm q)))%nat →
  tiles_loop rec x y n i q = Some (true, q') →
  (cells_left (size (gm q)) x y ≤ unused_count (gm q))%nat.
Proof.
  induction n as [|n IH]; intros i q q' Hgood Hlen Hrun; [discriminate|].
  cbn [tiles_loop] in Hrun.
  destruct (used (get_tile (gm q) i)) eqn:Hu.
  { apply (IH (S i) q q'); [exact Hgood|lia|exact Hrun]. }
  destruct (rot_loop rec x y i 4 0 (with_game (set_used i true (gm q)) q))
    as [[[|] q1]|] eqn:Hrot; [| |discriminate].
  - apply rot_loop_needs_tiles in Hrot; [|exact Hgood].
    cbn [gm with_game] in Hrot. rewrite unused_count_mark in Hrot; [exact Hrot|lia|exact Hu].
  - apply (rot_loop_post rec rec_post) in Hrot; [|exact Hgood].
    apply post_unmark_used in Hrot as [(K1 & _ & _ & K4 & _) (U1 & _)]; [|lia|exact Hu].
    set (q2 := with_game (set_used i false (gm q1)) q1) in *.
    rewrite <- (unused_count_ext (gm q) (gm q2) K4 U1), <- K1.
    apply (IH (S i) q2 q'); [|rewrite K4; lia|exact Hrun].
    unfold good, in_bounds. rewrite K1. exact Hgood.
Qed.
End loops_need_tiles.

(** A call of [play] at [(x, y)] that returns 1 had as many unused tiles as
    cells from [(x, y)] to the last one. *)
Lemma play_needs_tiles fuel : ∀ p x y p',
  good p x y → play fuel p x y = Some (true, p') →
  (cells_left (size (gm p)) x y ≤ unused_count (gm p))%nat.
Proof.
  induction fuel as [|fuel IH]; intros p x y p' Hgood Hrun; [discriminate|].
  cbn [play] in Hrun. destruct (global_stop p); [discriminate|].
  destruct (poll_tick_frame p) as (E1 & _).
  destruct (poll (tick p)) as [received p1]. simpl in E1.
  destruct received; [discriminate|].
  destruct (global_solution_found p1); [discriminate|].
  rewrite <- E1.
  apply (tiles_loop_needs_tiles (play fuel) (play_post fuel) IH x y
           (length (tiles (gm p1))) 0%nat p1 p');
    [|simpl; lia|exact Hrun].
  unfold good, in_bounds. rewrite E1. exact Hgood.
Qed.

Lemma unused_filter_fresh (l : list tile) :
  length (filter (fun t => used t = false) (map (with_used false) l)) = length l.
Proof.
  induction l as [|t l IH]; [reflexivity|]. cbn [map]. rewrite filter_cons.
  destruct (decide (used (with_used false t) = false)) as [_|H]; [|exfalso; apply H; reflexivity].
  simpl. rewrite IH. reflexivity.
Qed.

Lemma unused_count_seed g c :
  (Z.to_nat (tile_id c) < length (tiles g))%nat →
  S (unused_count (seed_board g c)) = length (tiles g).
Proof.
  intros Hi. unfold seed_board.
  destruct (corner_cell (size g) (corner_type c)) as [cx cy].
  set (g0 := Game (size g) ∅ (map (with_used false) (tiles g))).
  set (i := Z.to_nat (tile_id c)) in *.
  assert (Hl0 : length (tiles g0) = length (tiles g)) by apply length_map.
  assert (Hu0 : ∀ j, used (get_tile g0 j) = false).
  { intros j. unfold get_tile, g0. cbn [tiles]. rewrite list_lookup_fmap.
    destruct (tiles g !! j); reflexivity. }
  change (unused_count (set_cell cx cy (Some i)
            (set_used i true (set_rotation i (corner_rotation c) g0))))
    with (unused_count (set_used i true (set_rotation i (corner_rotation c) g0))).
  rewrite unused_count_mark.
  - rewrite (unused_count_ext g0); [apply unused_filter_fresh|apply length_set_rotation|].
    intros j. apply used_set_rotation.
  - rewrite length_set_rotation. lia.
  - rewrite used_set_rotation. apply Hu0.
Qed.

Lemma cells_elem sz c : c ∈ cells sz ↔ 0 ≤ c.1 < sz ∧ 0 ≤ c.2 < sz.
Proof.
  unfold cells. rewrite list_elem_of_bind. split.
  - intros (cy & Hc & Hy). apply list_elem_of_fmap in Hc as (cx & -> & Hx).
    apply elem_of_seqZ in Hx, Hy. simpl. lia.
  - intros [Hx Hy]. exists c.2. split; [|apply elem_of_seqZ; lia].
    apply list_elem_of_fmap. exists c.1. split; [destruct c; reflexivity|].
    apply elem_of_seqZ. lia.
Qed.

Lemma find_start_in_bounds g sx sy :
  find_start g = (sx, sy) → sy < size g → in_bounds g sx sy.
Proof.
  unfold find_start. intros Hf Hsy.
  destruct (List.find _ (cells (size g))) as [c|] eqn:E.
  - apply List.find_some in E as [Hin _]. apply list_elem_of_In, cells_elem in Hin.
    subst c. exact Hin.
  - injection Hf as <- <-. lia.
Qed.

(** The active part of [main] always gets a result from its search. *)
Lemma worker_total g corners rk nprocs pr :
  0 < size g ≤ UINT_MAX → is_Some (worker g corners rk nprocs pr).
Proof.
  intros Hsz. unfold worker.
  set (g1 := seed_board g (default (Corner 0 0 0) (corners !! Z.to_nat rk))).
  assert (Hs1 : size g1 = size g).
  { unfold g1, seed_board. destruct (corner_cell _ _). reflexivity. }
  destruct (find_start g1) as [sx sy] eqn:Hf.
  destruct (Z.ltb_spec sy (size g1)) as [Hlt|_]; [|eexists; reflexivity].
  pose proof (find_start_in_bounds g1 sx sy Hf Hlt) as Hin.
  apply play_total.
  - split; [cbn [gm]; rewrite Hs1; exact Hsz|exact Hin].
  - cbn [gm]. unfold search_fuel, cells_left. destruct Hin as [? ?]. nia.
Qed.

(** A process seeded at a corner other than the top-left one has one unused
    tile less than cells to fill, since the scan from (0, 0) includes the
    seeded cell: its search never completes the board. *)
Lemma corner_worker_never_completes g corners rk nprocs pr c :
  2 ≤ size g ≤ UINT_MAX → length (tiles g) = Z.to_nat (size g * size g) →
  corners !! Z.to_nat rk = Some c → 1 ≤ corner_type c ≤ 3 →
  (Z.to_nat (tile_id c) < length (tiles g))%nat →
  fst <$> worker g corners rk nprocs pr = Some false.
Proof.
  intros Hsz Hlen Hc Hct Hid.
  destruct (worker_total g corners rk nprocs pr) as [[r p'] Hw]; [lia|].
  rewrite Hw. cbn. f_equal. destruct r; [exfalso|reflexivity].
  unfold worker in Hw. rewrite Hc in Hw.
  change (default (Corner 0 0 0) (Some c)) with c in Hw. cbv zeta in Hw.
  destruct (seeded_corner_on_the_scan g c Hsz Hct) as (Hstart & _).
  rewrite Hstart in Hw.
  assert (Hs1 : size (seed_board g c) = size g).
  { unfold seed_board. destruct (corner_cell _ _). reflexivity. }
  rewrite Hs1 in Hw.
  replace (0 <? size g) with true in Hw by (symmetry; apply Z.ltb_lt; lia).
  apply play_needs_tiles in Hw.
  - cbn [gm] in Hw. rewrite Hs1 in Hw. pose proof (unused_count_seed g c Hid) as Hu.
    unfold cells_left in Hw. replace (size g * size g - (0 * size g + 0))
      with (size g * size g) in Hw by lia. lia.
  - unfold good, in_bounds. cbn [gm]. rewrite Hs1. lia.
Qed.

(** C2 on [puzzle_ne] with four processes: the four tiles are corners, the
    board seeded with tile 1 in the NE corner has the complete tiling
    [tiling_ne], and whatever the probes find the search of every process
    returns 0 and every process exits with status 1. *)
Theorem corner_workers_miss_tiling :
  setup 2 5 puzzle_ne
    = Some (load puzzle_ne, [Corner 0 0 1; Corner 1 0 1; Corner 2 0 1; Corner 3 0 1]) ∧
  board (seed_board (load puzzle_ne) (Corner 1 0 1)) !! (1, 0) = Some 1%nat ∧
  solved tiling_ne = true ∧
  (∀ pr, local_solutions (load puzzle_ne)
           [Corner 0 0 1; Corner 1 0 1; Corner 2 0 1; Corner 3 0 1] 4 pr
         = [Some false; Some false; Some false; Some false]) ∧
  (∀ pr, run_exit 2 5 puzzle_ne 4 pr <$> [0; 1; 2; 3]
         = [Some 1; Some 1; Some 1; Some 1]).
Proof.
  split; [vm_compute; reflexivity|]. split; [vm_compute; reflexivity|].
  split; [vm_compute; reflexivity|].
  split; intros pr; vm_compute; reflexivity.
Qed.

(** C9 on [puzzle_dup], process 1 of 4: the search starts at (0, 0) on a
    board that holds tile 1 in the cell (1, 0), returns 0 with no stop
    signalled, and leaves the cell (1, 0) empty; the used flags are as on
    entry. *)
Theorem failed_search_empties_seeded_corner :
  board (seed_board (load puzzle_dup) (Corner 1 0 1)) !! (1, 0) = Some 1%nat ∧
  find_start (seed_board (load puzzle_dup) (Corner 1 0 1)) = (0, 0) ∧
  ∀ pr,
    (fun rp => (rp.1, global_stop rp.2, global_solution_found rp.2,
                board (gm rp.2) !! (1, 0), used <$> tiles (gm rp.2)))
      <$> worker (load puzzle_dup)
            [Corner 0 0 1; Corner 1 0 1; Corner 2 0 1; Corner 3 0 1] 1 4 pr
    = Some (false, false, false, None, [false; true; false; false]).
Proof.
  split; [vm_compute; reflexivity|]. split; [vm_compute; reflexivity|].
  intros pr. vm_compute. reflexivity.
Qed.

(** Without a corner every process returns 1 before any search. *)
Lemma exit_status_no_corner g locals rk nprocs :
  exit_status g locals rk nprocs 0 = Some 1.
Proof. reflexivity. Qed.

(** When every process is active, all of them return the same status: 0
    when some search succeeded, else 1. *)
Lemma exit_status_all_active g locals rk nprocs num_corners :
  0 < num_corners → nprocs ≤ num_corners → 0 ≤ rk < nprocs →
  exit_status g locals rk nprocs num_corners
  = Some (if global_result locals =? 0 then 1 else 0).
Proof.
  intros Hc Hn Hrk. unfold exit_status, final_solution_found, world_collectives,
    split_completes, active, effective_processes.
  replace (num_corners =? 0) with false by (symmetry; apply Z.eqb_neq; lia).
  replace (nprocs <=? num_corners) with true by (symmetry; apply Z.leb_le; lia).
  destruct (nprocs <? num_corners);
    (replace (rk <? _) with true by (symmetry; apply Z.ltb_lt; lia));
    (replace (0 <? _) with true by (symmetry; apply Z.ltb_lt; lia));
    cbn; unfold solution_found_active; destruct (global_result locals =? 0); reflexivity.
Qed.

(** C10 on [puzzle_one] with two processes: there is one corner, so the
    process 1 is inactive; its broadcast of [solution_found] is its second
    collective call on [MPI_COMM_WORLD] and meets the second call of the
    root, the broadcast of [g->size]; no search succeeds, the process 1
    exits with status 0 and the process 0 does not get past
    [MPI_Comm_split]. *)
Theorem inactive_process_reads_board_size :
  setup 2 5 puzzle_one = Some (load puzzle_one, [Corner 0 0 0]) ∧
  active 1 2 1 = false ∧
  world_collectives 0 2 1 !! 1%nat = Some Bcast_game_size ∧
  world_collectives 1 2 1 !! 1%nat = Some Bcast_solution_found ∧
  ∀ pr,
    local_solutions (load puzzle_one) [Corner 0 0 0] 2 pr = [Some false] ∧
    run_exit 2 5 puzzle_one 2 pr 1 = Some 0 ∧
    run_exit 2 5 puzzle_one 2 pr 0 = None.
Proof.
  split; [vm_compute; reflexivity|]. split; [vm_compute; reflexivity|].
  split; [vm_compute; reflexivity|]. split; [vm_compute; reflexivity|].
  intros pr. split; [vm_compute; reflexivity|]. split; vm_compute; reflexivity.
Qed.

(** * Further properties of the code *)

Lemma eh_peca_de_quina_unfold t :
  eh_peca_de_quina t =
  let t0 := with_rotation 0 t in
  if corner_cond t0 0 then (t0, Some (0, 0))
  else if corner_cond t0 1 then (t0, Some (0, 1))
  else if corner_cond t0 2 then (t0, Some (0, 2))
  else if corner_cond t0 3 then (t0, Some (0, 3))
  else (with_rotation 3 t, None).
Proof.
  destruct t as [[[[c0 c1] c2] c3] r0 i u].
  unfold eh_peca_de_quina, quina_loop, corner_cond, N_COLOR, E_COLOR, S_COLOR, W_COLOR, X_COLOR.
  cbn [with_rotation colors rotation tile_ident used].
  repeat match goal with
  | |- context [Z.rem ?a 4] =>
      let v := eval vm_compute in (Z.rem a 4) in change (Z.rem a 4) with v
  end.
  cbn [color_at Z.eqb Pos.eqb].
  destruct (c0 =? 0), (c1 =? 0), (c2 =? 0), (c3 =? 0); cbn [andb]; reflexivity.
Qed.

Lemma eh_peca_de_quina_fst t : ∃ r, fst (eh_peca_de_quina t) = with_rotation r t.
Proof.
  rewrite eh_peca_de_quina_unfold. cbv zeta.
  repeat match goal with |- context [if ?c then _ else _] => destruct c end;
    eexists; reflexivity.
Qed.

Lemma separar_step_fst t : fst (separar_step t) = t.
Proof.
  unfold separar_step. destruct (eh_peca_de_quina_fst t) as [r Hr].
  destruct (eh_peca_de_quina t) as [t1 res]. cbn [fst] in *. subst t1.
  destruct t. reflexivity.
Qed.

Lemma separar_step_snd t :
  snd (separar_step t) =
  (fun rk => Corner (tile_ident t) rk.1 rk.2) <$> snd (eh_peca_de_quina t).
Proof.
  unfold separar_step. destruct (eh_peca_de_quina_fst t) as [r Hr].
  destruct (eh_peca_de_quina t) as [t1 [[rv k]|]]; cbn [fst snd] in *; subst t1; reflexivity.
Qed.

(** *** The corner list *)

Lemma separar_step_corner t c :
  snd (separar_step t) = Some c →
  tile_id c = tile_ident t ∧ corner_rotation c = 0 ∧ 0 ≤ corner_type c ≤ 3 ∧
  corner_cond (with_rotation 0 t) (corner_type c) = true.
Proof.
  rewrite separar_step_snd, eh_peca_de_quina_unfold. cbv zeta.
  destruct (corner_cond (with_rotation 0 t) 0) eqn:E0;
    [intros [= <-]; cbn; repeat split; try lia; exact E0|].
  destruct (corner_cond (with_rotation 0 t) 1) eqn:E1;
    [intros [= <-]; cbn; repeat split; try lia; exact E1|].
  destruct (corner_cond (with_rotation 0 t) 2) eqn:E2;
    [intros [= <-]; cbn; repeat split; try lia; exact E2|].
  destruct (corner_cond (with_rotation 0 t) 3) eqn:E3;
    [intros [= <-]; cbn; repeat split; try lia; exact E3|].
  discriminate.
Qed.

Lemma separar_step_is_Some t :
  is_Some (snd (separar_step t)) ↔ adjacent_border (with_rotation 0 t).
Proof.
  rewrite adjacent_border_iff. split.
  - intros [c Hc]. apply separar_step_corner in Hc as (_ & _ & Hk & Hc).
    eauto.
  - intros (k & Hk & Hc). rewrite separar_step_snd, eh_peca_de_quina_unfold.
    cbv zeta.
    destruct (small_cases k Hk) as [-> | [-> | [-> | ->]]];
      repeat match goal with
      | |- context [if ?c then _ else _] => destruct c eqn:?
      end; cbn; eauto; congruence.
Qed.

Lemma corners_sorted (l : list tile) (off : Z) :
  (∀ (i : nat) t, l !! i = Some t → tile_ident t = off + Z.of_nat i) →
  StronglySorted Z.lt (tile_id <$> omap (fun t => snd (separar_step t)) l) ∧
  ∀ c, c ∈ omap (fun t => snd (separar_step t)) l → off ≤ tile_id c.
Proof.
  revert off. induction l as [|t l IH]; intros off Hid.
  - split; [constructor|]. intros c Hc. inversion Hc.
  - destruct (IH (off + 1)) as [IH1 IH2].
    { intros i t' Hi. rewrite (Hid (S i) t' Hi). lia. }
    pose proof (Hid 0%nat t eq_refl) as Ht.
    cbn [omap list_omap]. destruct (snd (separar_step t)) as [c|] eqn:Hc.
    + apply separar_step_corner in Hc as (Hc & _).
      split.
      * cbn [fmap list_fmap]. constructor; [exact IH1|].
        apply Forall_forall. intros z Hz. apply list_elem_of_fmap in Hz as (c' & -> & Hc').
        specialize (IH2 c' Hc'). lia.
      * intros c' Hc'. apply elem_of_cons in Hc' as [-> | Hc']; [lia|].
        specialize (IH2 c' Hc'). lia.
    + split; [exact IH1|]. intros c' Hc'. specialize (IH2 c' Hc'). lia.
Qed.

Lemma initialize_Some b nc recs g :
  initialize b nc recs = Some g →
  nc < 256 ∧ (Z.to_nat (u32 (b * b)) ≤ length recs)%nat ∧
  g = Game b ∅ (imap (fun i c => Tile c 0 (Z.of_nat i) false)
                     (take (Z.to_nat (u32 (b * b))) recs)).
Proof.
  unfold initialize. cbv zeta.
  destruct (Z.ltb_spec nc 256); [|discriminate].
  destruct (Nat.leb_spec (Z.to_nat (u32 (b * b))) (length recs)); [|discriminate].
  cbn [andb]. intros [= <-]. repeat split; assumption.
Qed.

Lemma initialize_tile b nc recs g (i : nat) t :
  initialize b nc recs = Some g → tiles g !! i = Some t →
  ∃ c, recs !! i = Some c ∧ t = Tile c 0 (Z.of_nat i) false.
Proof.
  intros Hg Ht. apply initialize_Some in Hg as (_ & _ & ->). cbn [tiles] in Ht.
  rewrite list_lookup_imap in Ht.
  destruct (take _ recs !! i) as [c|] eqn:Hc; [|discriminate].
  injection Ht as <-. exists c. split; [|reflexivity].
  apply lookup_take_Some in Hc as [Hc _]. exact Hc.
Qed.

Lemma with_rotation_own t : with_rotation (rotation t) t = t.
Proof. destruct t. reflexivity. Qed.

(** *** [initialize] *)

(** *** The start scan *)

Lemma seqZ_sorted m n : StronglySorted Z.lt (seqZ m n).
Proof.
  remember (Z.to_nat n) as k eqn:Hk. revert m n Hk.
  induction k as [|k IH]; intros m n Hk.
  - rewrite seqZ_nil by lia. constructor.
  - rewrite seqZ_cons by lia. constructor; [apply IH; lia|].
    apply Forall_forall. intros z Hz. apply elem_of_seqZ in Hz. lia.
Qed.

Lemma row_sorted xs cy :
  StronglySorted Z.lt xs → StronglySorted cell_lt ((fun cx => (cx, cy)) <$> xs).
Proof.
  induction 1 as [|x xs Hs IH Hx]; cbn [fmap list_fmap]; constructor; [exact IH|].
  apply Forall_forall. intros c Hc. apply list_elem_of_fmap in Hc as (x' & -> & Hx').
  rewrite Forall_forall in Hx. specialize (Hx x' Hx'). unfold cell_lt, before. simpl. lia.
Qed.

Lemma rows_sorted xs ys :
  StronglySorted Z.lt xs → StronglySorted Z.lt ys →
  StronglySorted cell_lt (cy ← ys; (fun cx => (cx, cy)) <$> xs).
Proof.
  intros Hxs. induction 1 as [|y ys Hs IH Hy]; [constructor|].
  cbn [mbind list_bind]. apply StronglySorted_app.
  split; [|split; [apply row_sorted, Hxs|exact IH]].
  intros a b Ha Hb. apply list_elem_of_fmap in Ha as (x & -> & _).
  apply list_elem_of_bind in Hb as (y' & Hb & Hy').
  apply list_elem_of_fmap in Hb as (x' & -> & _).
  rewrite Forall_forall in Hy. specialize (Hy y' Hy').
  unfold cell_lt, before. simpl. lia.
Qed.

Lemma cells_sorted sz : StronglySorted cell_lt (cells sz).
Proof. apply rows_sorted; apply seqZ_sorted. Qed.

Lemma find_first {A} (f : A → bool) l c :
  List.find f l = Some c →
  ∃ l1 l2, l = l1 ++ c :: l2 ∧ f c = true ∧ ∀ a, a ∈ l1 → f a = false.
Proof.
  induction l as [|a l IH]; [discriminate|]. cbn [List.find].
  destruct (f a) eqn:Ha.
  - intros [= ->]. exists [], l. split; [reflexivity|]. split; [exact Ha|].
    intros a' Ha'. inversion Ha'.
  - intros H. destruct (IH H) as (l1 & l2 & -> & Hc & Hl1).
    exists (a :: l1), l2. split; [reflexivity|]. split; [exact Hc|].
    intros a' Ha'. apply elem_of_cons in Ha' as [-> | Ha']; [exact Ha|apply Hl1, Ha'].
Qed.

Lemma setup_Some b nc recs g corners :
  setup b nc recs = Some (g, corners) →
  initialize b nc recs = Some g ∧
  corners = omap (fun t => snd (separar_step t)) (tiles g).
Proof.
  unfold setup. destruct (initialize b nc recs) as [g0|] eqn:Hini; [|discriminate].
  cbn [fmap option_fmap option_map]. unfold separar_pecas_de_quina.
  rewrite (map_ext _ id) by apply separar_step_fst. rewrite map_id.
  intros [= Hg Hc]. destruct g0. simpl in Hg, Hc. subst g corners.
  split; reflexivity.
Qed.

Lemma initialize_shape b nc recs g :
  initialize b nc recs = Some g →
  size g = b ∧ board g = ∅ ∧ length (tiles g) = Z.to_nat (u32 (b * b)) ∧
  ∀ (i : nat) t, tiles g !! i = Some t →
    rotation t = 0 ∧ tile_ident t = Z.of_nat i ∧ used t = false.
Proof.
  intros Hg. pose proof (initialize_Some _ _ _ _ Hg) as (H1 & H2 & Hgeq).
  split; [rewrite Hgeq; reflexivity|]. split; [rewrite Hgeq; reflexivity|]. split.
  - rewrite Hgeq. cbn [tiles]. rewrite length_imap, length_take. lia.
  - intros i t Ht. destruct (initialize_tile _ _ _ _ _ _ Hg Ht) as (c & _ & ->).
    repeat split.
Qed.

(** *** More fuel changes nothing *)

Section loops_mono.
Variables rec rec' : proc → Z → Z → outcome.
Hypothesis rec_mono : ∀ p x y o, rec p x y = Some o → rec' p x y = Some o.
Variables x y : Z.

Lemma rot_loop_mono i n : ∀ rot p o,
  rot_loop rec x y i n rot p = Some o → rot_loop rec' x y i n rot p = Some o.
Proof.
  induction n as [|n IH]; intros rot p o Hrun; [exact Hrun|].
  cbn [rot_loop] in *. cbv zeta in *.
  destruct (valid_move _ x y i); [|apply IH; exact Hrun].
  destruct (next_cell _ x y) as [nx ny].
  destruct (ny =? _); [exact Hrun|].
  destruct (rec _ nx ny) as [[[|] p3]|] eqn:Hrec; [| |discriminate];
    rewrite (rec_mono _ _ _ _ Hrec); [exact Hrun|apply IH; exact Hrun].
Qed.

Lemma tiles_loop_mono n : ∀ i p o,
  tiles_loop rec x y n i p = Some o → tiles_loop rec' x y n i p = Some o.
Proof.
  induction n as [|n IH]; intros i p o Hrun; [exact Hrun|].
  cbn [tiles_loop] in *.
  destruct (used (get_tile (gm p) i)); [apply IH; exact Hrun|].
  destruct (rot_loop rec x y i 4 0 _) as [[[|] q]|] eqn:Hrot; [| |discriminate];
    rewrite (rot_loop_mono _ _ _ _ _ Hrot); [exact Hrun|apply IH; exact Hrun].
Qed.
End loops_mono.

Lemma play_mono_S fuel : ∀ p x y o,
  play fuel p x y = Some o → play (S fuel) p x y = Some o.
Proof.
  induction fuel as [|fuel IH]; intros p x y o Hrun; [discriminate|].
  cbn [play] in Hrun. change (play (S (S fuel)) p x y) with
    (if global_stop p then Some (false, p)
     else let '(received, p1) := poll (tick p) in
          if received then Some (false, p1)
          else if global_solution_found p1 then Some (false, p1)
          else tiles_loop (play (S fuel)) x y (length (tiles (gm p1))) 0 p1).
  destruct (global_stop p); [exact Hrun|].
  destruct (poll (tick p)) as [[|] p1]; [exact Hrun|].
  destruct (global_solution_found p1); [exact Hrun|].
  apply (tiles_loop_mono (play fuel) (play (S fuel)) IH). exact Hrun.
Qed.

Lemma play_mono fuel fuel' p x y o :
  (fuel ≤ fuel')%nat → play fuel p x y = Some o → play fuel' p x y = Some o.
Proof.
  induction 1 as [|fuel' _ IH]; [auto|]. intros H. apply play_mono_S, IH, H.
Qed.

Lemma get_tile_set_cell x y v g j : get_tile (set_cell x y v g) j = get_tile g j.
Proof. reflexivity. Qed.

(** Placing a tile that [valid_move] accepts keeps the placed tiles
    acceptable: the test between two neighbours is symmetric. *)
Lemma valid_move_place g x y i c j :
  0 < size g ≤ UINT_MAX → in_bounds g x y → in_bounds g c.1 c.2 → c ≠ (x, y) →
  valid_move g x y i = true → board g !! c = Some j →
  valid_move g c.1 c.2 j = true →
  valid_move (set_cell x y (Some i) g) c.1 c.2 j = true.
Proof.
  intros Hsz [Hx Hy] [Hcx Hcy] Hne Hi Hc Hj.
  destruct c as [cx cy]. cbn [fst snd] in *.
  apply valid_move_tests in Hi, Hj. apply valid_move_tests.
  change (size (set_cell x y (Some i) g)) with (size g).
  rewrite (u32_small (size g - 1)) in * by lia.
  destruct Hi as (((((((_ & _) & _) & _) & Iw) & Ie) & In) & Is).
  destruct Hj as (((((((J1 & J2) & J3) & J4) & Jw) & Je) & Jn) & Js).
  repeat split; try assumption; intros n Hlt Hn; rewrite ?get_tile_set_cell.
  - (* West neighbour of c *)
    rewrite (u32_small (cx - 1)) in * by lia.
    destruct (decide ((cx - 1, cy) = (x, y))) as [E|E].
    + injection E as Ex Ey. subst cy. replace (cx - 1) with x in Hn by lia.
      rewrite board_set_cell_eq in Hn. injection Hn as <-.
      symmetry. apply Ie; [lia|]. rewrite u32_small by lia.
      replace (x + 1) with cx by lia. exact Hc.
    + rewrite board_set_cell_ne in Hn by exact E. apply Jw; [lia|exact Hn].
  - (* East neighbour of c *)
    rewrite (u32_small (cx + 1)) in * by lia.
    destruct (decide ((cx + 1, cy) = (x, y))) as [E|E].
    + injection E as Ex Ey. subst cy. replace (cx + 1) with x in Hn by lia.
      rewrite board_set_cell_eq in Hn. injection Hn as <-.
      symmetry. apply Iw; [lia|]. rewrite u32_small by lia.
      replace (x - 1) with cx by lia. exact Hc.
    + rewrite board_set_cell_ne in Hn by exact E. apply Je; [lia|exact Hn].
  - (* North neighbour of c *)
    rewrite (u32_small (cy - 1)) in * by lia.
    destruct (decide ((cx, cy - 1) = (x, y))) as [E|E].
    + injection E as Ex Ey. subst cx. replace (cy - 1) with y in Hn by lia.
      rewrite board_set_cell_eq in Hn. injection Hn as <-.
      symmetry. apply Is; [lia|]. rewrite u32_small by lia.
      replace (y + 1) with cy by lia. exact Hc.
    + rewrite board_set_cell_ne in Hn by exact E. apply Jn; [lia|exact Hn].
  - (* South neighbour of c *)
    rewrite (u32_small (cy + 1)) in * by lia.
    destruct (decide ((cx, cy + 1) = (x, y))) as [E|E].
    + injection E as Ex Ey. subst cx. replace (cy + 1) with y in Hn by lia.
      rewrite board_set_cell_eq in Hn. injection Hn as <-.
      symmetry. apply In; [lia|]. rewrite u32_small by lia.
      replace (y - 1) with cy by lia. exact Hc.
    + rewrite board_set_cell_ne in Hn by exact E. apply Js; [lia|exact Hn].
Qed.

(** [tiled] depends on the board and on the placed tiles alone. *)
Lemma tiled_ext g g' x y :
  size g' = size g → board g' = board g → length (tiles g') = length (tiles g) →
  (∀ c j, board g !! c = Some j → get_tile g' j = get_tile g j) →
  tiled g x y → tiled g' x y.
Proof.
  intros Hs Hb Hl Hu (T1 & T2 & T3). unfold tiled, in_bounds. rewrite Hs, Hb, Hl.
  split; [exact T1|]. split; [|exact T3].
  intros c i Hc. destruct (T2 c i Hc) as (A1 & A2 & A3 & A4 & A6 & A5).
  split; [exact A1|]. split; [exact A2|]. split; [exact A3|].
  split; [rewrite (Hu c i Hc); exact A4|].
  split; [rewrite (Hu c i Hc); exact A6|].
  rewrite <- A5. apply valid_move_ext; [exact Hs|exact Hb| |].
  - intros s. rewrite (Hu c i Hc). reflexivity.
  - intros c' n s Hn. rewrite Hb in Hn. rewrite (Hu c' n Hn). reflexivity.
Qed.

Lemma tiled_empty_from g x y c : tiled g x y → ¬ before c x y → board g !! c = None.
Proof.
  intros (_ & T2 & _) Hc. destruct (board g !! c) as [i|] eqn:E; [|reflexivity].
  destruct (T2 c i E) as (_ & Hb & _). contradiction.
Qed.

(** What a failed call leaves is the partial tiling it was given. *)
Lemma restored_board skip x y p p' :
  kept skip x y p p' → undone p p' → tiled (gm p) x y →
  board (gm p') = board (gm p).
Proof.
  intros (_ & _ & _ & _ & _ & K6 & _) (_ & _ & _ & U4) (_ & T2 & _).
  apply map_eq. intros c.
  destruct (U4 c) as [E|E]; [exact E|].
  destruct (board (gm p) !! c) as [i|] eqn:Ec; [|exact E].
  destruct (T2 c i Ec) as (_ & Hbef & _).
  rewrite (K6 c Hbef). exact Ec.
Qed.

Lemma tiled_restored x y p p' :
  kept None x y p p' → undone p p' → tiled (gm p) x y → tiled (gm p') x y.
Proof.
  intros K U HT. pose proof (restored_board _ _ _ _ _ K U HT) as Hb.
  destruct K as (K1 & _ & _ & K4 & _ & _ & K7).
  apply (tiled_ext (gm p)); [exact K1|exact Hb|exact K4| |exact HT].
  intros c j Hc. destruct HT as (_ & T2 & _). destruct (T2 c j Hc) as (_ & _ & _ & B4 & _).
  apply K7; [discriminate|exact B4].
Qed.

Lemma before_next_inv sz x y nx ny c :
  0 < sz ≤ UINT_MAX → 0 ≤ x < sz → 0 ≤ y < sz →
  next_cell sz x y = (nx, ny) →
  0 ≤ c.1 < sz → 0 ≤ c.2 < sz →
  before c nx ny ↔ before c x y ∨ c = (x, y).
Proof.
  intros Hsz Hx Hy Hn Hc1 Hc2. destruct c as [cx cy]. unfold before. cbn [fst snd] in *.
  destruct (next_cell_cases sz x y Hsz Hx Hy) as [[? E] | [(? & ? & E) | (? & ? & E)]];
    rewrite E in Hn; injection Hn as <- <-; split.
  all: try (intros Hb; destruct (Z.eq_dec cx x), (Z.eq_dec cy y);
            first [right; f_equal; lia | left; lia]).
  all: intros [Hb | Heq]; [lia | injection Heq as -> ->; lia].
Qed.

(** One more tile on the first empty cell. *)
Lemma tiled_place g x y i nx ny :
  0 < size g ≤ UINT_MAX → in_bounds g x y →
  next_cell (size g) x y = (nx, ny) →
  tiled g x y → (i < length (tiles g))%nat → used (get_tile g i) = true →
  0 ≤ rotation (get_tile g i) ≤ 3 →
  (∀ c, board g !! c ≠ Some i) → valid_move g x y i = true →
  tiled (set_cell x y (Some i) g) nx ny.
Proof.
  intros Hsz Hin Hn (T1 & T2 & T3) Hi Hu Hr Hfree Hv.
  pose proof Hin as [Hx Hy]. rewrite Forall_forall in T1.
  unfold tiled, in_bounds. change (size (set_cell x y (Some i) g)) with (size g).
  change (tiles (set_cell x y (Some i) g)) with (tiles g).
  split; [|split].
  - apply Forall_forall. intros c Hc Hb. pose proof Hc as Hc'.
    apply cells_elem in Hc' as [Hc1 Hc2].
    apply (before_next_inv (size g) x y nx ny c Hsz Hx Hy Hn Hc1 Hc2) in Hb as [Hb | ->].
    + rewrite board_set_cell_ne by (apply before_irrefl; exact Hb).
      apply T1; [exact Hc|exact Hb].
    + rewrite board_set_cell_eq. eexists; reflexivity.
  - intros c j Hc. destruct (decide (c = (x, y))) as [-> | Hne].
    + rewrite board_set_cell_eq in Hc. injection Hc as <-. cbn [fst snd].
      split; [exact Hin|]. split.
      { apply (before_next_inv (size g) x y nx ny (x, y) Hsz Hx Hy Hn Hx Hy). right. reflexivity. }
      split; [exact Hi|]. split; [exact Hu|]. split; [exact Hr|].
      rewrite valid_move_ignores_cell. exact Hv.
    + rewrite board_set_cell_ne in Hc by exact Hne.
      destruct (T2 c j Hc) as (A1 & A2 & A3 & A4 & A6 & A5).
      split; [exact A1|]. split.
      { destruct A1 as [Hc1 Hc2].
        apply (before_next_inv (size g) x y nx ny c Hsz Hx Hy Hn Hc1 Hc2). left. exact A2. }
      split; [exact A3|]. split; [exact A4|]. split; [exact A6|].
      apply valid_move_place; assumption.
  - intros c j Hc c' j' Hc' <-.
    destruct (decide (c = (x, y))) as [-> | Hne], (decide (c' = (x, y))) as [-> | Hne'].
    + reflexivity.
    + rewrite board_set_cell_eq in Hc. rewrite board_set_cell_ne in Hc' by exact Hne'.
      injection Hc as <-. exfalso. exact (Hfree c' Hc').
    + rewrite board_set_cell_eq in Hc'. rewrite board_set_cell_ne in Hc by exact Hne.
      injection Hc' as <-. exfalso. exact (Hfree c Hc).
    + rewrite board_set_cell_ne in Hc, Hc' by assumption. exact (T3 c j Hc c' j Hc' eq_refl).
Qed.

Lemma tiled_not_placed g x y i :
  tiled g x y → used (get_tile g i) = false → ∀ c, board g !! c ≠ Some i.
Proof.
  intros (_ & T2 & _) Hu c Hc. destruct (T2 c i Hc) as (_ & _ & _ & H & _). congruence.
Qed.

Section loops_sound.
Variable rec : proc → Z → Z → outcome.
Hypothesis rec_post : ∀ p x y r p',
  good p x y → rec p x y = Some (r, p') → post None x y p r p'.
Hypothesis rec_sound : ∀ p x y p',
  good p x y → tiled (gm p) x y → rec p x y = Some (true, p') →
  tiled (gm p') (size (gm p')) (size (gm p')).

Lemma rot_loop_sound x y i n : ∀ rot q q',
  good q x y → tiled (gm q) x y →
  (i < length (tiles (gm q)))%nat → used (get_tile (gm q) i) = true →
  (∀ c, board (gm q) !! c ≠ Some i) →
  0 ≤ rot → rot + Z.of_nat n ≤ 4 →
  rot_loop rec x y i n rot q = Some (true, q') →
  tiled (gm q') (size (gm q')) (size (gm q')).
Proof.
  induction n as [|n IH]; intros rot q q' Hgood HT Hi Hu Hfree Hr0 Hr4 Hrun; [discriminate|].
  cbn [rot_loop] in Hrun. cbv zeta in Hrun.
  set (q1 := with_game (set_rotation i rot (gm q)) q) in *.
  assert (HT1 : tiled (gm q1) x y).
  { apply (tiled_ext (gm q)); [reflexivity|reflexivity|apply length_set_rotation| |exact HT].
    intros c j Hc. apply get_tile_set_rotation_ne. intros ->. exact (Hfree c Hc). }
  assert (Hi1 : (i < length (tiles (gm q1)))%nat)
    by (unfold q1; cbn [gm with_game]; rewrite length_set_rotation; exact Hi).
  assert (Hu1 : used (get_tile (gm q1) i) = true)
    by (unfold q1; cbn [gm with_game]; rewrite used_set_rotation; exact Hu).
  assert (Hfree1 : ∀ c, board (gm q1) !! c ≠ Some i) by exact Hfree.
  assert (Hgood1 : good q1 x y) by exact Hgood.
  destruct (valid_move (gm q1) x y i) eqn:Hv.
  2:{ apply (IH (rot + 1) q1 q'); try assumption; lia. }
  assert (Hrot1 : 0 ≤ rotation (get_tile (gm q1) i) ≤ 3).
  { unfold q1. cbn [gm with_game]. rewrite get_tile_set_rotation_eq by exact Hi.
    cbn [with_rotation rotation]. lia. }
  set (q2 := with_game (set_cell x y (Some i) (gm q1)) q1) in *.
  change (size (gm q2)) with (size (gm q)) in Hrun.
  destruct Hgood as [Hsz [Hx Hy]].
  destruct (next_cell (size (gm q)) x y) as [nx ny] eqn:Hn.
  assert (HT2 : tiled (gm q2) nx ny).
  { apply tiled_place; try assumption. split; assumption. }
  destruct (ny =? size (gm q)) eqn:Hlast.
  - injection Hrun as <-. apply Z.eqb_eq in Hlast.
    change (gm (notify q2)) with (gm q2). change (size (gm q2)) with (size (gm q)).
    destruct (next_cell_cases (size (gm q)) x y Hsz Hx Hy)
      as [[? E] | [(? & ? & E) | (? & ? & E)]]; rewrite E in Hn; injection Hn as <- <-;
      [lia|lia|exact HT2].
  - apply Z.eqb_neq in Hlast.
    assert (Hg2 : good q2 nx ny).
    { split; [exact Hsz|]. exact (next_cell_good (size (gm q)) x y nx ny Hsz Hx Hy Hn Hlast). }
    destruct (rec q2 nx ny) as [[[|] p3]|] eqn:Hrec; [| |discriminate].
    + injection Hrun as <-. change (gm (notify p3)) with (gm p3).
      apply (rec_sound q2 nx ny p3); assumption.
    + apply rec_post in Hrec as [K U]; [|exact Hg2].
      pose proof (restored_board _ _ _ _ _ K U HT2) as Hb3.
      destruct K as (K1 & _ & _ & K4 & _ & _ & K7).
      set (p4 := with_game (set_cell x y None (gm p3)) p3) in *.
      assert (Hb4 : board (gm p4) = board (gm q1)).
      { apply map_eq. intros c. unfold p4. cbn [gm with_game].
        destruct (decide (c = (x, y))) as [-> | Hne].
        - rewrite board_set_cell_eq. symmetry.
          apply (tiled_empty_from _ x y); [exact HT1|].
          unfold before. cbn [fst snd]. lia.
        - rewrite board_set_cell_ne by exact Hne. rewrite Hb3.
          unfold q2. cbn [gm with_game]. apply board_set_cell_ne. exact Hne. }
      assert (Hget : ∀ j, used (get_tile (gm q1) j) = true →
                          get_tile (gm p4) j = get_tile (gm q1) j).
      { intros j Hj. unfold p4. cbn [gm with_game]. rewrite get_tile_set_cell.
        rewrite K7; [reflexivity|discriminate|exact Hj]. }
      apply (IH (rot + 1) p4 q'); [| | | | |lia|lia|exact Hrun].
      * unfold good, in_bounds, p4. cbn [gm with_game set_cell size]. rewrite K1.
        split; [exact Hsz|split; assumption].
      * apply (tiled_ext (gm q1)); [exact K1|exact Hb4|exact K4| |exact HT1].
        intros c j Hc. apply Hget. destruct HT1 as (_ & T2 & _).
        destruct (T2 c j Hc) as (_ & _ & _ & B4 & _). exact B4.
      * unfold p4. cbn [gm with_game set_cell tiles]. rewrite K4. exact Hi1.
      * rewrite (Hget i Hu1). exact Hu1.
      * rewrite Hb4. exact Hfree1.
Qed.

Lemma tiles_loop_sound x y n : ∀ i p p',
  good p x y → tiled (gm p) x y → (i + n ≤ length (tiles (gm p)))%nat →
  tiles_loop rec x y n i p = Some (true, p') →
  tiled (gm p') (size (gm p')) (size (gm p')).
Proof.
  induction n as [|n IH]; intros i p p' Hgood HT Hlen Hrun; [discriminate|].
  cbn [tiles_loop] in Hrun.
  destruct (used (get_tile (gm p) i)) eqn:Hu.
  { apply (IH (S i) p p'); [exact Hgood|exact HT|lia|exact Hrun]. }
  pose proof (tiled_not_placed _ _ _ i HT Hu) as Hfree.
  set (pm := with_game (set_used i true (gm p)) p) in *.
  destruct (rot_loop rec x y i 4 0 pm) as [[[|] q]|] eqn:Hrot; [| |discriminate].
  - injection Hrun as <-.
    apply (rot_loop_sound x y i 4 0 pm q);
      [exact Hgood| | | |exact Hfree|lia|simpl; lia|exact Hrot].
    + apply (tiled_ext (gm p)); [reflexivity|reflexivity|apply length_set_used| |exact HT].
      intros c j Hc. apply get_tile_set_used_ne. intros ->. exact (Hfree c Hc).
    + unfold pm. cbn [gm with_game]. rewrite length_set_used. lia.
    + unfold pm. cbn [gm with_game]. rewrite get_tile_set_used_eq by lia. reflexivity.
  - apply (rot_loop_post rec rec_post) in Hrot; [|exact Hgood].
    apply post_unmark_used in Hrot as [K U]; [|lia|exact Hu].
    pose proof (tiled_restored _ _ _ _ K U HT) as HT'.
    destruct K as (K1 & _ & _ & K4 & _).
    apply (IH (S i) (with_game (set_used i false (gm q)) q) p'); [|exact HT'| |exact Hrun].
    + unfold good, in_bounds. rewrite K1. exact Hgood.
    + rewrite K4. lia.
Qed.
End loops_sound.

Lemma play_sound fuel : ∀ p x y p',
  good p x y → tiled (gm p) x y → play fuel p x y = Some (true, p') →
  tiled (gm p') (size (gm p')) (size (gm p')).
Proof.
  induction fuel as [|fuel IH]; intros p x y p' Hgood HT Hrun; [discriminate|].
  cbn [play] in Hrun. destruct (global_stop p); [discriminate|].
  destruct (poll_tick_frame p) as (E1 & _).
  destruct (poll (tick p)) as [received p1]. cbn [snd] in E1.
  destruct received; [discriminate|].
  destruct (global_solution_found p1); [discriminate|].
  apply (tiles_loop_sound (play fuel) (play_post fuel) IH x y
           (length (tiles (gm p1))) 0 p1 p'); [| | |exact Hrun].
  - unfold good, in_bounds. rewrite E1. exact Hgood.
  - rewrite E1. exact HT.
  - simpl. lia.
Qed.

(** *** The search never changes which tile is which *)

Lemma ident_set_rotation i r g j :
  tile_ident (get_tile (set_rotation i r g) j) = tile_ident (get_tile g j).
Proof.
  unfold get_tile, set_rotation. simpl. destruct (decide (i = j)) as [->|Hne].
  - rewrite list_lookup_alter_eq. destruct (tiles g !! j); reflexivity.
  - rewrite list_lookup_alter_ne; done.
Qed.

Lemma ident_set_used i b g j :
  tile_ident (get_tile (set_used i b g) j) = tile_ident (get_tile g j).
Proof.
  unfold get_tile, set_used. simpl. destruct (decide (i = j)) as [->|Hne].
  - rewrite list_lookup_alter_eq. destruct (tiles g !! j); reflexivity.
  - rewrite list_lookup_alter_ne; done.
Qed.

Section loops_ident.
Variable rec : proc → Z → Z → outcome.
Hypothesis rec_ident : ∀ p x y r p', rec p x y = Some (r, p') →
  ∀ j, tile_ident (get_tile (gm p') j) = tile_ident (get_tile (gm p) j).
Variables x y : Z.

Lemma rot_loop_ident i n : ∀ rot p r p',
  rot_loop rec x y i n rot p = Some (r, p') →
  ∀ j, tile_ident (get_tile (gm p') j) = tile_ident (get_tile (gm p) j).
Proof.
  induction n as [|n IH]; intros rot p r p' Hrun j.
  - injection Hrun as _ <-. reflexivity.
  - cbn [rot_loop] in Hrun. cbv zeta in Hrun.
    set (p1 := with_game (set_rotation i rot (gm p)) p) in *.
    assert (H1 : tile_ident (get_tile (gm p1) j) = tile_ident (get_tile (gm p) j))
      by apply ident_set_rotation.
    destruct (valid_move (gm p1) x y i).
    2:{ rewrite (IH _ _ _ _ Hrun j). exact H1. }
    destruct (next_cell _ x y) as [nx ny].
    destruct (ny =? _).
    { injection Hrun as _ <-. exact H1. }
    destruct (rec _ nx ny) as [[[|] p3]|] eqn:Hrec; [| |discriminate].
    + injection Hrun as _ <-. change (gm (notify p3)) with (gm p3).
      rewrite (rec_ident _ _ _ _ _ Hrec j). exact H1.
    + rewrite (IH _ _ _ _ Hrun j). cbn [gm with_game]. rewrite get_tile_set_cell.
      rewrite (rec_ident _ _ _ _ _ Hrec j). exact H1.
Qed.

Lemma tiles_loop_ident n : ∀ i p r p',
  tiles_loop rec x y n i p = Some (r, p') →
  ∀ j, tile_ident (get_tile (gm p') j) = tile_ident (get_tile (gm p) j).
Proof.
  induction n as [|n IH]; intros i p r p' Hrun j.
  - injection Hrun as _ <-. reflexivity.
  - cbn [tiles_loop] in Hrun.
    destruct (used (get_tile (gm p) i)); [exact (IH _ _ _ _ Hrun j)|].
    destruct (rot_loop rec x y i 4 0 _) as [[[|] q]|] eqn:Hrot; [| |discriminate].
    + injection Hrun as _ <-. rewrite (rot_loop_ident _ _ _ _ _ _ Hrot j).
      apply ident_set_used.
    + rewrite (IH _ _ _ _ Hrun j). cbn [gm with_game]. rewrite ident_set_used.
      rewrite (rot_loop_ident _ _ _ _ _ _ Hrot j). apply ident_set_used.
Qed.
End loops_ident.

Lemma play_ident fuel : ∀ p x y r p', play fuel p x y = Some (r, p') →
  ∀ j, tile_ident (get_tile (gm p') j) = tile_ident (get_tile (gm p) j).
Proof.
  induction fuel as [|fuel IH]; intros p x y r p' Hrun j; [discriminate|].
  cbn [play] in Hrun. destruct (global_stop p); [injection Hrun as _ <-; reflexivity|].
  destruct (poll_tick_frame p) as (E1 & _).
  destruct (poll (tick p)) as [received p1]. cbn [snd] in E1.
  destruct received; [injection Hrun as _ <-; rewrite E1; reflexivity|].
  destruct (global_solution_found p1); [injection Hrun as _ <-; rewrite E1; reflexivity|].
  rewrite (tiles_loop_ident (play fuel) IH x y _ _ _ _ _ Hrun j), E1. reflexivity.
Qed.

(** *** A complete tiling is a solved board, and can be printed *)

Lemma sorted_NoDup {A} (R : relation A) (l : list A) :
  (∀ a, ¬ R a a) → StronglySorted R l → NoDup l.
Proof.
  intros Hirr. induction 1 as [|a l Hs IH Ha]; constructor; [|exact IH].
  intros Hin. rewrite Forall_forall in Ha. exact (Hirr a (Ha a Hin)).
Qed.

Lemma cells_NoDup sz : NoDup (cells sz).
Proof.
  apply (sorted_NoDup cell_lt); [|apply cells_sorted].
  intros a. unfold cell_lt, before. lia.
Qed.

Lemma NoDup_omap_inj {A B} (f : A → option B) (l : list A) :
  (∀ a a' b, a ∈ l → a' ∈ l → f a = Some b → f a' = Some b → a = a') →
  NoDup l → NoDup (omap f l).
Proof.
  intros Hinj. induction 1 as [|a l Ha Hl IH]; [constructor|].
  cbn [omap list_omap]. destruct (f a) as [b|] eqn:Hb.
  - constructor.
    + intros Hin. apply list_elem_of_omap in Hin as (a' & Ha' & Hb').
      assert (a = a') as <-; [|contradiction].
      apply (Hinj a a' b); [left|right; exact Ha'|exact Hb|exact Hb'].
    + apply IH. intros a1 a2 b' H1 H2. apply Hinj; right; assumption.
  - apply IH. intros a1 a2 b' H1 H2. apply Hinj; right; assumption.
Qed.

Lemma tiled_full g c :
  tiled g (size g) (size g) → c ∈ cells (size g) → is_Some (board g !! c).
Proof.
  intros (T1 & _) Hc. rewrite Forall_forall in T1. apply T1; [exact Hc|].
  apply cells_elem in Hc. unfold before. lia.
Qed.

Lemma tiled_solved g : tiled g (size g) (size g) → solved g = true.
Proof.
  intros HT. pose proof HT as (T1 & T2 & T3).
  unfold solved. apply andb_true_iff. split.
  - apply forallb_forall. intros c Hc. apply list_elem_of_In in Hc.
    destruct (tiled_full g c HT Hc) as [i Hi]. rewrite Hi.
    destruct (T2 c i Hi) as (_ & _ & A3 & _ & _ & A5).
    apply andb_true_iff. split; [apply Nat.ltb_lt; exact A3|exact A5].
  - apply bool_decide_eq_true. apply NoDup_omap_inj; [|apply cells_NoDup].
    intros a a' b _ _ Ha Ha'. exact (T3 a b Ha a' b Ha' eq_refl).
Qed.

Lemma length_rows (xs ys : list Z) :
  length (cy ← ys; (fun cx => (cx, cy)) <$> xs) = (length ys * length xs)%nat.
Proof.
  induction ys as [|cy ys IH]; [reflexivity|].
  change (length (((fun cx => (cx, cy)) <$> xs) ++ (cy ← ys; (fun cx => (cx, cy)) <$> xs))
          = (length (cy :: ys) * length xs)%nat).
  rewrite length_app, length_fmap, IH. reflexivity.
Qed.

Lemma length_cells sz : length (cells sz) = (Z.to_nat sz * Z.to_nat sz)%nat.
Proof. unfold cells. rewrite length_rows, length_seqZ. reflexivity. Qed.

Lemma print_solution_full g :
  tiled g (size g) (size g) →
  ∃ lines, print_solution g = Some lines ∧
    length lines = (Z.to_nat (size g) * Z.to_nat (size g))%nat ∧
    Forall2 (fun c ln => ∃ i, board g !! c = Some i ∧
                              ln = (tile_ident (get_tile g i), rotation (get_tile g i)))
            (cells (size g)) lines.
Proof.
  intros HT. unfold print_solution.
  set (f := fun c => i ← board g !! c;
                     Some (tile_ident (get_tile g i), rotation (get_tile g i))).
  destruct (mapM_is_Some_2 f (cells (size g))) as [lines Hl].
  { apply Forall_forall. intros c Hc. destruct (tiled_full g c HT Hc) as [i Hi].
    unfold f, compose. rewrite Hi. eexists; reflexivity. }
  exists lines. split; [exact Hl|].
  apply mapM_Some_1 in Hl. split.
  - rewrite <- (Forall2_length _ _ _ Hl). apply length_cells.
  - eapply Forall2_impl; [exact Hl|]. intros c ln Hf. unfold f in Hf.
    destruct (board g !! c) as [i|]; [|discriminate]. injection Hf as <-. eauto.
Qed.

(** *** The seeded board *)

Lemma size_seed_board g c : size (seed_board g c) = size g.
Proof. unfold seed_board. destruct (corner_cell _ _). reflexivity. Qed.

Lemma length_seed_board g c : length (tiles (seed_board g c)) = length (tiles g).
Proof.
  unfold seed_board. destruct (corner_cell _ _). cbn [set_cell tiles].
  rewrite length_set_used, length_set_rotation. cbn [tiles]. apply length_map.
Qed.

Lemma board_seed_board g c :
  board (seed_board g c)
  = {[ corner_cell (size g) (corner_type c) := Z.to_nat (tile_id c) ]}.
Proof.
  unfold seed_board. destruct (corner_cell _ _) as [cx cy]. cbn [set_cell board].
  apply map_eq. intros k. destruct (decide (k = (cx, cy))) as [-> | Hne].
  - rewrite lookup_partial_alter_eq, lookup_singleton_eq. reflexivity.
  - rewrite lookup_partial_alter_ne, lookup_singleton_ne by congruence.
    cbn [set_used set_rotation board]. apply lookup_empty.
Qed.

Lemma get_tile_seed_board g c :
  (Z.to_nat (tile_id c) < length (tiles g))%nat →
  get_tile (seed_board g c) (Z.to_nat (tile_id c))
  = with_used true (with_rotation (corner_rotation c) (get_tile g (Z.to_nat (tile_id c)))).
Proof.
  intros Hi. unfold seed_board. destruct (corner_cell _ _) as [cx cy].
  rewrite get_tile_set_cell.
  rewrite get_tile_set_used_eq by (rewrite length_set_rotation; cbn [tiles]; rewrite length_map; exact Hi).
  rewrite get_tile_set_rotation_eq by (cbn [tiles]; rewrite length_map; exact Hi).
  unfold get_tile at 1. cbn [tiles]. rewrite list_lookup_fmap.
  destruct (lookup_lt_is_Some_2 _ _ Hi) as [t Ht]. unfold get_tile. rewrite Ht.
  reflexivity.
Qed.

Lemma ident_seed_board g c j :
  tile_ident (get_tile (seed_board g c) j) = tile_ident (get_tile g j).
Proof.
  unfold seed_board. destruct (corner_cell _ _) as [cx cy].
  rewrite get_tile_set_cell, ident_set_used, ident_set_rotation.
  unfold get_tile. cbn [tiles]. rewrite list_lookup_fmap.
  destruct (tiles g !! j); reflexivity.
Qed.

Lemma cells_head2 sz : 2 ≤ sz → ∃ rest, cells sz = (0, 0) :: (1, 0) :: rest.
Proof.
  intros Hsz. unfold cells. rewrite (seqZ_cons 0 sz) by lia.
  rewrite (seqZ_cons (Z.succ 0) (Z.pred sz)) by lia.
  cbn [mbind list_bind fmap list_fmap app]. eexists. reflexivity.
Qed.

(** The board seeded with a tile that fits the top-left corner is a partial
    tiling up to the cell (1, 0), where the search then starts. *)
Lemma seeded_nw_tiled g c :
  2 ≤ size g ≤ UINT_MAX → corner_type c = 0 →
  (Z.to_nat (tile_id c) < length (tiles g))%nat →
  0 ≤ corner_rotation c ≤ 3 →
  corner_cond (with_rotation (corner_rotation c) (get_tile g (Z.to_nat (tile_id c)))) 0 = true →
  find_start (seed_board g c) = (1, 0) ∧ tiled (seed_board g c) 1 0.
Proof.
  intros Hsz Hct Hi Hrot Hcc.
  pose proof (board_seed_board g c) as Hb. rewrite Hct in Hb.
  change (corner_cell (size g) 0) with (0, 0) in Hb.
  split.
  - unfold find_start. rewrite size_seed_board.
    destruct (cells_head2 (size g)) as [rest ->]; [lia|]. cbn [List.find].
    rewrite Hb. rewrite bool_decide_eq_false_2
      by (rewrite lookup_singleton_eq; discriminate).
    rewrite bool_decide_eq_true_2 by (apply lookup_singleton_ne; congruence).
    reflexivity.
  - unfold tiled. rewrite size_seed_board, length_seed_board, Hb.
    split; [|split].
    + apply Forall_forall. intros k Hk Hbef. apply cells_elem in Hk.
      assert (k = (0, 0)) as ->.
      { destruct k as [kx ky]. unfold before in Hbef. cbn [fst snd] in *. f_equal; lia. }
      rewrite lookup_singleton_eq. eexists; reflexivity.
    + apply map_Forall_singleton. cbn [fst snd].
      split; [unfold in_bounds; rewrite size_seed_board; lia|].
      split; [unfold before; cbn [fst snd]; lia|]. split; [exact Hi|].
      split; [rewrite get_tile_seed_board by exact Hi; reflexivity|].
      split; [rewrite get_tile_seed_board by exact Hi; cbn [with_used with_rotation rotation];
              exact Hrot|].
      apply valid_move_tests. rewrite size_seed_board, Hb.
      rewrite (u32_small (size g - 1)) by lia.
      rewrite get_tile_seed_board by exact Hi.
      unfold corner_cond, N_COLOR, W_COLOR in Hcc. cbn [Z.eqb] in Hcc.
      apply andb_true_iff in Hcc as [Hn Hw]. apply Z.eqb_eq in Hn, Hw.
      repeat split; try (intros; lia); try (intros _; assumption).
      all: intros n _ Hn'; apply lookup_singleton_Some in Hn' as [Hn' _];
        vm_compute in Hn'; discriminate.
    + intros k i Hk k' i' Hk' _.
      apply lookup_singleton_Some in Hk as [<- _].
      apply lookup_singleton_Some in Hk' as [<- _]. reflexivity.
Qed.

(** *** The search of a worker *)

Lemma corner_cell_one t : corner_cell 1 t = (0, 0).
Proof.
  unfold corner_cell. destruct (t =? 0); [reflexivity|].
  destruct (t =? 1); [reflexivity|]. destruct (t =? 2); [reflexivity|].
  destruct (t =? 3); reflexivity.
Qed.

(** On a board of one cell the seeded corner leaves nothing to search. *)
Lemma worker_one_cell g corners rk nprocs pr :
  size g = 1 →
  worker g corners rk nprocs pr
  = Some (false, Proc (seed_board g (default (Corner 0 0 0) (corners !! Z.to_nat rk)))
                      rk nprocs false false (-1) 0 pr []).
Proof.
  intros Hsz. unfold worker. cbv zeta.
  set (c := default (Corner 0 0 0) (corners !! Z.to_nat rk)).
  assert (Hf : find_start (seed_board g c) = (1, 1)).
  { unfold find_start. rewrite size_seed_board, board_seed_board, Hsz, corner_cell_one.
    change (cells 1) with [(0, 0)]. cbn [List.find].
    rewrite bool_decide_eq_false_2 by (rewrite lookup_singleton_eq; discriminate).
    reflexivity. }
  rewrite Hf, size_seed_board, Hsz. reflexivity.
Qed.

(** A process seeded away from the top-left corner has fewer unused tiles
    than cells to fill. *)
Lemma worker_short_of_tiles g corners rk nprocs pr c p' :
  2 ≤ size g ≤ UINT_MAX → (length (tiles g) ≤ Z.to_nat (size g * size g))%nat →
  corners !! Z.to_nat rk = Some c → 1 ≤ corner_type c ≤ 3 →
  (Z.to_nat (tile_id c) < length (tiles g))%nat →
  worker g corners rk nprocs pr ≠ Some (true, p').
Proof.
  intros Hsz Hlen Hc Hct Hid Hw.
  unfold worker in Hw. rewrite Hc in Hw.
  change (default (Corner 0 0 0) (Some c)) with c in Hw. cbv zeta in Hw.
  destruct (seeded_corner_on_the_scan g c Hsz Hct) as (Hstart & _).
  rewrite Hstart, size_seed_board in Hw.
  replace (0 <? size g) with true in Hw by (symmetry; apply Z.ltb_lt; lia).
  apply play_needs_tiles in Hw.
  - cbn [gm] in Hw. rewrite size_seed_board in Hw.
    pose proof (unused_count_seed g c Hid) as Hu.
    unfold cells_left in Hw. replace (size g * size g - (0 * size g + 0))
      with (size g * size g) in Hw by lia. lia.
  - unfold good, in_bounds. cbn [gm]. rewrite size_seed_board. lia.
Qed.

Lemma worker_sound g corners rk nprocs pr c p' :
  0 < size g ≤ UINT_MAX → (length (tiles g) ≤ Z.to_nat (size g * size g))%nat →
  corners !! Z.to_nat rk = Some c → 0 ≤ corner_type c ≤ 3 →
  (Z.to_nat (tile_id c) < length (tiles g))%nat →
  0 ≤ corner_rotation c ≤ 3 →
  corner_cond (with_rotation (corner_rotation c) (get_tile g (Z.to_nat (tile_id c))))
              (corner_type c) = true →
  worker g corners rk nprocs pr = Some (true, p') →
  corner_type c = 0 ∧
  tiled (gm p') (size (gm p')) (size (gm p')) ∧ size (gm p') = size g ∧
  length (tiles (gm p')) = length (tiles g) ∧
  board (gm p') !! (0, 0) = Some (Z.to_nat (tile_id c)) ∧
  rotation (get_tile (gm p') (Z.to_nat (tile_id c))) = corner_rotation c ∧
  ∀ j, tile_ident (get_tile (gm p') j) = tile_ident (get_tile g j).
Proof.
  intros Hsz Hlen Hc Hct Hid Hrot Hcc Hw.
  destruct (Z.eq_dec (size g) 1) as [H1 | H1].
  { rewrite worker_one_cell in Hw by exact H1. discriminate. }
  destruct (Z.eq_dec (corner_type c) 0) as [H0 | H0].
  2:{ exfalso. apply (worker_short_of_tiles g corners rk nprocs pr c p'); try assumption; lia. }
  split; [exact H0|]. rewrite H0 in Hcc.
  destruct (seeded_nw_tiled g c ltac:(lia) H0 Hid Hrot Hcc) as [Hstart HT].
  unfold worker in Hw. rewrite Hc in Hw.
  change (default (Corner 0 0 0) (Some c)) with c in Hw. cbv zeta in Hw.
  rewrite Hstart, size_seed_board in Hw.
  replace (0 <? size g) with true in Hw by (symmetry; apply Z.ltb_lt; lia).
  set (p0 := Proc (seed_board g c) rk nprocs false false (-1) 0 pr []) in *.
  assert (Hgood : good p0 1 0).
  { unfold good, in_bounds. cbn [gm p0]. rewrite size_seed_board. lia. }
  pose proof (play_sound _ _ _ _ _ Hgood HT Hw) as HT'.
  pose proof (play_ident _ _ _ _ _ _ Hw) as Hident.
  apply play_post in Hw as [(K1 & _ & _ & K4 & _ & K6 & K7) _]; [|exact Hgood].
  cbn [gm p0] in K1, K4, K6, K7, Hident.
  rewrite size_seed_board in K1. rewrite length_seed_board in K4.
  split; [exact HT'|]. split; [exact K1|]. split; [exact K4|].
  assert (Hb0 : board (seed_board g c) !! (0, 0) = Some (Z.to_nat (tile_id c))).
  { rewrite board_seed_board, H0. apply lookup_singleton_eq. }
  split; [rewrite K6 by (unfold before; cbn [fst snd]; lia); exact Hb0|].
  split.
  - rewrite K7; [|discriminate|rewrite get_tile_seed_board by exact Hid; reflexivity].
    rewrite get_tile_seed_board by exact Hid. reflexivity.
  - intros j. rewrite Hident. apply ident_seed_board.
Qed.

Lemma setup_game b nc recs g corners (c : corner_info) :
  0 < b ≤ UINT_MAX → setup b nc recs = Some (g, corners) → c ∈ corners →
  size g = b ∧ (length (tiles g) ≤ Z.to_nat (size g * size g))%nat ∧
  (∀ j, (j < length (tiles g))%nat → tile_ident (get_tile g j) = Z.of_nat j) ∧
  0 ≤ corner_type c ≤ 3 ∧ (Z.to_nat (tile_id c) < length (tiles g))%nat ∧
  0 ≤ tile_id c ∧ corner_rotation c = 0 ∧
  corner_cond (with_rotation (corner_rotation c) (get_tile g (Z.to_nat (tile_id c))))
              (corner_type c) = true.
Proof.
  intros Hb Hs Hc. destruct (setup_Some _ _ _ _ _ Hs) as [Hini ->].
  destruct (initialize_shape _ _ _ _ Hini) as (Hsz & _ & Hlen & Hti).
  split; [exact Hsz|]. split.
  { rewrite Hlen, Hsz.
    assert (u32 (b * b) ≤ b * b) by (unfold u32; apply Z.mod_le; nia). lia. }
  split.
  { intros j Hj. destruct (lookup_lt_is_Some_2 _ _ Hj) as [t Ht].
    unfold get_tile. rewrite Ht. exact (proj1 (proj2 (Hti j t Ht))). }
  apply list_elem_of_omap in Hc as (t & Ht & Hc).
  apply list_elem_of_lookup in Ht as [i Ht].
  destruct (Hti i t Ht) as (Hr & Hid & _).
  apply separar_step_corner in Hc as (C1 & C2 & C3 & C4).
  rewrite C1, Hid, C2. rewrite Nat2Z.id.
  split; [exact C3|]. split; [apply lookup_lt_Some in Ht; exact Ht|].
  split; [lia|]. split; [reflexivity|].
  unfold get_tile. rewrite Ht. exact C4.
Qed.

Lemma X_COLOR_ext t t' s :
  colors t = colors t' → rotation t = rotation t' → X_COLOR t s = X_COLOR t' s.
Proof. intros Hc Hr. unfold X_COLOR. rewrite Hc, Hr. reflexivity. Qed.

(** With fewer neighbours, [valid_move] accepts what it accepted. *)
Lemma valid_move_sub g g' x y i :
  size g = size g' →
  (∀ s, X_COLOR (get_tile g i) s = X_COLOR (get_tile g' i) s) →
  (∀ c n, board g !! c = Some n →
          board g' !! c = Some n ∧
          ∀ s, X_COLOR (get_tile g n) s = X_COLOR (get_tile g' n) s) →
  valid_move g' x y i = true → valid_move g x y i = true.
Proof.
  intros Hs Hi Hb Hv. apply valid_move_tests in Hv. apply valid_move_tests.
  rewrite Hs, !Hi.
  destruct Hv as (((((((V1 & V2) & V3) & V4) & Vw) & Ve) & Vn) & Vs).
  repeat split; try assumption; intros n Hlt Hn;
    destruct (Hb _ n Hn) as [Hn' Hx]; rewrite Hx; eauto.
Qed.

Lemma used_placed_spec g :
  used_placed g ↔
  ∀ j, (j < length (tiles g))%nat → used (get_tile g j) = true →
       ∃ c, board g !! c = Some j.
Proof.
  unfold used_placed. rewrite Forall_forall. split.
  - intros H j Hj Hu. destruct (H j) as (c & i & Hc & ->); [apply elem_of_seq; lia|exact Hu|].
    eauto.
  - intros H j Hj Hu. apply elem_of_seq in Hj. destruct (H j) as [c Hc]; [lia|exact Hu|].
    exists c, j. split; [exact Hc|reflexivity].
Qed.

Lemma extends_ext g h g' :
  size h = size g → length (tiles h) = length (tiles g) → board h = board g →
  (∀ j, colors (get_tile h j) = colors (get_tile g j)) →
  (∀ c i, board g !! c = Some i → rotation (get_tile h i) = rotation (get_tile g i)) →
  extends g g' → extends h g'.
Proof.
  intros Hs Hl Hb Hc Hr (E1 & E2 & E3 & E4 & E5). unfold extends.
  rewrite Hs, Hl, Hb. split; [exact E1|]. split; [exact E2|].
  split; [|split; [|exact E5]].
  - rewrite Forall_forall in *. intros j Hj. rewrite Hc. apply E3, Hj.
  - intros c i Hci. destruct (E4 c i Hci) as [A1 A2]. split; [exact A1|].
    rewrite (Hr c i Hci). exact A2.
Qed.

Lemma extends_colors g g' j :
  extends g g' → (j < length (tiles g))%nat →
  colors (get_tile g' j) = colors (get_tile g j).
Proof.
  intros (_ & _ & E3 & _) Hj. rewrite Forall_forall in E3. apply E3, elem_of_seq. lia.
Qed.

(** The tile that a complete extension has on an empty cell of the board. *)
Lemma extends_cell g g' x y :
  extends g g' → in_bounds g x y →
  ∃ i, board g' !! (x, y) = Some i ∧ (i < length (tiles g))%nat ∧
       0 ≤ rotation (get_tile g' i) ≤ 3 ∧ valid_move g' x y i = true.
Proof.
  intros (E1 & E2 & _ & _ & E5) Hin.
  destruct (tiled_full g' (x, y) E5) as [i Hi].
  { apply cells_elem. rewrite E1. exact Hin. }
  exists i. split; [exact Hi|]. destruct E5 as (_ & T2 & _).
  destruct (T2 _ i Hi) as (_ & _ & A3 & _ & A6 & A5).
  split; [lia|]. split; [exact A6|exact A5].
Qed.

Lemma extends_inj g g' c c' i :
  extends g g' → board g' !! c = Some i → board g' !! c' = Some i → c = c'.
Proof. intros (_ & _ & _ & _ & (_ & _ & T3)) Hc Hc'. exact (T3 c i Hc c' i Hc' eq_refl). Qed.

Lemma quiet_poll p :
  quiet p → (poll (tick p)).1 = false ∧ quiet (poll (tick p)).2 ∧
            gm (poll (tick p)).2 = gm p.
Proof.
  intros (Q1 & Q2 & Q3). unfold poll. cbn [tick check_counter probes].
  destruct (Z.rem (check_counter p + 1) 1000 =? 0).
  - destruct (probes p) as [|[v|] rest] eqn:Hp.
    + cbn [fst snd]. split; [reflexivity|]. split; [|reflexivity].
      unfold quiet. cbn [tick global_stop global_solution_found probes].
      rewrite Hp. repeat split; assumption.
    + apply Forall_cons in Q3 as [Q3 _]. discriminate.
    + apply Forall_cons in Q3 as [_ Q3]. cbn. repeat split; assumption.
  - cbn. repeat split; assumption.
Qed.

Section loops_complete.
Variable rec : proc → Z → Z → outcome.
Hypothesis rec_post : ∀ p x y r p',
  good p x y → rec p x y = Some (r, p') → post None x y p r p'.
Hypothesis rec_complete : ∀ p x y p',
  good p x y → tiled (gm p) x y → used_placed (gm p) → quiet p →
  rec p x y = Some (false, p') →
  quiet p' ∧ ∀ g', ¬ extends (gm p) g'.

Lemma rot_loop_complete x y i n : ∀ rot q q',
  good q x y → tiled (gm q) x y →
  (i < length (tiles (gm q)))%nat → used (get_tile (gm q) i) = true →
  (∀ c, board (gm q) !! c ≠ Some i) →
  (∀ j, j ≠ i → (j < length (tiles (gm q)))%nat → used (get_tile (gm q) j) = true →
        ∃ c, board (gm q) !! c = Some j) →
  quiet q → 0 ≤ rot → rot + Z.of_nat n ≤ 4 →
  rot_loop rec x y i n rot q = Some (false, q') →
  quiet q' ∧
  ∀ g', extends (gm q) g' → board g' !! (x, y) = Some i →
        ¬ (rot ≤ rotation (get_tile g' i) < rot + Z.of_nat n).
Proof.
  induction n as [|n IH]; intros rot q q' Hgood HT Hi Hu Hfree Hup Hq Hr0 Hr4 Hrun.
  { injection Hrun as <-. split; [exact Hq|]. intros g' _ _. lia. }
  cbn [rot_loop] in Hrun. cbv zeta in Hrun.
  set (q1 := with_game (set_rotation i rot (gm q)) q) in *.
  assert (HT1 : tiled (gm q1) x y).
  { apply (tiled_ext (gm q)); [reflexivity|reflexivity|apply length_set_rotation| |exact HT].
    intros c j Hc. apply get_tile_set_rotation_ne. intros ->. exact (Hfree c Hc). }
  assert (Hi1 : (i < length (tiles (gm q1)))%nat)
    by (unfold q1; cbn [gm with_game]; rewrite length_set_rotation; exact Hi).
  assert (Hu1 : used (get_tile (gm q1) i) = true)
    by (unfold q1; cbn [gm with_game]; rewrite used_set_rotation; exact Hu).
  assert (Hfree1 : ∀ c, board (gm q1) !! c ≠ Some i) by exact Hfree.
  assert (Hgood1 : good q1 x y) by exact Hgood.
  assert (Hq1 : quiet q1) by exact Hq.
  assert (Hup1 : ∀ j, j ≠ i → (j < length (tiles (gm q1)))%nat →
                      used (get_tile (gm q1) j) = true → ∃ c, board (gm q1) !! c = Some j).
  { intros j Hj Hlt Huj. unfold q1 in *. cbn [gm with_game] in *.
    rewrite length_set_rotation in Hlt. rewrite used_set_rotation in Huj.
    exact (Hup j Hj Hlt Huj). }
  assert (Hrot1 : rotation (get_tile (gm q1) i) = rot).
  { unfold q1. cbn [gm with_game]. rewrite get_tile_set_rotation_eq by exact Hi. reflexivity. }
  assert (Hext1 : ∀ g', extends (gm q) g' → extends (gm q1) g').
  { intros g'. apply extends_ext; [reflexivity|apply length_set_rotation|reflexivity| |].
    - intros j. apply colors_set_rotation.
    - intros c j Hc. unfold q1. cbn [gm with_game].
      rewrite get_tile_set_rotation_ne; [reflexivity|]. intros ->. exact (Hfree c Hc). }
  (* an extension with the tile in this rotation passes the test *)
  assert (Hfit : ∀ g', extends (gm q) g' → board g' !! (x, y) = Some i →
                       rotation (get_tile g' i) = rot → valid_move (gm q1) x y i = true).
  { intros g' He Hxy Hrot. pose proof (Hext1 g' He) as He1.
    destruct (extends_cell _ _ x y He1) as (i' & Hi' & _ & _ & Hv);
      [exact (proj2 Hgood1)|].
    rewrite Hxy in Hi'. injection Hi' as <-.
    pose proof He1 as (E1 & E2 & E3 & E4 & E5).
    apply (valid_move_sub (gm q1) g'); [symmetry; exact E1| | |exact Hv].
    - intros s. apply X_COLOR_ext; [|congruence].
      symmetry. apply (extends_colors _ _ _ He1). exact Hi1.
    - intros c k Hk. destruct (E4 c k Hk) as [A1 A2]. split; [exact A1|].
      intros s. apply X_COLOR_ext; [|congruence].
      symmetry. apply (extends_colors _ _ _ He1).
      destruct HT1 as (_ & T2 & _). destruct (T2 c k Hk) as (_ & _ & A3 & _). exact A3. }
  destruct (valid_move (gm q1) x y i) eqn:Hv.
  2:{ destruct (IH (rot + 1) q1 q') as [Hq' Hno]; try assumption; try lia.
      split; [exact Hq'|]. intros g' He Hxy Hrange.
      destruct (Z.eq_dec (rotation (get_tile g' i)) rot) as [Hrot | Hrot].
      - specialize (Hfit g' He Hxy Hrot). discriminate.
      - apply (Hno g' (Hext1 g' He) Hxy). lia. }
  set (q2 := with_game (set_cell x y (Some i) (gm q1)) q1) in *.
  change (size (gm q2)) with (size (gm q)) in Hrun.
  destruct Hgood as [Hsz [Hx Hy]].
  destruct (next_cell (size (gm q)) x y) as [nx ny] eqn:Hn.
  assert (HT2 : tiled (gm q2) nx ny).
  { apply tiled_place; try assumption; [split; assumption|rewrite Hrot1; lia]. }
  destruct (ny =? size (gm q)) eqn:Hlast; [discriminate|].
  apply Z.eqb_neq in Hlast.
  assert (Hg2 : good q2 nx ny).
  { split; [exact Hsz|]. exact (next_cell_good (size (gm q)) x y nx ny Hsz Hx Hy Hn Hlast). }
  assert (Hxy1 : board (gm q1) !! (x, y) = None).
  { apply (tiled_empty_from _ x y); [exact HT1|]. unfold before. cbn [fst snd]. lia. }
  destruct (rec q2 nx ny) as [[[|] p3]|] eqn:Hrec; [discriminate| |discriminate].
  pose proof Hrec as Hrec'.
  apply rec_complete in Hrec' as [Hq3 Hno2]; [|exact Hg2|exact HT2| |exact Hq1].
  2:{ apply used_placed_spec. intros j Hj Huj. unfold q2 in *. cbn [gm with_game] in *.
      destruct (decide (j = i)) as [-> | Hne].
      - exists (x, y). apply board_set_cell_eq.
      - destruct (Hup1 j Hne Hj Huj) as [c Hc]. exists c.
        rewrite board_set_cell_ne; [exact Hc|]. intros ->. congruence. }
  apply rec_post in Hrec as [K U]; [|exact Hg2].
  pose proof (restored_board _ _ _ _ _ K U HT2) as Hb3.
  pose proof U as (U1 & _).
  destruct K as (K1 & _ & _ & K4 & K5 & _ & K7).
  set (p4 := with_game (set_cell x y None (gm p3)) p3) in *.
  assert (Hb4 : board (gm p4) = board (gm q1)).
  { apply map_eq. intros c. unfold p4. cbn [gm with_game].
    destruct (decide (c = (x, y))) as [-> | Hne].
    - rewrite board_set_cell_eq. symmetry. exact Hxy1.
    - rewrite board_set_cell_ne by exact Hne. rewrite Hb3.
      unfold q2. cbn [gm with_game]. apply board_set_cell_ne. exact Hne. }
  assert (Hget : ∀ j, used (get_tile (gm q1) j) = true →
                      get_tile (gm p4) j = get_tile (gm q1) j).
  { intros j Hj. unfold p4. cbn [gm with_game]. rewrite get_tile_set_cell.
    rewrite K7; [reflexivity|discriminate|exact Hj]. }
  assert (Hplaced_used : ∀ c j, board (gm q1) !! c = Some j → used (get_tile (gm q1) j) = true).
  { intros c j Hc. destruct HT1 as (_ & T2 & _).
    destruct (T2 c j Hc) as (_ & _ & _ & B4 & _). exact B4. }
  destruct (IH (rot + 1) p4 q') as [Hq' Hno]; try lia; try exact Hrun.
  - unfold good, in_bounds, p4. cbn [gm with_game set_cell size]. rewrite K1.
    split; [exact Hsz|split; assumption].
  - apply (tiled_ext (gm q1)); [exact K1|exact Hb4|exact K4| |exact HT1].
    intros c j Hc. apply Hget. exact (Hplaced_used c j Hc).
  - unfold p4. cbn [gm with_game set_cell tiles]. rewrite K4. exact Hi1.
  - rewrite (Hget i Hu1). exact Hu1.
  - rewrite Hb4. exact Hfree1.
  - intros j Hj Hlt Huj. rewrite Hb4. apply (Hup1 j Hj).
    + unfold p4 in Hlt. cbn [gm with_game set_cell tiles] in Hlt. rewrite K4 in Hlt. exact Hlt.
    + unfold p4 in Huj. cbn [gm with_game] in Huj. rewrite get_tile_set_cell in Huj.
      rewrite U1 in Huj. exact Huj.
  - exact Hq3.
  - split; [exact Hq'|]. intros g' He Hxy Hrange.
    destruct (Z.eq_dec (rotation (get_tile g' i)) rot) as [Hrot | Hrot].
    + apply (Hno2 g'). pose proof (Hext1 g' He) as (E1 & E2 & E3 & E4 & E5).
      unfold extends, q2. cbn [gm with_game set_cell size tiles board].
      split; [exact E1|]. split; [exact E2|]. split; [exact E3|]. split; [|exact E5].
      intros c j Hc. destruct (decide (c = (x, y))) as [-> | Hne].
      * rewrite lookup_partial_alter_eq in Hc. injection Hc as <-.
        split; [exact Hxy|]. rewrite Hrot. symmetry. exact Hrot1.
      * rewrite lookup_partial_alter_ne in Hc by congruence. exact (E4 c j Hc).
    + apply (Hno g'); [|exact Hxy|lia].
      apply (extends_ext (gm q1)); [exact K1|exact K4|exact Hb4| | |exact (Hext1 g' He)].
      * intros j. unfold p4. cbn [gm with_game]. rewrite get_tile_set_cell. apply K5.
      * intros c j Hc. rewrite (Hget j (Hplaced_used c j Hc)). reflexivity.
Qed.

Lemma tiles_loop_complete x y n : ∀ i p p',
  good p x y → tiled (gm p) x y → used_placed (gm p) → quiet p →
  (i + n ≤ length (tiles (gm p)))%nat →
  tiles_loop rec x y n i p = Some (false, p') →
  quiet p' ∧
  ∀ g', extends (gm p) g' → ∀ j, (i ≤ j < i + n)%nat → board g' !! (x, y) ≠ Some j.
Proof.
  induction n as [|n IH]; intros i p p' Hgood HT Hup Hq Hlen Hrun.
  { injection Hrun as <-. split; [exact Hq|]. intros g' _ j Hj. lia. }
  cbn [tiles_loop] in Hrun.
  pose proof (proj1 (used_placed_spec _) Hup) as Hup'.
  destruct (used (get_tile (gm p) i)) eqn:Hu.
  { destruct (IH (S i) p p') as [Hq' Hno]; try assumption; [lia|].
    split; [exact Hq'|]. intros g' He j Hj. destruct (decide (j = i)) as [-> | Hne].
    - intros Hxy. destruct (Hup' i ltac:(lia) Hu) as [c Hc].
      pose proof He as (_ & _ & _ & E4 & _). destruct (E4 c i Hc) as [Hc' _].
      assert (c = (x, y)) as -> by exact (extends_inj _ _ _ _ _ He Hc' Hxy).
      rewrite (tiled_empty_from _ x y (x, y) HT) in Hc; [discriminate|].
      unfold before. cbn [fst snd]. lia.
    - apply (Hno g' He). lia. }
  pose proof (tiled_not_placed _ _ _ i HT Hu) as Hfree.
  set (pm := with_game (set_used i true (gm p)) p) in *.
  destruct (rot_loop rec x y i 4 0 pm) as [[[|] q]|] eqn:Hrot; [discriminate| |discriminate].
  pose proof Hrot as Hrot'.
  apply (rot_loop_complete x y i 4 0 pm q) in Hrot' as [Hqq Hnoi];
    [|exact Hgood| | | |exact Hfree| |exact Hq|lia|simpl; lia].
  2:{ apply (tiled_ext (gm p)); [reflexivity|reflexivity|apply length_set_used| |exact HT].
      intros c j Hc. apply get_tile_set_used_ne. intros ->. exact (Hfree c Hc). }
  2:{ unfold pm. cbn [gm with_game]. rewrite length_set_used. lia. }
  2:{ unfold pm. cbn [gm with_game]. rewrite get_tile_set_used_eq by lia. reflexivity. }
  2:{ intros j Hj Hlt Huj. unfold pm in *. cbn [gm with_game] in *.
      rewrite length_set_used in Hlt. rewrite get_tile_set_used_ne in Huj by congruence.
      exact (Hup' j Hlt Huj). }
  assert (Hextm : ∀ g', extends (gm p) g' → extends (gm pm) g').
  { intros g'. apply extends_ext; [reflexivity|apply length_set_used|reflexivity| |].
    - intros j. apply colors_set_used.
    - intros c j Hc. unfold pm. cbn [gm with_game].
      rewrite get_tile_set_used_ne; [reflexivity|]. intros ->. exact (Hfree c Hc). }
  apply (rot_loop_post rec rec_post) in Hrot; [|exact Hgood].
  apply post_unmark_used in Hrot as [K U]; [|lia|exact Hu].
  pose proof (tiled_restored _ _ _ _ K U HT) as HT'.
  pose proof (restored_board _ _ _ _ _ K U HT) as Hb'.
  pose proof U as (U1 & _).
  destruct K as (K1 & _ & _ & K4 & K5 & _ & K7).
  set (p2 := with_game (set_used i false (gm q)) q) in *.
  destruct (IH (S i) p2 p') as [Hq' Hno]; try exact Hrun.
  - unfold good, in_bounds. rewrite K1. exact Hgood.
  - exact HT'.
  - apply used_placed_spec. intros j Hj Huj. rewrite Hb'. rewrite K4 in Hj.
    rewrite U1 in Huj. exact (Hup' j Hj Huj).
  - exact Hqq.
  - rewrite K4. lia.
  - split; [exact Hq'|]. intros g' He j Hj. destruct (decide (j = i)) as [-> | Hne].
    + intros Hxy. destruct (extends_cell _ _ x y He (proj2 Hgood)) as (i' & Hi' & _ & Hr & _).
      rewrite Hxy in Hi'. injection Hi' as <-.
      apply (Hnoi g' (Hextm g' He) Hxy). simpl. lia.
    + apply (Hno g'); [|lia].
      apply (extends_ext (gm p)); [exact K1|exact K4|exact Hb'|exact K5| |exact He].
      intros c k Hc. rewrite K7; [reflexivity|discriminate|].
      destruct HT as (_ & T2 & _). destruct (T2 c k Hc) as (_ & _ & _ & B4 & _). exact B4.
Qed.
End loops_complete.

Lemma play_complete fuel : ∀ p x y p',
  good p x y → tiled (gm p) x y → used_placed (gm p) → quiet p →
  play fuel p x y = Some (false, p') →
  quiet p' ∧ ∀ g', ¬ extends (gm p) g'.
Proof.
  induction fuel as [|fuel IH]; intros p x y p' Hgood HT Hup Hq Hrun; [discriminate|].
  cbn [play] in Hrun. pose proof Hq as (Q1 & _). rewrite Q1 in Hrun.
  destruct (quiet_poll p Hq) as (P1 & P2 & P3).
  destruct (poll (tick p)) as [received p1]. cbn [fst snd] in *. subst received.
  pose proof P2 as (_ & Q2 & _). rewrite Q2 in Hrun.
  destruct (tiles_loop_complete (play fuel) (play_post fuel) IH x y
              (length (tiles (gm p1))) 0 p1 p') as [Hq' Hno]; try exact Hrun; try exact P2.
  - unfold good, in_bounds. rewrite P3. exact Hgood.
  - rewrite P3. exact HT.
  - rewrite P3. exact Hup.
  - simpl. lia.
  - split; [exact Hq'|]. intros g' He. rewrite <- P3 in He.
    destruct (extends_cell _ _ x y He) as (i & Hi & Hlt & _).
    { unfold in_bounds. rewrite P3. exact (proj2 Hgood). }
    apply (Hno g' He i); [lia|exact Hi].
Qed.

Lemma comes_first_at h g' x y a b :
  in_bounds h x y →
  (∀ c, c ∈ cells (size h) → before c x y → placed h c = placed g' c) →
  placed h (x, y) = Some a → placed g' (x, y) = Some b → cand_lt a b →
  comes_first h g'.
Proof.
  intros Hin Hbef Ha Hb Hlt. right. apply Exists_exists. exists (x, y).
  split; [apply cells_elem; exact Hin|]. split.
  - apply Forall_forall. intros c Hc Hb'. exact (Hbef c Hc Hb').
  - unfold placed_lt. rewrite Ha, Hb. exact Hlt.
Qed.

(** A complete extension holds, on the cells of the partial tiling, what
    the partial tiling holds. *)
Lemma placed_extends g g' x y c :
  tiled g x y → extends g g' → c ∈ cells (size g) → before c x y →
  placed g' c = placed g c.
Proof.
  intros (T1 & _) (_ & _ & _ & E4 & _) Hc Hb.
  rewrite Forall_forall in T1. destruct (T1 c Hc Hb) as [k Hk].
  destruct (E4 c k Hk) as [A1 A2]. unfold placed. rewrite A1, Hk. cbn. rewrite A2. reflexivity.
Qed.

(** A call at a later cell keeps what the cells of the partial tiling
    hold. *)
Lemma placed_kept skip x y p p' c :
  kept skip x y p p' → tiled (gm p) x y →
  (∀ c j, board (gm p) !! c = Some j → skip ≠ Some j) →
  before c x y → placed (gm p') c = placed (gm p) c.
Proof.
  intros (_ & _ & _ & _ & _ & K6 & K7) (_ & T2 & _) Hskip Hb.
  unfold placed. rewrite (K6 c Hb). destruct (board (gm p) !! c) as [k|] eqn:Hk; [|reflexivity].
  cbn. destruct (T2 c k Hk) as (_ & _ & _ & B4 & _).
  rewrite K7; [reflexivity|exact (Hskip c k Hk)|exact B4].
Qed.

(** The cell after which the board is complete is the last of the scan. *)
Lemma last_cell_all sz x y c :
  0 < sz ≤ UINT_MAX → 0 ≤ x < sz → 0 ≤ y < sz →
  (next_cell sz x y).2 = sz → c ∈ cells sz → before c x y ∨ c = (x, y).
Proof.
  intros Hsz Hx Hy Hn Hc. apply cells_elem in Hc.
  destruct (next_cell sz x y) as [nx ny] eqn:E. cbn [snd] in Hn. subst ny.
  destruct (next_cell_cases sz x y Hsz Hx Hy) as [[? E'] | [(? & ? & E') | (? & ? & E')]];
    rewrite E in E'; injection E'; intros; try lia.
  destruct c as [cx cy]. unfold before. cbn [fst snd] in *.
  destruct (Z.eq_dec cx x), (Z.eq_dec cy y); first [right; f_equal; lia | left; lia].
Qed.

Section loops_first.
Variable rec : proc → Z → Z → outcome.
Hypothesis rec_post : ∀ p x y r p',
  good p x y → rec p x y = Some (r, p') → post None x y p r p'.
Hypothesis rec_complete : ∀ p x y p',
  good p x y → tiled (gm p) x y → used_placed (gm p) → quiet p →
  rec p x y = Some (false, p') →
  quiet p' ∧ ∀ g', ¬ extends (gm p) g'.
Hypothesis rec_first : ∀ p x y p',
  good p x y → tiled (gm p) x y → used_placed (gm p) → quiet p →
  rec p x y = Some (true, p') →
  ∀ g', extends (gm p) g' → comes_first (gm p') g'.

Lemma rot_loop_first x y i n : ∀ rot q q',
  good q x y → tiled (gm q) x y →
  (i < length (tiles (gm q)))%nat → used (get_tile (gm q) i) = true →
  (∀ c, board (gm q) !! c ≠ Some i) →
  (∀ j, j ≠ i → (j < length (tiles (gm q)))%nat → used (get_tile (gm q) j) = true →
        ∃ c, board (gm q) !! c = Some j) →
  quiet q → 0 ≤ rot → rot + Z.of_nat n ≤ 4 →
  rot_loop rec x y i n rot q = Some (true, q') →
  ∀ g', extends (gm q) g' →
        (∀ j, board g' !! (x, y) = Some j →
              (i < j)%nat ∨ (j = i ∧ rot ≤ rotation (get_tile g' i))) →
        comes_first (gm q') g'.
Proof.
  induction n as [|n IH]; intros rot q q' Hgood HT Hi Hu Hfree Hup Hq Hr0 Hr4 Hrun;
    [discriminate|].
  cbn [rot_loop] in Hrun. cbv zeta in Hrun.
  set (q1 := with_game (set_rotation i rot (gm q)) q) in *.
  assert (HT1 : tiled (gm q1) x y).
  { apply (tiled_ext (gm q)); [reflexivity|reflexivity|apply length_set_rotation| |exact HT].
    intros c j Hc. apply get_tile_set_rotation_ne. intros ->. exact (Hfree c Hc). }
  assert (Hi1 : (i < length (tiles (gm q1)))%nat)
    by (unfold q1; cbn [gm with_game]; rewrite length_set_rotation; exact Hi).
  assert (Hu1 : used (get_tile (gm q1) i) = true)
    by (unfold q1; cbn [gm with_game]; rewrite used_set_rotation; exact Hu).
  assert (Hfree1 : ∀ c, board (gm q1) !! c ≠ Some i) by exact Hfree.
  assert (Hgood1 : good q1 x y) by exact Hgood.
  assert (Hq1 : quiet q1) by exact Hq.
  assert (Hup1 : ∀ j, j ≠ i → (j < length (tiles (gm q1)))%nat →
                      used (get_tile (gm q1) j) = true → ∃ c, board (gm q1) !! c = Some j).
  { intros j Hj Hlt Huj. unfold q1 in *. cbn [gm with_game] in *.
    rewrite length_set_rotation in Hlt. rewrite used_set_rotation in Huj.
    exact (Hup j Hj Hlt Huj). }
  assert (Hrot1 : rotation (get_tile (gm q1) i) = rot).
  { unfold q1. cbn [gm with_game]. rewrite get_tile_set_rotation_eq by exact Hi. reflexivity. }
  assert (Hext1 : ∀ g', extends (gm q) g' → extends (gm q1) g').
  { intros g'. apply extends_ext; [reflexivity|apply length_set_rotation|reflexivity| |].
    - intros j. apply colors_set_rotation.
    - intros c j Hc. unfold q1. cbn [gm with_game].
      rewrite get_tile_set_rotation_ne; [reflexivity|]. intros ->. exact (Hfree c Hc). }
  assert (Hfit : ∀ g', extends (gm q) g' → board g' !! (x, y) = Some i →
                       rotation (get_tile g' i) = rot → valid_move (gm q1) x y i = true).
  { intros g' He Hxy Hrot. pose proof (Hext1 g' He) as He1.
    destruct (extends_cell _ _ x y He1) as (i' & Hi' & _ & _ & Hv);
      [exact (proj2 Hgood1)|].
    rewrite Hxy in Hi'. injection Hi' as <-.
    pose proof He1 as (E1 & E2 & E3 & E4 & E5).
    apply (valid_move_sub (gm q1) g'); [symmetry; exact E1| | |exact Hv].
    - intros s. apply X_COLOR_ext; [|congruence].
      symmetry. apply (extends_colors _ _ _ He1). exact Hi1.
    - intros c k Hk. destruct (E4 c k Hk) as [A1 A2]. split; [exact A1|].
      intros s. apply X_COLOR_ext; [|congruence].
      symmetry. apply (extends_colors _ _ _ He1).
      destruct HT1 as (_ & T2 & _). destruct (T2 c k Hk) as (_ & _ & A3 & _). exact A3. }
  destruct (valid_move (gm q1) x y i) eqn:Hv.
  2:{ intros g' He Hord.
      apply (IH (rot + 1) q1 q'); try assumption; try lia; [exact (Hext1 g' He)|].
      intros j Hj. destruct (Hord j Hj) as [Hlt | [-> Hge]]; [left; exact Hlt|].
      right. split; [reflexivity|].
      destruct (Z.eq_dec (rotation (get_tile g' i)) rot) as [Hrot | Hrot]; [|lia].
      specialize (Hfit g' He Hj Hrot). discriminate. }
  set (q2 := with_game (set_cell x y (Some i) (gm q1)) q1) in *.
  change (size (gm q2)) with (size (gm q)) in Hrun.
  pose proof Hgood as [Hsz [Hx Hy]].
  destruct (next_cell (size (gm q)) x y) as [nx ny] eqn:Hn.
  assert (HT2 : tiled (gm q2) nx ny).
  { apply tiled_place; try assumption; [split; assumption|rewrite Hrot1; lia]. }
  assert (Hxy2 : placed (gm q2) (x, y) = Some (i, rot)).
  { change (gm q2) with (set_cell x y (Some i) (gm q1)). unfold placed.
    rewrite board_set_cell_eq. cbn [mbind option_bind].
    rewrite get_tile_set_cell, Hrot1. reflexivity. }
  assert (Hbef2 : ∀ g' c, extends (gm q) g' → c ∈ cells (size (gm q)) → before c x y →
                          placed (gm q2) c = placed g' c).
  { intros g' c He Hc Hb. rewrite (placed_extends (gm q1) g' x y c HT1 (Hext1 g' He) Hc Hb).
    change (gm q2) with (set_cell x y (Some i) (gm q1)). unfold placed.
    rewrite board_set_cell_ne by (apply before_irrefl; exact Hb). reflexivity. }
  (* the pair that an extension holds on the cell, when it is not this one *)
  assert (Hlater : ∀ g', extends (gm q) g' →
            (∀ j, board g' !! (x, y) = Some j →
                  (i < j)%nat ∨ (j = i ∧ rot ≤ rotation (get_tile g' i))) →
            (board g' !! (x, y) = Some i ∧ rotation (get_tile g' i) = rot) ∨
            ∃ b, placed g' (x, y) = Some b ∧ cand_lt (i, rot) b).
  { intros g' He Hord.
    destruct (extends_cell _ _ x y He (proj2 Hgood)) as (j & Hj & _).
    destruct (Hord j Hj) as [Hlt | [-> Hge]].
    - right. exists (j, rotation (get_tile g' j)). split; [unfold placed; rewrite Hj; reflexivity|].
      left. exact Hlt.
    - destruct (Z.eq_dec (rotation (get_tile g' i)) rot) as [Hrot | Hrot];
        [left; split; assumption|].
      right. exists (i, rotation (get_tile g' i)).
      split; [unfold placed; rewrite Hj; reflexivity|]. right. cbn [fst snd]. lia. }
  destruct (ny =? size (gm q)) eqn:Hlast.
  { (* the last cell *)
    injection Hrun as <-. apply Z.eqb_eq in Hlast. intros g' He Hord.
    change (gm (notify q2)) with (gm q2).
    destruct (Hlater g' He Hord) as [[Hj Hrot] | (b & Hb & Hlt)].
    - left. apply Forall_forall. intros c Hc.
      destruct (last_cell_all (size (gm q)) x y c Hsz Hx Hy) as [Hbc | ->];
        [rewrite Hn; exact Hlast|exact Hc| |].
      + exact (Hbef2 g' c He Hc Hbc).
      + rewrite Hxy2. unfold placed. rewrite Hj. cbn. rewrite Hrot. reflexivity.
    - apply (comes_first_at _ _ x y (i, rot) b); [exact (proj2 Hgood)| |exact Hxy2|exact Hb|exact Hlt].
      intros c Hc Hbc. exact (Hbef2 g' c He Hc Hbc). }
  apply Z.eqb_neq in Hlast.
  assert (Hg2 : good q2 nx ny).
  { split; [exact Hsz|]. exact (next_cell_good (size (gm q)) x y nx ny Hsz Hx Hy Hn Hlast). }
  assert (Hxy1 : board (gm q1) !! (x, y) = None).
  { apply (tiled_empty_from _ x y); [exact HT1|]. unfold before. cbn [fst snd]. lia. }
  assert (Hup2 : used_placed (gm q2)).
  { apply used_placed_spec. intros j Hj Huj. unfold q2 in *. cbn [gm with_game] in *.
    destruct (decide (j = i)) as [-> | Hne].
    - exists (x, y). apply board_set_cell_eq.
    - destruct (Hup1 j Hne Hj Huj) as [c Hc]. exists c.
      rewrite board_set_cell_ne; [exact Hc|]. intros ->. congruence. }
  assert (Hext2 : ∀ g', extends (gm q) g' → board g' !! (x, y) = Some i →
                        rotation (get_tile g' i) = rot → extends (gm q2) g').
  { intros g' He Hxy Hrot. pose proof (Hext1 g' He) as (E1 & E2 & E3 & E4 & E5).
    unfold extends, q2. cbn [gm with_game set_cell size tiles board].
    split; [exact E1|]. split; [exact E2|]. split; [exact E3|]. split; [|exact E5].
    intros c j Hc. destruct (decide (c = (x, y))) as [-> | Hne].
    - rewrite lookup_partial_alter_eq in Hc. injection Hc as <-.
      split; [exact Hxy|]. rewrite Hrot. symmetry. exact Hrot1.
    - rewrite lookup_partial_alter_ne in Hc by congruence. exact (E4 c j Hc). }
  destruct (rec q2 nx ny) as [[[|] p3]|] eqn:Hrec; [| |discriminate].
  { (* the continuation has found a tiling *)
    injection Hrun as <-. change (gm (notify p3)) with (gm p3). intros g' He Hord.
    destruct (Hlater g' He Hord) as [[Hj Hrot] | (b & Hb & Hlt)].
    - apply (rec_first q2 nx ny p3 Hg2 HT2 Hup2 Hq1 Hrec). exact (Hext2 g' He Hj Hrot).
    - apply rec_post in Hrec as [K _]; [|exact Hg2].
      pose proof K as (K1 & _).
      assert (Hk : ∀ c, before c nx ny → placed (gm p3) c = placed (gm q2) c).
      { intros c Hc. apply (placed_kept None nx ny q2 p3 c K HT2); [discriminate|exact Hc]. }
      apply (comes_first_at _ _ x y (i, rot) b); [| | |exact Hb|exact Hlt].
      + unfold in_bounds. rewrite K1. exact (proj2 Hgood).
      + intros c Hc Hbc. rewrite K1 in Hc. rewrite Hk.
        * exact (Hbef2 g' c He Hc Hbc).
        * pose proof (before_next (size (gm q)) x y c Hsz Hx Hy Hbc) as Hbn.
          rewrite Hn in Hbn. exact Hbn.
      + rewrite Hk; [exact Hxy2|].
        exact (before_next_cell (size (gm q)) x y nx ny Hsz Hx Hy Hn Hlast). }
  (* the continuation has failed: the next rotation *)
  pose proof Hrec as Hrec'.
  apply rec_complete in Hrec' as [Hq3 Hno2]; [|exact Hg2|exact HT2|exact Hup2|exact Hq1].
  apply rec_post in Hrec as [K U]; [|exact Hg2].
  pose proof (restored_board _ _ _ _ _ K U HT2) as Hb3.
  pose proof U as (U1 & _).
  destruct K as (K1 & _ & _ & K4 & K5 & _ & K7).
  set (p4 := with_game (set_cell x y None (gm p3)) p3) in *.
  assert (Hb4 : board (gm p4) = board (gm q1)).
  { apply map_eq. intros c. unfold p4. cbn [gm with_game].
    destruct (decide (c = (x, y))) as [-> | Hne].
    - rewrite board_set_cell_eq. symmetry. exact Hxy1.
    - rewrite board_set_cell_ne by exact Hne. rewrite Hb3.
      unfold q2. cbn [gm with_game]. apply board_set_cell_ne. exact Hne. }
  assert (Hget : ∀ j, used (get_tile (gm q1) j) = true →
                      get_tile (gm p4) j = get_tile (gm q1) j).
  { intros j Hj. unfold p4. cbn [gm with_game]. rewrite get_tile_set_cell.
    rewrite K7; [reflexivity|discriminate|exact Hj]. }
  assert (Hplaced_used : ∀ c j, board (gm q1) !! c = Some j → used (get_tile (gm q1) j) = true).
  { intros c j Hc. destruct HT1 as (_ & T2 & _).
    destruct (T2 c j Hc) as (_ & _ & _ & B4 & _). exact B4. }
  intros g' He Hord.
  apply (IH (rot + 1) p4 q'); try lia; try exact Hrun.
  - unfold good, in_bounds, p4. cbn [gm with_game set_cell size]. rewrite K1.
    split; [exact Hsz|split; assumption].
  - apply (tiled_ext (gm q1)); [exact K1|exact Hb4|exact K4| |exact HT1].
    intros c j Hc. apply Hget. exact (Hplaced_used c j Hc).
  - unfold p4. cbn [gm with_game set_cell tiles]. rewrite K4. exact Hi1.
  - rewrite (Hget i Hu1). exact Hu1.
  - rewrite Hb4. exact Hfree1.
  - intros j Hj Hlt Huj. rewrite Hb4. apply (Hup1 j Hj).
    + unfold p4 in Hlt. cbn [gm with_game set_cell tiles] in Hlt. rewrite K4 in Hlt. exact Hlt.
    + unfold p4 in Huj. cbn [gm with_game] in Huj. rewrite get_tile_set_cell in Huj.
      rewrite U1 in Huj. exact Huj.
  - exact Hq3.
  - apply (extends_ext (gm q1)); [exact K1|exact K4|exact Hb4| | |exact (Hext1 g' He)].
    + intros j. unfold p4. cbn [gm with_game]. rewrite get_tile_set_cell. apply K5.
    + intros c j Hc. rewrite (Hget j (Hplaced_used c j Hc)). reflexivity.
  - intros j Hj. destruct (Hord j Hj) as [Hlt | [-> Hge]]; [left; exact Hlt|].
    right. split; [reflexivity|].
    destruct (Z.eq_dec (rotation (get_tile g' i)) rot) as [Hrot | Hrot]; [|lia].
    exfalso. exact (Hno2 g' (Hext2 g' He Hj Hrot)).
Qed.

Lemma tiles_loop_first x y n : ∀ i p p',
  good p x y → tiled (gm p) x y → used_placed (gm p) → quiet p →
  (i + n ≤ length (tiles (gm p)))%nat →
  tiles_loop rec x y n i p = Some (true, p') →
  ∀ g', extends (gm p) g' → (∀ j, board g' !! (x, y) = Some j → (i ≤ j)%nat) →
        comes_first (gm p') g'.
Proof.
  induction n as [|n IH]; intros i p p' Hgood HT Hup Hq Hlen Hrun; [discriminate|].
  cbn [tiles_loop] in Hrun.
  pose proof (proj1 (used_placed_spec _) Hup) as Hup'.
  destruct (used (get_tile (gm p) i)) eqn:Hu.
  { intros g' He Hord. apply (IH (S i) p p'); try assumption; [lia|].
    intros j Hj. pose proof (Hord j Hj) as Hle.
    destruct (decide (j = i)) as [-> | Hne]; [|lia]. exfalso.
    destruct (Hup' i ltac:(lia) Hu) as [c Hc].
    pose proof He as (_ & _ & _ & E4 & _). destruct (E4 c i Hc) as [Hc' _].
    assert (c = (x, y)) as -> by exact (extends_inj _ _ _ _ _ He Hc' Hj).
    rewrite (tiled_empty_from _ x y (x, y) HT) in Hc; [discriminate|].
    unfold before. cbn [fst snd]. lia. }
  pose proof (tiled_not_placed _ _ _ i HT Hu) as Hfree.
  set (pm := with_game (set_used i true (gm p)) p) in *.
  assert (HTm : tiled (gm pm) x y).
  { apply (tiled_ext (gm p)); [reflexivity|reflexivity|apply length_set_used| |exact HT].
    intros c j Hc. apply get_tile_set_used_ne. intros ->. exact (Hfree c Hc). }
  assert (Him : (i < length (tiles (gm pm)))%nat)
    by (unfold pm; cbn [gm with_game]; rewrite length_set_used; lia).
  assert (Hum : used (get_tile (gm pm) i) = true)
    by (unfold pm; cbn [gm with_game]; rewrite get_tile_set_used_eq by lia; reflexivity).
  assert (Hupm : ∀ j, j ≠ i → (j < length (tiles (gm pm)))%nat →
                      used (get_tile (gm pm) j) = true → ∃ c, board (gm pm) !! c = Some j).
  { intros j Hj Hlt Huj. unfold pm in *. cbn [gm with_game] in *.
    rewrite length_set_used in Hlt. rewrite get_tile_set_used_ne in Huj by congruence.
    exact (Hup' j Hlt Huj). }
  assert (Hextm : ∀ g', extends (gm p) g' → extends (gm pm) g').
  { intros g'. apply extends_ext; [reflexivity|apply length_set_used|reflexivity| |].
    - intros j. apply colors_set_used.
    - intros c j Hc. unfold pm. cbn [gm with_game].
      rewrite get_tile_set_used_ne; [reflexivity|]. intros ->. exact (Hfree c Hc). }
  destruct (rot_loop rec x y i 4 0 pm) as [[[|] q]|] eqn:Hrot; [| |discriminate].
  { injection Hrun as <-. intros g' He Hord.
    apply (rot_loop_first x y i 4 0 pm q Hgood HTm Him Hum Hfree Hupm Hq
             ltac:(lia) ltac:(simpl; lia) Hrot g' (Hextm g' He)).
    intros j Hj. pose proof (Hord j Hj) as Hle.
    destruct (decide (j = i)) as [-> | Hne]; [|left; lia].
    right. split; [reflexivity|].
    destruct (extends_cell _ _ x y He (proj2 Hgood)) as (i' & Hi' & _ & Hr & _).
    rewrite Hj in Hi'. injection Hi' as <-. lia. }
  pose proof Hrot as Hrot'.
  apply (rot_loop_complete rec rec_post rec_complete x y i 4 0 pm q) in Hrot' as [Hqq Hnoi];
    [|exact Hgood|exact HTm|exact Him|exact Hum|exact Hfree|exact Hupm|exact Hq|lia|simpl; lia].
  apply (rot_loop_post rec rec_post) in Hrot; [|exact Hgood].
  apply post_unmark_used in Hrot as [K U]; [|lia|exact Hu].
  pose proof (tiled_restored _ _ _ _ K U HT) as HT'.
  pose proof (restored_board _ _ _ _ _ K U HT) as Hb'.
  pose proof U as (U1 & _).
  destruct K as (K1 & _ & _ & K4 & K5 & _ & K7).
  set (p2 := with_game (set_used i false (gm q)) q) in *.
  intros g' He Hord. apply (IH (S i) p2 p'); try exact Hrun.
  - unfold good, in_bounds. rewrite K1. exact Hgood.
  - exact HT'.
  - apply used_placed_spec. intros j Hj Huj. rewrite Hb'. rewrite K4 in Hj.
    rewrite U1 in Huj. exact (Hup' j Hj Huj).
  - exact Hqq.
  - rewrite K4. lia.
  - apply (extends_ext (gm p)); [exact K1|exact K4|exact Hb'|exact K5| |exact He].
    intros c k Hc. rewrite K7; [reflexivity|discriminate|].
    destruct HT as (_ & T2 & _). destruct (T2 c k Hc) as (_ & _ & _ & B4 & _). exact B4.
  - intros j Hj. pose proof (Hord j Hj) as Hle.
    destruct (decide (j = i)) as [-> | Hne]; [|lia]. exfalso.
    destruct (extends_cell _ _ x y He (proj2 Hgood)) as (i' & Hi' & _ & Hr & _).
    rewrite Hj in Hi'. injection Hi' as <-.
    apply (Hnoi g' (Hextm g' He) Hj). simpl. lia.
Qed.
End loops_first.

Lemma play_first fuel : ∀ p x y p',
  good p x y → tiled (gm p) x y → used_placed (gm p) → quiet p →
  play fuel p x y = Some (true, p') →
  ∀ g', extends (gm p) g' → comes_first (gm p') g'.
Proof.
  induction fuel as [|fuel IH]; intros p x y p' Hgood HT Hup Hq Hrun; [discriminate|].
  cbn [play] in Hrun. pose proof Hq as (Q1 & _). rewrite Q1 in Hrun.
  destruct (quiet_poll p Hq) as (P1 & P2 & P3).
  destruct (poll (tick p)) as [received p1]. cbn [fst snd] in *. subst received.
  pose proof P2 as (_ & Q2 & _). rewrite Q2 in Hrun.
  intros g' He.
  apply (tiles_loop_first (play fuel) (play_post fuel) (play_complete fuel) IH x y
           (length (tiles (gm p1))) 0 p1 p'); try exact Hrun; try exact P2.
  - unfold good, in_bounds. rewrite P3. exact Hgood.
  - rewrite P3. exact HT.
  - rewrite P3. exact Hup.
  - simpl. lia.
  - rewrite P3. exact He.
  - intros j _. lia.
Qed.

Lemma polled_refl p : polled p p.
Proof. split; [lia|]. exists []. split; [reflexivity|]. simpl. lia. Qed.

Lemma polled_trans p1 p2 p3 : polled p1 p2 → polled p2 p3 → polled p1 p3.
Proof.
  intros (A1 & t1 & A2 & A3) (B1 & t2 & B2 & B3). split; [lia|].
  exists (t1 ++ t2). split; [rewrite A2, B2, app_assoc; reflexivity|].
  rewrite length_app. lia.
Qed.

Lemma polled_same p p' :
  check_counter p' = check_counter p → probes p' = probes p → polled p p'.
Proof.
  intros H1 H2. split; [lia|]. exists []. split; [rewrite H2; reflexivity|].
  rewrite H1. simpl. lia.
Qed.

Lemma polled_poll_tick p : 0 ≤ check_counter p → polled p (poll (tick p)).2.
Proof.
  intros Hc. unfold poll. cbn [tick check_counter probes].
  assert (Hstep : 0 ≤ (check_counter p + 1) / 1000 - check_counter p / 1000).
  { pose proof (Z.div_le_mono (check_counter p) (check_counter p + 1) 1000). lia. }
  destruct (Z.eqb_spec (Z.rem (check_counter p + 1) 1000) 0) as [Hz | Hz].
  - assert (Hone : (check_counter p + 1) / 1000 - check_counter p / 1000 = 1).
    { rewrite Z.rem_mod_nonneg in Hz by lia.
      pose proof (Z.div_mod (check_counter p + 1) 1000 ltac:(lia)) as H1.
      pose proof (Z.div_mod (check_counter p) 1000 ltac:(lia)) as H2.
      pose proof (Z.mod_pos_bound (check_counter p) 1000 ltac:(lia)) as H3.
      lia. }
    destruct (probes p) as [|[v|] rest] eqn:Hp; cbn [snd].
    + split; [cbn; lia|]. exists []. cbn. rewrite ?Hp. split; [reflexivity|lia].
    + split; [cbn; lia|]. exists [Some v]. cbn. rewrite ?Hp. split; [reflexivity|lia].
    + split; [cbn; lia|]. exists [None]. cbn. rewrite ?Hp. split; [reflexivity|lia].
  - cbn [snd]. split; [cbn; lia|]. exists []. cbn. split; [reflexivity|lia].
Qed.

Section loops_polled.
Variable rec : proc → Z → Z → outcome.
Hypothesis rec_polled : ∀ p x y r p',
  0 ≤ check_counter p → rec p x y = Some (r, p') → polled p p'.
Variables x y : Z.

Lemma rot_loop_polled i n : ∀ rot p r p',
  0 ≤ check_counter p → rot_loop rec x y i n rot p = Some (r, p') → polled p p'.
Proof.
  induction n as [|n IH]; intros rot p r p' Hc Hrun.
  - injection Hrun as _ <-. apply polled_refl.
  - cbn [rot_loop] in Hrun. cbv zeta in Hrun.
    set (p1 := with_game (set_rotation i rot (gm p)) p) in *.
    destruct (valid_move (gm p1) x y i).
    2:{ exact (IH (rot + 1) p1 r p' Hc Hrun). }
    destruct (next_cell _ x y) as [nx ny].
    destruct (ny =? _).
    { injection Hrun as _ <-. apply polled_same; reflexivity. }
    destruct (rec _ nx ny) as [[[|] p3]|] eqn:Hrec; [| |discriminate];
      (assert (H3 : polled p p3);
       [apply (polled_trans p (with_game (set_cell x y (Some i) (gm p1)) p1) p3);
        [apply polled_same; reflexivity|eapply rec_polled; [exact Hc|exact Hrec]]|]).
    + injection Hrun as _ <-. eapply polled_trans; [exact H3|].
      apply polled_same; reflexivity.
    + eapply polled_trans; [exact H3|].
      apply (IH (rot + 1) (with_game (set_cell x y None (gm p3)) p3) r p'); [|exact Hrun].
      destruct H3 as [H3 _]. cbn in *. lia.
Qed.

Lemma tiles_loop_polled n : ∀ i p r p',
  0 ≤ check_counter p → tiles_loop rec x y n i p = Some (r, p') → polled p p'.
Proof.
  induction n as [|n IH]; intros i p r p' Hc Hrun.
  - injection Hrun as _ <-. apply polled_refl.
  - cbn [tiles_loop] in Hrun.
    destruct (used (get_tile (gm p) i)); [exact (IH (S i) p r p' Hc Hrun)|].
    destruct (rot_loop rec x y i 4 0 _) as [[[|] q]|] eqn:Hrot; [| |discriminate];
      (assert (Hq : polled p q);
       [apply (polled_trans p (with_game (set_used i true (gm p)) p) q);
        [apply polled_same; reflexivity|eapply rot_loop_polled; [exact Hc|exact Hrot]]|]).
    + injection Hrun as _ <-. exact Hq.
    + eapply polled_trans; [exact Hq|].
      apply (IH (S i) (with_game (set_used i false (gm q)) q) r p'); [|exact Hrun].
      destruct Hq as [Hq _]. cbn in *. lia.
Qed.
End loops_polled.

Lemma play_polled fuel : ∀ p x y r p',
  0 ≤ check_counter p → play fuel p x y = Some (r, p') → polled p p'.
Proof.
  induction fuel as [|fuel IH]; intros p x y r p' Hc Hrun; [discriminate|].
  cbn [play] in Hrun. destruct (global_stop p); [injection Hrun as _ <-; apply polled_refl|].
  pose proof (polled_poll_tick p Hc) as H1.
  destruct (poll (tick p)) as [received p1]. cbn [snd] in H1.
  destruct received; [injection Hrun as _ <-; exact H1|].
  destruct (global_solution_found p1); [injection Hrun as _ <-; exact H1|].
  eapply polled_trans; [exact H1|].
  apply (tiles_loop_polled (play fuel) IH x y (length (tiles (gm p1))) 0%nat p1 r p');
    [|exact Hrun].
  destruct H1 as [H1 _]. lia.
Qed.

(** *** A stop message that was taken ends the search *)

Lemma found_poll_tick p :
  (global_solution_found p = true → global_solution_found (poll (tick p)).2 = true) ∧
  ((poll (tick p)).1 = true → global_solution_found (poll (tick p)).2 = true).
Proof.
  unfold poll. cbn [tick check_counter probes].
  destruct (Z.rem (check_counter p + 1) 1000 =? 0); [|split; [auto|discriminate]].
  destruct (probes p) as [|[v|] rest]; cbn; split; auto; discriminate.
Qed.

Section loops_found.
Variable rec : proc → Z → Z → outcome.
Hypothesis rec_post : ∀ p x y r p',
  good p x y → rec p x y = Some (r, p') → post None x y p r p'.
Hypothesis rec_found : ∀ p x y r p',
  good p x y → rec p x y = Some (r, p') →
  (global_solution_found p = true → global_solution_found p' = true) ∧
  (r = true → global_solution_found p' = false).
Variables x y : Z.

Lemma rot_loop_found i n : ∀ rot p r p',
  good p x y →
  rot_loop rec x y i n rot p = Some (r, p') →
  (global_solution_found p = true → global_solution_found p' = true) ∧
  (last_cell (size (gm p)) x y → global_solution_found p' = global_solution_found p) ∧
  (r = true → ¬ last_cell (size (gm p)) x y → global_solution_found p' = false).
Proof.
  induction n as [|n IH]; intros rot p r p' Hgood Hrun.
  - injection Hrun as <- <-. split; [auto|]. split; [auto|discriminate].
  - cbn [rot_loop] in Hrun. cbv zeta in Hrun.
    set (p1 := with_game (set_rotation i rot (gm p)) p) in *.
    destruct (valid_move (gm p1) x y i).
    2:{ exact (IH _ p1 _ _ Hgood Hrun). }
    set (p2 := with_game (set_cell x y (Some i) (gm p1)) p1) in *.
    change (size (gm p2)) with (size (gm p)) in Hrun.
    unfold last_cell.
    destruct (next_cell (size (gm p)) x y) as [nx ny] eqn:Hn. cbn [snd].
    destruct (ny =? size (gm p)) eqn:Hlast.
    { injection Hrun as <- <-. apply Z.eqb_eq in Hlast. split; [auto|]. split; [auto|].
      intros _ H. contradiction. }
    apply Z.eqb_neq in Hlast. destruct Hgood as [Hsz [Hx Hy]].
    assert (Hg2 : good p2 nx ny).
    { split; [exact Hsz|]. exact (next_cell_good (size (gm p)) x y nx ny Hsz Hx Hy Hn Hlast). }
    destruct (rec p2 nx ny) as [[[|] p3]|] eqn:Hrec; [| |discriminate];
      pose proof (rec_found _ _ _ _ _ Hg2 Hrec) as [F1 F2].
    + injection Hrun as <- <-. split; [exact F1|]. split; [intros H; contradiction|].
      intros _ _. exact (F2 eq_refl).
    + apply rec_post in Hrec as [(K1 & _) _]; [|exact Hg2].
      set (p4 := with_game (set_cell x y None (gm p3)) p3) in *.
      assert (Hs4 : size (gm p4) = size (gm p)) by exact K1.
      destruct (IH (rot + 1) p4 r p') as (G1 & _ & G3); [|exact Hrun|].
      * unfold good, in_bounds. rewrite Hs4. split; [exact Hsz|split; assumption].
      * split; [intros H; apply G1, F1, H|]. split; [intros H; contradiction|].
        intros Hr _. apply (G3 Hr). rewrite Hs4. unfold last_cell. rewrite Hn. exact Hlast.
Qed.

Lemma tiles_loop_found n : ∀ i p r p',
  good p x y → (i + n ≤ length (tiles (gm p)))%nat →
  tiles_loop rec x y n i p = Some (r, p') →
  (global_solution_found p = true → global_solution_found p' = true) ∧
  (last_cell (size (gm p)) x y → global_solution_found p' = global_solution_found p) ∧
  (r = true → ¬ last_cell (size (gm p)) x y → global_solution_found p' = false).
Proof.
  induction n as [|n IH]; intros i p r p' Hgood Hlen Hrun.
  - injection Hrun as <- <-. split; [auto|]. split; [auto|discriminate].
  - cbn [tiles_loop] in Hrun.
    destruct (used (get_tile (gm p) i)) eqn:Hu; [apply (IH (S i)); [exact Hgood|lia|exact Hrun]|].
    destruct (rot_loop rec x y i 4 0 _) as [[[|] q]|] eqn:Hrot; [| |discriminate];
      pose proof (rot_loop_found i 4 0 (with_game (set_used i true (gm p)) p) _ _ Hgood Hrot)
        as (F1 & F2 & F3).
    + injection Hrun as <- <-. split; [exact F1|]. split; [exact F2|exact F3].
    + apply (rot_loop_post rec rec_post) in Hrot; [|exact Hgood].
      apply post_unmark_used in Hrot as [(K1 & _ & _ & K4 & _) _]; [|lia|exact Hu].
      destruct (IH (S i) (with_game (set_used i false (gm q)) q) r p') as (G1 & G2 & G3);
        [| |exact Hrun|].
      * unfold good, in_bounds. rewrite K1. exact Hgood.
      * rewrite K4. lia.
      * rewrite K1 in G2, G3. split; [intros H; apply G1, F1, H|].
        split; [intros H; rewrite (G2 H); exact (F2 H)|exact G3].
Qed.
End loops_found.

Lemma play_found fuel : ∀ p x y r p',
  good p x y → play fuel p x y = Some (r, p') →
  (global_solution_found p = true → global_solution_found p' = true) ∧
  (r = true → global_solution_found p' = false).
Proof.
  induction fuel as [|fuel IH]; intros p x y r p' Hgood Hrun; [discriminate|].
  cbn [play] in Hrun.
  destruct (global_stop p); [injection Hrun as <- <-; split; [auto|discriminate]|].
  destruct (found_poll_tick p) as [P1 P2].
  destruct (poll_tick_frame p) as (E1 & _).
  destruct (poll (tick p)) as [received p1]. cbn [fst snd] in *.
  destruct received; [injection Hrun as <- <-; split; [auto|discriminate]|].
  destruct (global_solution_found p1) eqn:Hf1;
    [injection Hrun as <- <-; split; [auto|discriminate]|].
  destruct (tiles_loop_found (play fuel) (play_post fuel) IH x y
              (length (tiles (gm p1))) 0%nat p1 r p')
    as (G1 & G2 & G3); [| |exact Hrun|].
  - unfold good, in_bounds. rewrite E1. exact Hgood.
  - simpl. lia.
  - split; [intros H; specialize (P1 H); discriminate|].
    intros Hr.
    destruct (Z.eq_dec (next_cell (size (gm p1)) x y).2 (size (gm p1))) as [Hl | Hl].
    + rewrite (G2 Hl). exact Hf1.
    + exact (G3 Hr Hl).
Qed.

(** *** Whole runs *)

Lemma global_result_zero locals :
  (∀ r, locals !! r ≠ Some true) → global_result locals = 0.
Proof.
  intros Hall. unfold global_result, allreduce_max.
  assert (Hz : ∀ z, z ∈ Z.b2z <$> locals → z = 0).
  { intros z Hz. apply list_elem_of_fmap in Hz as (b & -> & Hb).
    apply list_elem_of_lookup in Hb as [r Hr]. destruct b; [|reflexivity].
    exfalso. exact (Hall r Hr). }
  set (xs := Z.b2z <$> locals) in *.
  assert (Hhd : hd 0 xs = 0).
  { destruct xs as [|z xs']; [reflexivity|]. apply Hz. left. }
  rewrite Hhd. clear Hhd. induction xs as [|z xs' IH]; [reflexivity|].
  cbn [foldr]. rewrite IH by (intros z' Hz'; apply Hz; right; exact Hz').
  rewrite (Hz z) by left. reflexivity.
Qed.

(** The searches of the active processes all return. *)
Lemma local_solutions_total g corners nprocs pr :
  0 < size g ≤ UINT_MAX →
  ∃ locals, mapM id (local_solutions g corners nprocs pr) = Some locals ∧
    ∀ rk, 0 ≤ rk < effective_processes nprocs (Z.of_nat (length corners)) →
      ∃ b, locals !! Z.to_nat rk = Some b ∧
           fst <$> worker g corners rk nprocs (pr rk) = Some b.
Proof.
  intros Hsz.
  destruct (mapM_is_Some_2 id (local_solutions g corners nprocs pr)) as [locals Hl].
  { apply Forall_forall. intros o Ho. unfold local_solutions in Ho.
    apply list_elem_of_fmap in Ho as (rk & -> & _).
    destruct (worker_total g corners rk nprocs (pr rk) Hsz) as [rp ->].
    eexists; reflexivity. }
  exists locals. split; [exact Hl|]. intros rk Hrk.
  apply mapM_Some_1 in Hl.
  assert (Hlk : local_solutions g corners nprocs pr !! Z.to_nat rk
                = Some (fst <$> worker g corners rk nprocs (pr rk))).
  { unfold local_solutions. rewrite list_lookup_fmap.
    rewrite lookup_seqZ_lt by lia. cbn [fmap option_fmap option_map].
    replace (0 + Z.of_nat (Z.to_nat rk)) with rk by lia. reflexivity. }
  destruct (Forall2_lookup_l _ _ _ _ _ Hl Hlk) as (b & Hb & Hid).
  exists b. split; [exact Hb|exact Hid].
Qed.

Lemma local_solutions_length g corners nprocs pr locals :
  mapM id (local_solutions g corners nprocs pr) = Some locals →
  ∀ r b, locals !! r = Some b →
    0 ≤ Z.of_nat r < effective_processes nprocs (Z.of_nat (length corners)) ∧
    fst <$> worker g corners (Z.of_nat r) nprocs (pr (Z.of_nat r)) = Some b.
Proof.
  intros Hl r b Hb. apply mapM_Some_1 in Hl.
  destruct (Forall2_lookup_r _ _ _ _ _ Hl Hb) as (o & Ho & Hid).
  unfold local_solutions in Ho. rewrite list_lookup_fmap in Ho.
  destruct (seqZ 0 _ !! r) as [rk|] eqn:Hrk; [|discriminate].
  apply lookup_seqZ in Hrk as [-> Hlt]. injection Ho as <-.
  split; [lia|]. exact Hid.
Qed.

Lemma run_exit_all_active b nc recs g corners nprocs pr :
  0 < b ≤ UINT_MAX → setup b nc recs = Some (g, corners) →
  0 < nprocs ≤ Z.of_nat (length corners) →
  ∃ locals,
    mapM id (local_solutions g corners nprocs pr) = Some locals ∧
    (∀ rk, 0 ≤ rk < nprocs →
       run_exit b nc recs nprocs pr rk
       = Some (if global_result locals =? 0 then 1 else 0)) ∧
    (∀ rk, 0 ≤ rk < nprocs →
       ∃ bb, locals !! Z.to_nat rk = Some bb ∧
             fst <$> worker g corners rk nprocs (pr rk) = Some bb) ∧
    (∀ r bb, locals !! r = Some bb →
       0 ≤ Z.of_nat r < nprocs ∧
       fst <$> worker g corners (Z.of_nat r) nprocs (pr (Z.of_nat r)) = Some bb).
Proof.
  intros Hb Hs Hn.
  destruct (setup_Some _ _ _ _ _ Hs) as [Hini _].
  destruct (initialize_shape _ _ _ _ Hini) as (Hsz & _).
  assert (Heff : effective_processes nprocs (Z.of_nat (length corners)) = nprocs).
  { unfold effective_processes. destruct (Z.ltb_spec nprocs (Z.of_nat (length corners))); lia. }
  destruct (local_solutions_total g corners nprocs pr) as (locals & Hl & Hlk);
    [rewrite Hsz; exact Hb|].
  exists locals. split; [exact Hl|]. split; [|split].
  - intros rk Hrk. unfold run_exit. rewrite Hs. cbn [mbind option_bind].
    rewrite Hl. cbn [mbind option_bind].
    apply exit_status_all_active; lia.
  - intros rk Hrk. apply Hlk. rewrite Heff. exact Hrk.
  - intros r bb Hr. destruct (local_solutions_length _ _ _ _ _ Hl r bb Hr) as [H1 H2].
    split; [lia|exact H2].
Qed.

Lemma some_true_or_none (locals : list bool) :
  (∃ r, locals !! r = Some true) ∨ (∀ r, locals !! r ≠ Some true).
Proof.
  destruct (decide (true ∈ locals)) as [Hin | Hnot].
  - left. apply list_elem_of_lookup in Hin. exact Hin.
  - right. intros r Hr. apply Hnot. apply list_elem_of_lookup. eauto.
Qed.

(** *** Tiles and their rotation *)

(** X1: the field [rotation] turns the tile clockwise by quarter turns: with
    rotation [r] the color stored for the side [s] shows on the side
    [(s + r) % 4], so the stored North color shows to the East after one
    turn. *)
Theorem rotation_turns_clockwise t r s :
  0 ≤ r ≤ 3 → 0 ≤ s ≤ 3 →
  X_COLOR (with_rotation r t) (Z.rem (s + r) 4) = color_at (colors t) s.
Proof.
  intros Hr Hs. unfold X_COLOR. cbn [with_rotation colors rotation].
  f_equal.
  destruct (small_cases r Hr) as [-> | [-> | [-> | ->]]],
           (small_cases s Hs) as [-> | [-> | [-> | ->]]]; reflexivity.
Qed.

Lemma rotation_turns_clockwise_witness :
  0 ≤ 1 ≤ 3 ∧ 0 ≤ 0 ≤ 3 ∧
  E_COLOR (with_rotation 1 (Tile (5, 6, 7, 8) 0 0 false)) = 5.
Proof.
  split; [lia|]. split; [lia|].
  apply (rotation_turns_clockwise (Tile (5, 6, 7, 8) 0 0 false) 1 0); lia.
Defined.

(** *** Reading the puzzle *)



(** *** The corner classifier and the corner list *)

(** X3: [eh_peca_de_quina] decides at rotation 0.  The rotation it reports
    is always 0: the four tests of one iteration cover the four pairs of
    adjacent sides, so a tile that matches at some rotation matches at the
    first.  It reports a match exactly when two adjacent sides of the tile
    as stored are border-colored, and it leaves the field [rotation] of the
    tile at 0 after a match and at 3 otherwise. *)
Theorem eh_peca_de_quina_decides_at_rotation_0 t :
  (∀ r k, snd (eh_peca_de_quina t) = Some (r, k) →
     r = 0 ∧ 0 ≤ k ≤ 3 ∧ corner_cond (with_rotation 0 t) k = true ∧
     fst (eh_peca_de_quina t) = with_rotation 0 t) ∧
  (snd (eh_peca_de_quina t) = None → fst (eh_peca_de_quina t) = with_rotation 3 t) ∧
  (is_Some (snd (eh_peca_de_quina t)) ↔ adjacent_border (with_rotation 0 t)).
Proof.
  rewrite adjacent_border_iff, eh_peca_de_quina_unfold. cbv zeta.
  destruct (corner_cond (with_rotation 0 t) 0) eqn:E0;
    [|destruct (corner_cond (with_rotation 0 t) 1) eqn:E1;
      [|destruct (corner_cond (with_rotation 0 t) 2) eqn:E2;
        [|destruct (corner_cond (with_rotation 0 t) 3) eqn:E3]]];
    cbn [fst snd].
  1-4: split; [intros r k [= <- <-]; repeat split; (lia || assumption)|];
       split; [discriminate|]; split; [intros _; eexists; split; [|eassumption]; lia|eauto].
  split; [discriminate|]. split; [reflexivity|]. split; [intros [? [=]]|].
  intros (k & Hk & Hc).
  destruct (small_cases k Hk) as [-> | [-> | [-> | ->]]]; congruence.
Qed.

(** X3 on a tile stored with its border sides to the South and East and
    turned once: the match is found at rotation 0, as a bottom-right
    corner. *)
Lemma eh_peca_de_quina_decides_at_rotation_0_witness :
  snd (eh_peca_de_quina (Tile (3, 0, 0, 4) 1 7 false)) = Some (0, 3) ∧
  fst (eh_peca_de_quina (Tile (3, 0, 0, 4) 1 7 false)) = Tile (3, 0, 0, 4) 0 7 false.
Proof.
  split; [reflexivity|].
  apply (proj1 (eh_peca_de_quina_decides_at_rotation_0 (Tile (3, 0, 0, 4) 1 7 false)) 0 3).
  reflexivity.
Defined.

(** X4: [separar_pecas_de_quina] leaves the game as it found it, the
    rotation of every tile restored; it lists at most one corner for each
    tile, every corner with rotation 0 and a type within 0..3. *)
Theorem separar_pecas_de_quina_restores_tiles g :
  fst (separar_pecas_de_quina g) = g ∧
  (length (snd (separar_pecas_de_quina g)) ≤ length (tiles g))%nat ∧
  Forall (fun c => corner_rotation c = 0 ∧ 0 ≤ corner_type c ≤ 3)
         (snd (separar_pecas_de_quina g)).
Proof.
  unfold separar_pecas_de_quina. cbn [fst snd]. split; [|split].
  - rewrite (map_ext _ id) by apply separar_step_fst.
    rewrite map_id. destruct g. reflexivity.
  - induction (tiles g) as [|t l IH]; [reflexivity|].
    cbn [omap list_omap]. destruct (snd (separar_step t)); simpl; lia.
  - apply Forall_forall. intros c Hc. apply list_elem_of_omap in Hc as (t & _ & Hc).
    apply separar_step_corner in Hc as (_ & H2 & H3 & _). split; assumption.
Qed.

(** X5: on the game that [initialize] returns, the corner list names the
    tiles in ascending order of their ids, each at most once; a tile is
    listed exactly when two adjacent sides of it are border-colored, with
    rotation 0 and the type of the first corner condition that it meets. *)
Theorem setup_lists_corners_in_tile_order b nc recs g corners :
  setup b nc recs = Some (g, corners) →
  initialize b nc recs = Some g ∧
  StronglySorted Z.lt (tile_id <$> corners) ∧
  (∀ c, c ∈ corners →
        corner_rotation c = 0 ∧ 0 ≤ corner_type c ≤ 3 ∧
        0 ≤ tile_id c < tile_count g ∧
        corner_cond (get_tile g (Z.to_nat (tile_id c))) (corner_type c) = true ∧
        ∀ k, 0 ≤ k < corner_type c →
             corner_cond (get_tile g (Z.to_nat (tile_id c))) k = false) ∧
  (∀ i, (i < length (tiles g))%nat →
        (∃ c, c ∈ corners ∧ tile_id c = Z.of_nat i) ↔ adjacent_border (get_tile g i)).
Proof.
  intros Hs. destruct (setup_Some _ _ _ _ _ Hs) as [Hini ->].
  split; [exact Hini|].
  destruct (initialize_shape _ _ _ _ Hini) as (_ & _ & _ & Hti).
  assert (Hown : ∀ (i : nat) t, tiles g !! i = Some t → with_rotation 0 t = t).
  { intros i t Ht. destruct (Hti i t Ht) as (Hr & _). rewrite <- Hr. apply with_rotation_own. }
  destruct (corners_sorted (tiles g) 0) as [Hsort _].
  { intros i t Ht. destruct (Hti i t Ht) as (_ & Hid & _). lia. }
  split; [exact Hsort|]. split.
  - intros c Hc. apply list_elem_of_omap in Hc as (t & Ht & Hc).
    apply list_elem_of_lookup in Ht as [i Ht].
    destruct (Hti i t Ht) as (_ & Hid & _).
    pose proof Hc as Hc'. apply separar_step_corner in Hc' as (C1 & C2 & C3 & C4).
    rewrite C1, Hid, Nat2Z.id. unfold get_tile, tile_count. rewrite Ht.
    change (default null_tile (Some t)) with t. rewrite (Hown i t Ht) in C4.
    split; [exact C2|]. split; [exact C3|].
    split; [apply lookup_lt_Some in Ht; lia|]. split; [exact C4|].
    intros k Hk. rewrite separar_step_snd, eh_peca_de_quina_unfold in Hc. cbv zeta in Hc.
    rewrite (Hown i t Ht) in Hc.
    destruct (corner_cond t 0) eqn:E0; [injection Hc as <-; cbn in Hk; lia|].
    destruct (corner_cond t 1) eqn:E1;
      [injection Hc as <-; cbn in Hk; assert (k = 0) as -> by lia; exact E0|].
    destruct (corner_cond t 2) eqn:E2;
      [injection Hc as <-; cbn in Hk;
       assert (k = 0 ∨ k = 1) as [-> | ->] by lia; assumption|].
    destruct (corner_cond t 3) eqn:E3; [|discriminate].
    injection Hc as <-. cbn in Hk.
    assert (k = 0 ∨ k = 1 ∨ k = 2) as [-> | [-> | ->]] by lia; assumption.
  - intros i Hi. destruct (lookup_lt_is_Some_2 _ _ Hi) as [t Ht].
    destruct (Hti i t Ht) as (_ & Hid & _).
    unfold get_tile. rewrite Ht. change (default null_tile (Some t)) with t.
    replace (adjacent_border t) with (adjacent_border (with_rotation 0 t))
      by (rewrite (Hown i t Ht); reflexivity).
    rewrite <- separar_step_is_Some. split.
    + intros (c & Hc & Hci). apply list_elem_of_omap in Hc as (t' & Ht' & Hc).
      apply list_elem_of_lookup in Ht' as [i' Ht'].
      destruct (Hti i' t' Ht') as (_ & Hid' & _).
      pose proof Hc as Hc'. apply separar_step_corner in Hc' as (Hc1 & _).
      assert (i' = i) as -> by lia. rewrite Ht in Ht'. injection Ht' as <-. eauto.
    + intros [c Hc]. exists c. split.
      * apply list_elem_of_omap. exists t. split; [|exact Hc].
        apply list_elem_of_lookup. eauto.
      * apply separar_step_corner in Hc as (Hc1 & _). lia.
Qed.

(** X5 on [puzzle_nw]: the four tiles are corners, listed in the order of
    their ids. *)
Lemma setup_lists_corners_in_tile_order_witness :
  setup 2 5 puzzle_nw = Some (load puzzle_nw, corners_nw) ∧
  StronglySorted Z.lt (tile_id <$> corners_nw).
Proof.
  split; [reflexivity|].
  apply (setup_lists_corners_in_tile_order 2 5 puzzle_nw (load puzzle_nw) corners_nw).
  reflexivity.
Defined.

(** *** The start of the search *)

(** X6: the start scan of [main] returns the first empty cell of the board
    in row-major order (rows top to bottom, each row left to right), and the
    pair [(size, size)] exactly when no cell of the board is empty. *)
Theorem find_start_is_first_empty_cell g :
  (∀ sx sy, find_start g = (sx, sy) → sy < size g →
     in_bounds g sx sy ∧ board g !! (sx, sy) = None ∧
     ∀ c, in_bounds g c.1 c.2 → before c sx sy → board g !! c ≠ None) ∧
  (find_start g = (size g, size g) ↔
     ∀ c, in_bounds g c.1 c.2 → board g !! c ≠ None).
Proof.
  unfold find_start.
  destruct (List.find _ (cells (size g))) as [c|] eqn:E.
  - destruct (find_first _ _ _ E) as (l1 & l2 & Hl & Hc & Hl1).
    apply bool_decide_eq_true in Hc.
    assert (Hin : in_bounds g c.1 c.2).
    { apply cells_elem. rewrite Hl. apply elem_of_app. right. left. }
    split.
    + intros sx sy -> _. cbn [fst snd] in *. split; [exact Hin|]. split; [exact Hc|].
      intros c' Hin' Hlt Hemp. apply cells_elem in Hin'. rewrite Hl in Hin'.
      pose proof (cells_sorted (size g)) as Hs. rewrite Hl in Hs.
      apply elem_of_app in Hin' as [H1 | H2].
      * specialize (Hl1 c' H1). apply bool_decide_eq_false in Hl1. contradiction.
      * apply StronglySorted_app in Hs as (_ & _ & Hs).
        apply StronglySorted_cons in Hs as [Hs _]. rewrite Forall_forall in Hs.
        apply elem_of_cons in H2 as [-> | H2].
        -- unfold before in Hlt. cbn [fst snd] in Hlt. lia.
        -- specialize (Hs c' H2). unfold cell_lt, before in Hs, Hlt.
           cbn [fst snd] in Hs, Hlt. lia.
    + split.
      * intros ->. destruct Hin as [? ?]. cbn in *. lia.
      * intros Hall. exfalso. apply (Hall c Hin Hc).
  - split.
    + intros sx sy [= <- <-] ?. lia.
    + split; [|reflexivity]. intros _ c Hin Hemp.
      apply cells_elem, list_elem_of_In in Hin.
      pose proof (List.find_none _ _ E c Hin) as Hf. cbn beta in Hf.
      apply bool_decide_eq_false in Hf. contradiction.
Qed.

(** X6 on the board of [puzzle_nw] seeded in the top-left corner: the
    search starts at the cell (1, 0). *)
Lemma find_start_is_first_empty_cell_witness :
  find_start (seed_board (load puzzle_nw) (Corner 0 0 0)) = (1, 0) ∧
  board (seed_board (load puzzle_nw) (Corner 0 0 0)) !! (1, 0) = None.
Proof.
  split; [vm_compute; reflexivity|].
  apply (proj1 (find_start_is_first_empty_cell
                  (seed_board (load puzzle_nw) (Corner 0 0 0))) 1 0).
  - vm_compute. reflexivity.
  - vm_compute. reflexivity.
Defined.

(** *** The depth of the recursion *)

(** X7: a call of [play] on a cell of the board returns, and the depth of
    its recursion is at most the number of cells from that cell to the last
    one: any bound above that number gives the same result. *)
Theorem play_depth_is_bounded fuel fuel' p x y :
  good p x y →
  (cells_left (size (gm p)) x y < fuel)%nat →
  (cells_left (size (gm p)) x y < fuel')%nat →
  is_Some (play fuel p x y) ∧ play fuel' p x y = play fuel p x y.
Proof.
  intros Hgood H1 H2.
  destruct (play_total (S (cells_left (size (gm p)) x y)) p x y Hgood) as [o Ho]; [lia|].
  set (k := S (cells_left (size (gm p)) x y)) in *.
  rewrite (play_mono k fuel p x y o ltac:(lia) Ho).
  rewrite (play_mono k fuel' p x y o ltac:(lia) Ho).
  split; [eexists; reflexivity|reflexivity].
Qed.

(** X7 on the search of [puzzle_nw] from the cell (1, 0): three cells are
    left, and the depths 4 and 9 give the same result. *)
Lemma play_depth_is_bounded_witness :
  let p := fresh (seed_board (load puzzle_nw) (Corner 0 0 0)) 0 4 in
  good p 1 0 ∧ cells_left (size (gm p)) 1 0 = 3%nat ∧
  is_Some (play 4 p 1 0) ∧ play 9 p 1 0 = play 4 p 1 0.
Proof.
  cbv zeta. split; [vm_compute; repeat split; congruence|].
  split; [reflexivity|].
  apply (play_depth_is_bounded 4 9
           (fresh (seed_board (load puzzle_nw) (Corner 0 0 0)) 0 4) 1 0).
  - vm_compute. repeat split; congruence.
  - vm_compute. lia.
  - vm_compute. lia.
Defined.

(** *** What the search leaves and what it finds *)

Lemma play_extends fuel p x y p' :
  good p x y → tiled (gm p) x y → play fuel p x y = Some (true, p') →
  extends (gm p) (gm p').
Proof.
  intros Hgood HT Hrun. pose proof (play_sound _ _ _ _ _ Hgood HT Hrun) as HT'.
  apply play_post in Hrun as [(K1 & _ & _ & K4 & K5 & K6 & K7) _]; [|exact Hgood].
  unfold extends. split; [exact K1|]. split; [exact K4|].
  split; [apply Forall_forall; intros j _; apply K5|]. split; [|exact HT'].
  intros c i Hc. destruct HT as (_ & T2 & _).
  destruct (T2 c i Hc) as (_ & Hb & _ & Hu & _).
  split; [rewrite (K6 c Hb); exact Hc|]. rewrite (K7 i); [reflexivity|discriminate|exact Hu].
Qed.

(** X8: a call of [play] that returns 0, on a board whose cells from the
    target on are empty, leaves the game as it found it: the board, the
    used flags, the colors and ids of the tiles and the rotation of every
    tile that was in use are as on entry, no message was sent and the stop
    flag is as it was.  (The rotation of a tile that is not in use may have
    changed.) *)
Theorem failed_play_leaves_the_game fuel p x y p' :
  good p x y → map_Forall (fun c _ => before c x y) (board (gm p)) →
  play fuel p x y = Some (false, p') →
  size (gm p') = size (gm p) ∧ board (gm p') = board (gm p) ∧
  length (tiles (gm p')) = length (tiles (gm p)) ∧
  sent p' = sent p ∧ global_stop p' = global_stop p ∧
  ∀ j, colors (get_tile (gm p') j) = colors (get_tile (gm p) j) ∧
       tile_ident (get_tile (gm p') j) = tile_ident (get_tile (gm p) j) ∧
       used (get_tile (gm p') j) = used (get_tile (gm p) j) ∧
       (used (get_tile (gm p) j) = true → get_tile (gm p') j = get_tile (gm p) j).
Proof.
  intros Hgood Hbef Hrun.
  pose proof (play_ident _ _ _ _ _ _ Hrun) as Hid.
  assert (Hempty : ∀ c, ¬ before c x y → board (gm p) !! c = None).
  { intros c Hc. destruct (board (gm p) !! c) as [i|] eqn:E; [|reflexivity].
    exfalso. exact (Hc (Hbef c i E)). }
  destruct (failed_play_restores _ _ _ _ _ Hgood Hempty Hrun) as [Hb Hu].
  apply play_post in Hrun as [(K1 & _ & _ & K4 & K5 & _ & K7) (_ & U2 & U3 & _)];
    [|exact Hgood].
  split; [exact K1|]. split; [exact Hb|]. split; [exact K4|].
  split; [exact U2|]. split; [exact U3|].
  intros j. split; [apply K5|]. split; [apply Hid|]. split; [apply Hu|].
  intros Hj. apply K7; [discriminate|exact Hj].
Qed.

(** X8 on [puzzle_one], which has no solution: the search from the cell
    (1, 0) returns 0 and the board holds the seeded corner alone, as
    before. *)
Lemma failed_play_leaves_the_game_witness :
  let p := fresh (seed_board (load puzzle_one) (Corner 0 0 0)) 0 1 in
  ∃ p', play 4 p 1 0 = Some (false, p') ∧ board (gm p') = board (gm p).
Proof.
  cbv zeta.
  destruct (play 4 (fresh (seed_board (load puzzle_one) (Corner 0 0 0)) 0 1) 1 0)
    as [[[|] p']|] eqn:E.
  - exfalso. vm_compute in E. discriminate.
  - exists p'. split; [reflexivity|].
    apply (failed_play_leaves_the_game 4
             (fresh (seed_board (load puzzle_one) (Corner 0 0 0)) 0 1) 1 0 p');
      [vm_compute; repeat split; congruence|by_evaluation|exact E].
  - exfalso. vm_compute in E. discriminate.
Defined.

(** X9: a call of [play] that returns 1 has completed a tiling.  When the
    cells before the target hold a partial tiling and the others are empty,
    the board it leaves is solved (every cell holds a tile that [valid_move]
    accepts there, in a rotation within 0..3, and no tile lies on two
    cells), and it extends the board it was given: the tiles that were
    placed are on their cells, in their rotations. *)
Theorem play_success_completes_a_tiling fuel p x y p' :
  good p x y → tiled (gm p) x y → play fuel p x y = Some (true, p') →
  solved (gm p') = true ∧ extends (gm p) (gm p').
Proof.
  intros Hgood HT Hrun. split.
  - apply tiled_solved. exact (play_sound _ _ _ _ _ Hgood HT Hrun).
  - exact (play_extends _ _ _ _ _ Hgood HT Hrun).
Qed.

(** X9 on [puzzle_nw], from the board seeded in the top-left corner. *)
Lemma play_success_completes_a_tiling_witness :
  let p := fresh (seed_board (load puzzle_nw) (Corner 0 0 0)) 0 4 in
  tiled (gm p) 1 0 ∧
  ∃ p', play 4 p 1 0 = Some (true, p') ∧ solved (gm p') = true.
Proof.
  cbv zeta. split; [by_evaluation|].
  destruct (play 4 (fresh (seed_board (load puzzle_nw) (Corner 0 0 0)) 0 4) 1 0)
    as [[[|] p']|] eqn:E.
  - exists p'. split; [reflexivity|].
    apply (play_success_completes_a_tiling 4
             (fresh (seed_board (load puzzle_nw) (Corner 0 0 0)) 0 4) 1 0 p');
      [vm_compute; repeat split; congruence|by_evaluation|exact E].
  - exfalso. vm_compute in E. discriminate.
  - exfalso. vm_compute in E. discriminate.
Defined.

(** X10: the search is complete.  On a partial tiling in which every used
    tile lies on the board, with no stop under way, a call of [play] returns
    1 exactly when the board has a complete tiling that extends it; when
    there is none it returns 0. *)
Theorem play_finds_a_tiling fuel p x y :
  good p x y → tiled (gm p) x y → used_placed (gm p) → quiet p →
  (cells_left (size (gm p)) x y < fuel)%nat →
  ((∃ p', play fuel p x y = Some (true, p')) ↔ ∃ g', extends (gm p) g') ∧
  ((∃ p', play fuel p x y = Some (false, p')) ↔ ∀ g', ¬ extends (gm p) g').
Proof.
  intros Hgood HT Hup Hq Hfuel.
  destruct (play_total fuel p x y Hgood Hfuel) as [[[|] p'] Hrun].
  - pose proof (play_extends _ _ _ _ _ Hgood HT Hrun) as He. split.
    + split; [intros _; exists (gm p'); exact He|intros _; exists p'; exact Hrun].
    + split; [intros [q Hq']; congruence|]. intros Hno. exfalso. exact (Hno _ He).
  - destruct (play_complete _ _ _ _ _ Hgood HT Hup Hq Hrun) as [_ Hno]. split.
    + split; [intros [q Hq']; congruence|]. intros [g' He]. exfalso. exact (Hno g' He).
    + split; [intros _; exact Hno|intros _; exists p'; exact Hrun].
Qed.

(** X10 on [puzzle_nw]: the stored tiling extends the seeded board, and the
    search returns 1. *)
Lemma play_finds_a_tiling_witness :
  let p := fresh (seed_board (load puzzle_nw) (Corner 0 0 0)) 0 4 in
  extends (gm p) tiling_nw ∧ ∃ p', play 4 p 1 0 = Some (true, p').
Proof.
  cbv zeta.
  assert (He : extends (gm (fresh (seed_board (load puzzle_nw) (Corner 0 0 0)) 0 4))
                       tiling_nw) by by_evaluation.
  split; [exact He|].
  apply (proj1 (play_finds_a_tiling 4
                  (fresh (seed_board (load puzzle_nw) (Corner 0 0 0)) 0 4) 1 0
                  ltac:(vm_compute; repeat split; congruence)
                  ltac:(by_evaluation) ltac:(by_evaluation) ltac:(by_evaluation)
                  ltac:(vm_compute; lia))).
  exists tiling_nw. exact He.
Defined.

(** *** The search of a process *)

Lemma used_seed_board g c j :
  j ≠ Z.to_nat (tile_id c) → used (get_tile (seed_board g c) j) = false.
Proof.
  intros Hj. unfold seed_board. destruct (corner_cell _ _) as [cx cy].
  rewrite get_tile_set_cell, get_tile_set_used_ne by congruence.
  rewrite used_set_rotation. unfold get_tile. cbn [tiles]. rewrite list_lookup_fmap.
  destruct (tiles g !! j); reflexivity.
Qed.

Lemma seeded_used_placed g c : used_placed (seed_board g c).
Proof.
  apply used_placed_spec. intros j _ Hu.
  destruct (decide (j = Z.to_nat (tile_id c))) as [-> | Hne].
  - exists (corner_cell (size g) (corner_type c)). rewrite board_seed_board.
    apply lookup_singleton_eq.
  - rewrite used_seed_board in Hu by exact Hne. discriminate.
Qed.

Lemma worker_nw g corners rk nprocs pr c :
  2 ≤ size g ≤ UINT_MAX → corners !! Z.to_nat rk = Some c → corner_type c = 0 →
  (Z.to_nat (tile_id c) < length (tiles g))%nat → 0 ≤ corner_rotation c ≤ 3 →
  corner_cond (with_rotation (corner_rotation c) (get_tile g (Z.to_nat (tile_id c)))) 0 = true →
  let p0 := Proc (seed_board g c) rk nprocs false false (-1) 0 pr [] in
  worker g corners rk nprocs pr = play (search_fuel (seed_board g c)) p0 1 0 ∧
  good p0 1 0 ∧ tiled (gm p0) 1 0 ∧
  (cells_left (size (gm p0)) 1 0 < search_fuel (seed_board g c))%nat.
Proof.
  intros Hsz Hc H0 Hid Hrot Hcc. cbv zeta.
  destruct (seeded_nw_tiled g c Hsz H0 Hid Hrot Hcc) as [Hstart HT].
  split; [|split; [|split]].
  - unfold worker. rewrite Hc. change (default (Corner 0 0 0) (Some c)) with c. cbv zeta.
    rewrite Hstart, size_seed_board.
    replace (0 <? size g) with true by (symmetry; apply Z.ltb_lt; lia). reflexivity.
  - unfold good, in_bounds. cbn [gm]. rewrite size_seed_board. lia.
  - exact HT.
  - cbn [gm]. unfold search_fuel, cells_left. rewrite size_seed_board. nia.
Qed.

(** The search of a process on the game that rank 0 has read. *)
Lemma setup_worker_sound b nc recs g corners rk nprocs pr c p' :
  0 < b ≤ UINT_MAX → setup b nc recs = Some (g, corners) →
  corners !! Z.to_nat rk = Some c →
  worker g corners rk nprocs pr = Some (true, p') →
  size g = b ∧ corner_type c = 0 ∧ corner_rotation c = 0 ∧
  tiled (gm p') (size (gm p')) (size (gm p')) ∧ size (gm p') = size g ∧
  length (tiles (gm p')) = length (tiles g) ∧
  board (gm p') !! (0, 0) = Some (Z.to_nat (tile_id c)) ∧
  rotation (get_tile (gm p') (Z.to_nat (tile_id c))) = 0 ∧
  ∀ j, (j < length (tiles g))%nat → tile_ident (get_tile (gm p') j) = Z.of_nat j.
Proof.
  intros Hb Hs Hc Hw.
  destruct (setup_game b nc recs g corners c Hb Hs)
    as (Hsz & Hlen & Hidx & Hct & Hid & _ & Hr & Hcc).
  { apply list_elem_of_lookup. eauto. }
  destruct (worker_sound g corners rk nprocs pr c p')
    as (H0 & HT & Hs' & Hl' & Hb0 & Hr0 & Hident);
    try assumption; [rewrite Hsz; exact Hb|rewrite Hr; lia|].
  split; [exact Hsz|]. split; [exact H0|]. split; [exact Hr|]. split; [exact HT|].
  split; [exact Hs'|]. split; [exact Hl'|]. split; [exact Hb0|].
  split; [congruence|]. intros j Hj. rewrite Hident. apply Hidx, Hj.
Qed.

(** X11: a process reports a solution only for a tiling.  When the search
    of an active process returns 1, the board has at least two rows, the
    corner of the process is of the top-left type, and the board that the
    process holds is solved, with its corner tile unturned on the cell
    (0, 0). *)
Theorem reported_solution_is_a_tiling b nc recs g corners rk nprocs pr p' :
  0 < b ≤ UINT_MAX → setup b nc recs = Some (g, corners) →
  is_Some (corners !! Z.to_nat rk) →
  worker g corners rk nprocs pr = Some (true, p') →
  2 ≤ b ∧ solved (gm p') = true ∧
  ∃ c, corners !! Z.to_nat rk = Some c ∧ corner_type c = 0 ∧
       board (gm p') !! (0, 0) = Some (Z.to_nat (tile_id c)) ∧
       rotation (get_tile (gm p') (Z.to_nat (tile_id c))) = 0.
Proof.
  intros Hb Hs [c Hc] Hw.
  destruct (setup_worker_sound _ _ _ _ _ _ _ _ _ _ Hb Hs Hc Hw)
    as (Hsz & H0 & _ & HT & _ & _ & Hb0 & Hr0 & _).
  split.
  { destruct (Z.eq_dec b 1) as [-> | Hne]; [|lia].
    rewrite worker_one_cell in Hw by exact Hsz. discriminate. }
  split; [apply tiled_solved; exact HT|].
  exists c. split; [exact Hc|]. split; [exact H0|]. split; [exact Hb0|exact Hr0].
Qed.

(** X11 on [puzzle_nw], process 0 of 4. *)
Lemma reported_solution_is_a_tiling_witness :
  setup 2 5 puzzle_nw = Some (load puzzle_nw, corners_nw) ∧
  ∃ p', worker (load puzzle_nw) corners_nw 0 4 [] = Some (true, p') ∧
        solved (gm p') = true.
Proof.
  split; [reflexivity|].
  destruct (worker (load puzzle_nw) corners_nw 0 4 []) as [[[|] p']|] eqn:E.
  - exists p'. split; [reflexivity|].
    apply (reported_solution_is_a_tiling 2 5 puzzle_nw (load puzzle_nw) corners_nw 0 4 [] p');
      [vm_compute; split; congruence|reflexivity|eexists; reflexivity|exact E].
  - exfalso. vm_compute in E. discriminate.
  - exfalso. vm_compute in E. discriminate.
Defined.



(** *** Printing the solution *)

Lemma lookup_rows (xs ys : list Z) (j i : nat) cx cy :
  ys !! j = Some cy → xs !! i = Some cx →
  (cy ← ys; (fun cx => (cx, cy)) <$> xs) !! (j * length xs + i)%nat = Some (cx, cy).
Proof.
  revert j. induction ys as [|y ys IH]; intros j Hj Hi; [discriminate|].
  change (((fun cx => (cx, y)) <$> xs) ++ (cy ← ys; (fun cx => (cx, cy)) <$> xs))
    with (y :: ys ≫= fun cy => (fun cx => (cx, cy)) <$> xs).
  change (((((fun cx => (cx, y)) <$> xs) ++ (cy ← ys; (fun cx => (cx, cy)) <$> xs))
           !! (j * length xs + i)%nat) = Some (cx, cy)).
  destruct j as [|j].
  - injection Hj as ->. rewrite lookup_app_l
      by (rewrite length_fmap; apply lookup_lt_Some in Hi; simpl; lia).
    simpl. rewrite list_lookup_fmap, Hi. reflexivity.
  - rewrite lookup_app_r by (rewrite length_fmap; simpl; lia).
    rewrite length_fmap. replace (S j * length xs + i - length xs)%nat
      with (j * length xs + i)%nat by (simpl; lia).
    apply IH; assumption.
Qed.

Lemma lookup_cells sz x y :
  0 ≤ x < sz → 0 ≤ y < sz → cells sz !! Z.to_nat (y * sz + x) = Some (x, y).
Proof.
  intros Hx Hy. unfold cells.
  replace (Z.to_nat (y * sz + x))
    with (Z.to_nat y * length (seqZ 0 sz) + Z.to_nat x)%nat
    by (rewrite length_seqZ; nia).
  apply lookup_rows; rewrite lookup_seqZ_lt by lia; f_equal; lia.
Qed.

(** X13: [print_solution] reads every cell of the board, so it has a result
    exactly when no cell is empty; it then prints [size * size] lines, the
    line [y * size + x] with the id and the rotation of the tile on the cell
    [(x, y)]: the rows from top to bottom, each row from left to right. *)
Theorem print_solution_needs_a_full_board g :
  (is_Some (print_solution g) ↔ ∀ x y, in_bounds g x y → is_Some (board g !! (x, y))) ∧
  ∀ lines, print_solution g = Some lines →
    length lines = (Z.to_nat (size g) * Z.to_nat (size g))%nat ∧
    ∀ x y, in_bounds g x y →
      ∃ i, board g !! (x, y) = Some i ∧
           lines !! Z.to_nat (y * size g + x)
           = Some (tile_ident (get_tile g i), rotation (get_tile g i)).
Proof.
  unfold print_solution.
  set (f := fun c => i ← board g !! c;
                     Some (tile_ident (get_tile g i), rotation (get_tile g i))).
  split.
  - rewrite mapM_is_Some, Forall_forall. split.
    + intros H x y Hin. destruct (H (x, y)) as [ln Hln]; [apply cells_elem; exact Hin|].
      unfold f, compose in Hln. destruct (board g !! (x, y)); [eexists; reflexivity|discriminate].
    + intros H [x y] Hc. apply cells_elem in Hc. destruct (H x y Hc) as [i Hi].
      unfold f, compose. rewrite Hi. eexists; reflexivity.
  - intros lines Hl. apply mapM_Some_1 in Hl. split.
    + rewrite <- (Forall2_length _ _ _ Hl). apply length_cells.
    + intros x y [Hx Hy].
      destruct (Forall2_lookup_l _ _ _ _ _ Hl (lookup_cells (size g) x y Hx Hy))
        as (ln & Hln & Hf).
      unfold f in Hf. destruct (board g !! (x, y)) as [i|]; [|discriminate].
      injection Hf as <-. exists i. split; [reflexivity|exact Hln].
Qed.

(** X13 on the stored tiling of [puzzle_nw]: four lines, the third for the
    cell (0, 1). *)
Lemma print_solution_needs_a_full_board_witness :
  print_solution tiling_nw = Some [(0, 0); (1, 0); (2, 0); (3, 0)] ∧
  ∃ i, board tiling_nw !! (0, 1) = Some i ∧
       [(0, 0); (1, 0); (2, 0); (3, 0)] !! Z.to_nat (1 * size tiling_nw + 0)
       = Some (tile_ident (get_tile tiling_nw i), rotation (get_tile tiling_nw i)).
Proof.
  split; [vm_compute; reflexivity|].
  apply (proj2 (print_solution_needs_a_full_board tiling_nw)
           [(0, 0); (1, 0); (2, 0); (3, 0)]).
  - vm_compute. reflexivity.
  - vm_compute. repeat split; congruence.
Defined.

(** X14: the board that a process prints lists every tile once.  After a
    search that returned 1, [print_solution] has a result: [bsize * bsize]
    lines, no id on two lines, every id that of a tile of the puzzle and
    every rotation within 0..3. *)
Theorem printed_solution_lists_every_tile b nc recs g corners rk nprocs pr p' :
  0 < b ≤ UINT_MAX → setup b nc recs = Some (g, corners) →
  is_Some (corners !! Z.to_nat rk) →
  worker g corners rk nprocs pr = Some (true, p') →
  ∃ lines, print_solution (gm p') = Some lines ∧
           length lines = Z.to_nat (b * b) ∧
           NoDup (fst <$> lines) ∧
           Forall (fun ln => 0 ≤ ln.1 < tile_count g ∧ 0 ≤ ln.2 ≤ 3) lines.
Proof.
  intros Hb Hs [c Hc] Hw.
  destruct (setup_worker_sound _ _ _ _ _ _ _ _ _ _ Hb Hs Hc Hw)
    as (Hsz & _ & _ & HT & Hs' & Hl' & _ & _ & Hident).
  destruct (print_solution_full (gm p') HT) as (lines & Hp & Hlines & Hall).
  exists lines. split; [exact Hp|]. split; [rewrite Hlines, Hs', Hsz; nia|].
  pose proof HT as (_ & T2 & T3).
  assert (Hline : ∀ k ln, lines !! k = Some ln →
            ∃ cl i, cells (size (gm p')) !! k = Some cl ∧ board (gm p') !! cl = Some i ∧
                    (i < length (tiles g))%nat ∧ ln.1 = Z.of_nat i ∧ 0 ≤ ln.2 ≤ 3).
  { intros k ln Hk. destruct (Forall2_lookup_r _ _ _ _ _ Hall Hk) as (cl & Hcl & i & Hi & ->).
    destruct (T2 cl i Hi) as (_ & _ & A3 & _ & A6 & _). rewrite Hl' in A3.
    exists cl, i. split; [exact Hcl|]. split; [exact Hi|]. split; [exact A3|].
    cbn [fst snd]. split; [apply Hident; exact A3|exact A6]. }
  split.
  - apply NoDup_alt. intros k1 k2 z H1 H2. rewrite list_lookup_fmap in H1, H2.
    destruct (lines !! k1) as [ln1|] eqn:E1; [|discriminate].
    destruct (lines !! k2) as [ln2|] eqn:E2; [|discriminate].
    injection H1 as H1. injection H2 as H2.
    destruct (Hline k1 ln1 E1) as (c1 & i1 & Hc1 & Hi1 & _ & Hz1 & _).
    destruct (Hline k2 ln2 E2) as (c2 & i2 & Hc2 & Hi2 & _ & Hz2 & _).
    assert (i1 = i2) as -> by lia.
    assert (c1 = c2) as -> by exact (T3 c1 i2 Hi1 c2 i2 Hi2 eq_refl).
    exact (proj1 (NoDup_alt _) (cells_NoDup _) k1 k2 c2 Hc1 Hc2).
  - apply Forall_forall. intros ln Hln. apply list_elem_of_lookup in Hln as [k Hk].
    destruct (Hline k ln Hk) as (_ & i & _ & _ & Hi & Hz & Hrot).
    unfold tile_count. split; [lia|exact Hrot].
Qed.

(** X14 on [puzzle_nw], process 0 of 4: the four tiles, unturned, in the
    order of their ids. *)
Lemma printed_solution_lists_every_tile_witness :
  ∃ p', worker (load puzzle_nw) corners_nw 0 4 [] = Some (true, p') ∧
        print_solution (gm p') = Some [(0, 0); (1, 0); (2, 0); (3, 0)] ∧
        ∃ lines, print_solution (gm p') = Some lines ∧ NoDup (fst <$> lines).
Proof.
  destruct (worker (load puzzle_nw) corners_nw 0 4 []) as [[[|] p']|] eqn:E.
  - exists p'. split; [reflexivity|]. split.
    + vm_compute in E. injection E as <-. vm_compute. reflexivity.
    + destruct (printed_solution_lists_every_tile 2 5 puzzle_nw (load puzzle_nw)
                  corners_nw 0 4 [] p') as (lines & H1 & _ & H3 & _);
        [vm_compute; split; congruence|reflexivity|eexists; reflexivity|exact E|].
      exists lines. split; assumption.
  - exfalso. vm_compute in E. discriminate.
  - exfalso. vm_compute in E. discriminate.
Defined.

(** *** The exit status of a run *)

(** X15: when every process is active (no more processes than corner
    tiles), all processes return the same exit status: 0 when the search of
    some process returned 1, and that process then holds a solved board;
    1 when every search returned 0. *)
Theorem active_processes_agree_on_exit b nc recs g corners nprocs pr :
  0 < b ≤ UINT_MAX → setup b nc recs = Some (g, corners) →
  0 < nprocs ≤ Z.of_nat (length corners) →
  ∃ s, (∀ rk, 0 ≤ rk < nprocs → run_exit b nc recs nprocs pr rk = Some s) ∧
       ((s = 0 ∧ ∃ rk p', 0 ≤ rk < nprocs ∧
                          worker g corners rk nprocs (pr rk) = Some (true, p') ∧
                          solved (gm p') = true) ∨
        (s = 1 ∧ ∀ rk, 0 ≤ rk < nprocs →
                       fst <$> worker g corners rk nprocs (pr rk) = Some false)).
Proof.
  intros Hb Hs Hn.
  destruct (run_exit_all_active b nc recs g corners nprocs pr Hb Hs Hn)
    as (locals & _ & Hexit & Hfwd & Hbwd).
  exists (if global_result locals =? 0 then 1 else 0). split; [exact Hexit|].
  destruct (Z.eqb_spec (global_result locals) 0) as [Hz | Hnz].
  - right. split; [reflexivity|]. intros rk Hrk.
    destruct (Hfwd rk Hrk) as ([|] & Hl & Hw); [|exact Hw].
    exfalso. exact (global_result_pos locals _ Hl Hz).
  - left. split; [reflexivity|].
    destruct (some_true_or_none locals) as [[r Hr] | Hnone].
    2:{ exfalso. exact (Hnz (global_result_zero locals Hnone)). }
    destruct (Hbwd r true Hr) as [Hrk Hw].
    destruct (worker g corners (Z.of_nat r) nprocs (pr (Z.of_nat r)))
      as [[[|] p']|] eqn:E; try discriminate.
    exists (Z.of_nat r), p'. split; [exact Hrk|]. split; [exact E|].
    destruct (lookup_lt_is_Some_2 corners (Z.to_nat (Z.of_nat r)) ltac:(lia)) as [c Hc].
    destruct (setup_worker_sound _ _ _ _ _ _ _ _ _ _ Hb Hs Hc E) as (_ & _ & _ & HT & _).
    apply tiled_solved. exact HT.
Qed.

(** X15 on [puzzle_nw] with four processes: every process exits with
    status 0, as the search of process 0 succeeds. *)
Lemma active_processes_agree_on_exit_witness :
  setup 2 5 puzzle_nw = Some (load puzzle_nw, corners_nw) ∧
  ∃ s, (∀ rk, 0 ≤ rk < 4 → run_exit 2 5 puzzle_nw 4 (fun _ => []) rk = Some s) ∧
       run_exit 2 5 puzzle_nw 4 (fun _ => []) 3 = Some 0.
Proof.
  split; [reflexivity|].
  destruct (active_processes_agree_on_exit 2 5 puzzle_nw (load puzzle_nw) corners_nw 4
              (fun _ => [])) as (s & Hs & _);
    [vm_compute; split; congruence|reflexivity|vm_compute; split; congruence|].
  exists s. split; [exact Hs|]. vm_compute. reflexivity.
Defined.

(** X16: without a corner tile nothing is searched.  When no tile of the
    input has two adjacent border-colored sides, the corner list is empty
    and every process returns the exit status 1, whatever the number of
    processes. *)
Theorem no_corner_tile_exits_1 b nc recs g nprocs pr rk :
  initialize b nc recs = Some g →
  (∀ i, (i < length (tiles g))%nat → ¬ adjacent_border (get_tile g i)) →
  setup b nc recs = Some (g, []) ∧ run_exit b nc recs nprocs pr rk = Some 1.
Proof.
  intros Hini Hno.
  assert (Hs : setup b nc recs = Some (g, [])).
  { unfold setup. rewrite Hini. cbn [fmap option_fmap option_map].
    unfold separar_pecas_de_quina. rewrite (map_ext _ id) by apply separar_step_fst.
    rewrite map_id. f_equal. f_equal; [destruct g; reflexivity|].
    destruct (initialize_shape _ _ _ _ Hini) as (_ & _ & _ & Hti).
    destruct (omap _ (tiles g)) as [|c cs] eqn:E; [reflexivity|]. exfalso.
    assert (Hc : c ∈ omap (fun t => snd (separar_step t)) (tiles g)) by (rewrite E; left).
    apply list_elem_of_omap in Hc as (t & Ht & Hc).
    apply list_elem_of_lookup in Ht as [i Ht].
    apply (Hno i); [apply lookup_lt_Some in Ht; exact Ht|].
    unfold get_tile. rewrite Ht. change (default null_tile (Some t)) with t.
    destruct (Hti i t Ht) as (Hr & _).
    rewrite <- (with_rotation_own t), Hr. apply separar_step_is_Some. eauto. }
  split; [exact Hs|].
  unfold run_exit. rewrite Hs. cbn [mbind option_bind].
  unfold local_solutions. cbn [length].
  replace (seqZ 0 (effective_processes nprocs (Z.of_nat 0))) with (@nil Z).
  - reflexivity.
  - symmetry. apply seqZ_nil. unfold effective_processes.
    destruct (Z.ltb_spec nprocs (Z.of_nat 0)); lia.
Qed.

(** X16 on [puzzle_plain] with three processes. *)
Lemma no_corner_tile_exits_1_witness :
  initialize 2 5 puzzle_plain = Some (load puzzle_plain) ∧
  run_exit 2 5 puzzle_plain 3 (fun _ => []) 2 = Some 1.
Proof.
  split; [reflexivity|].
  apply (no_corner_tile_exits_1 2 5 puzzle_plain (load puzzle_plain) 3 (fun _ => []) 2 eq_refl).
  intros i Hi Ha. apply adjacent_border_iff in Ha as (k & Hk & Hc).
  destruct i as [|[|[|[|i]]]]; [| | | |vm_compute in Hi; lia];
    destruct (small_cases k Hk) as [-> | [-> | [-> | ->]]]; vm_compute in Hc; discriminate.
Defined.

(** X17: a puzzle of one cell is never solved.  The one tile, when it is a
    corner tile, is seeded on the only cell, the start scan finds no empty
    cell and [play] is not called; a run with one process returns the exit
    status 1 on every input of dimension 1. *)
Theorem one_cell_board_is_never_searched nc recs pr :
  is_Some (initialize 1 nc recs) → run_exit 1 nc recs 1 pr 0 = Some 1.
Proof.
  intros [g Hini].
  destruct (setup 1 nc recs) as [[g' corners]|] eqn:Hs.
  2:{ unfold setup in Hs. rewrite Hini in Hs. discriminate. }
  destruct (setup_Some _ _ _ _ _ Hs) as [Hini' Hc].
  destruct (initialize_shape _ _ _ _ Hini') as (Hsz & _ & Hlen & _).
  assert (Hcl : (length corners ≤ 1)%nat).
  { rewrite Hc. change (Z.to_nat (u32 (1 * 1))) with 1%nat in Hlen. revert Hlen.
    destruct (tiles g') as [|t [|t' l]]; cbn [length]; try lia; intros _.
    cbn [omap list_omap]. destruct (snd (separar_step t)); simpl; lia. }
  destruct corners as [|c [|c' cs]]; [| |simpl in Hcl; lia].
  - unfold run_exit. rewrite Hs. reflexivity.
  - destruct (run_exit_all_active 1 nc recs g' [c] 1 pr) as (locals & _ & Hexit & _ & Hbwd);
      [vm_compute; split; congruence|exact Hs|simpl; lia|].
    rewrite (Hexit 0) by lia.
    rewrite global_result_zero; [reflexivity|].
    intros r Hr. destruct (Hbwd r true Hr) as [_ Hw].
    rewrite worker_one_cell in Hw by exact Hsz. discriminate.
Qed.

(** X17 on the tile whose four sides are border-colored, which would fit
    the only cell. *)
Lemma one_cell_board_is_never_searched_witness :
  is_Some (initialize 1 5 [(0, 0, 0, 0)]) ∧
  run_exit 1 5 [(0, 0, 0, 0)] 1 (fun _ => []) 0 = Some 1.
Proof.
  assert (H : is_Some (initialize 1 5 [(0, 0, 0, 0)])) by (eexists; reflexivity).
  split; [exact H|].
  exact (one_cell_board_is_never_searched 5 [(0, 0, 0, 0)] (fun _ => []) H).
Defined.

(** X18: only a corner of the top-left type leads to a solution.  When none
    of the corners that the processes take (the first [nprocs] of the list)
    is of type 0, that is, stored with its border sides to the North and
    West, every search returns 0 and every process returns the exit
    status 1. *)
Theorem search_needs_a_top_left_corner b nc recs g corners nprocs pr :
  0 < b ≤ UINT_MAX → setup b nc recs = Some (g, corners) →
  0 < nprocs ≤ Z.of_nat (length corners) →
  (∀ (k : nat) c, Z.of_nat k < nprocs → corners !! k = Some c → corner_type c ≠ 0) →
  ∀ rk, 0 ≤ rk < nprocs →
    fst <$> worker g corners rk nprocs (pr rk) = Some false ∧
    run_exit b nc recs nprocs pr rk = Some 1.
Proof.
  intros Hb Hs Hn Hnot rk Hrk.
  destruct (run_exit_all_active b nc recs g corners nprocs pr Hb Hs Hn)
    as (locals & _ & Hexit & Hfwd & Hbwd).
  assert (Hfail : ∀ r, 0 ≤ r < nprocs →
                       fst <$> worker g corners r nprocs (pr r) = Some false).
  { intros r Hr. destruct (Hfwd r Hr) as ([|] & _ & Hw); [|exact Hw]. exfalso.
    destruct (worker g corners r nprocs (pr r)) as [[[|] p']|] eqn:E; try discriminate.
    destruct (lookup_lt_is_Some_2 corners (Z.to_nat r) ltac:(lia)) as [c Hc].
    destruct (setup_worker_sound _ _ _ _ _ _ _ _ _ _ Hb Hs Hc E) as (_ & H0 & _).
    apply (Hnot (Z.to_nat r) c); [lia|exact Hc|exact H0]. }
  split; [apply Hfail; exact Hrk|].
  rewrite (Hexit rk Hrk). rewrite global_result_zero; [reflexivity|].
  intros r Hr. destruct (Hbwd r true Hr) as [Hr' Hw].
  rewrite (Hfail _ Hr') in Hw. discriminate.
Qed.

(** X18 on [puzzle_ne] with four processes: every tile is stored as a
    top-right corner. *)
Lemma search_needs_a_top_left_corner_witness :
  setup 2 5 puzzle_ne
    = Some (load puzzle_ne, [Corner 0 0 1; Corner 1 0 1; Corner 2 0 1; Corner 3 0 1]) ∧
  run_exit 2 5 puzzle_ne 4 (fun _ => []) 2 = Some 1.
Proof.
  split; [reflexivity|].
  apply (search_needs_a_top_left_corner 2 5 puzzle_ne (load puzzle_ne)
           [Corner 0 0 1; Corner 1 0 1; Corner 2 0 1; Corner 3 0 1] 4 (fun _ => []));
    [vm_compute; split; congruence|reflexivity|vm_compute; split; congruence| |lia].
  intros k c _ Hc. destruct k as [|[|[|[|k]]]]; try discriminate;
    injection Hc as <-; discriminate.
Defined.

(** *** Stop messages *)

(** X19: a stop message that was taken ends the search.  The flag
    [global_solution_found] is never cleared, and a call of [play] that
    returns 1 leaves it clear: once the flag is set, by a message taken in
    this call or before it, the call returns 0. *)
Theorem stop_message_ends_search fuel p x y r p' :
  good p x y → play fuel p x y = Some (r, p') →
  (global_solution_found p = true → global_solution_found p' = true) ∧
  (global_solution_found p' = true → r = false).
Proof.
  intros Hgood Hrun. destruct (play_found _ _ _ _ _ _ Hgood Hrun) as [F1 F2].
  split; [exact F1|]. intros Hf. destruct r; [|reflexivity].
  rewrite (F2 eq_refl) in Hf. discriminate.
Qed.

(** X19 on a process that takes the message of process 3 in its 1000th
    call: the search of [puzzle_nw], which would succeed, returns 0. *)
Lemma stop_message_ends_search_witness :
  ∃ p', play 4 about_to_probe 1 0 = Some (false, p') ∧
        global_solution_found p' = true ∧ solution_owner p' = 3 ∧
        (global_solution_found p' = true → false = false).
Proof.
  destruct (play 4 about_to_probe 1 0) as [[r p']|] eqn:E.
  - pose proof (stop_message_ends_search 4 about_to_probe 1 0 r p'
                  ltac:(vm_compute; repeat split; congruence) E) as [_ H].
    vm_compute in E. injection E as <- <-. eexists. split; [reflexivity|].
    split; [reflexivity|]. split; [reflexivity|]. exact H.
  - exfalso. vm_compute in E. discriminate.
Defined.



(** *** Seeding and the division of the work *)

(** X21: [main] prints the board of a process only when it is solved.  When
    every process is active, a process for which the print condition
    [local_solution && rank == winner_rank] holds has a search that returned
    1, its board is solved and [print_solution] has a result on it: no empty
    cell is dereferenced. *)
Theorem print_solution_is_called_on_a_solved_board b nc recs g corners nprocs pr locals rk :
  0 < b ≤ UINT_MAX → setup b nc recs = Some (g, corners) →
  0 < nprocs ≤ Z.of_nat (length corners) →
  mapM id (local_solutions g corners nprocs pr) = Some locals →
  prints_solution locals rk = true →
  ∃ p', worker g corners (Z.of_nat rk) nprocs (pr (Z.of_nat rk)) = Some (true, p') ∧
        solved (gm p') = true ∧ is_Some (print_solution (gm p')).
Proof.
  intros Hb Hs Hn Hl Hp.
  assert (Hr : locals !! rk = Some true).
  { unfold prints_solution in Hp. apply andb_true_iff in Hp as [Hp _].
    destruct (locals !! rk) as [[|]|]; [reflexivity|discriminate|discriminate]. }
  destruct (local_solutions_length _ _ _ _ _ Hl rk true Hr) as [Hrk Hw].
  assert (Heff : effective_processes nprocs (Z.of_nat (length corners)) = nprocs).
  { unfold effective_processes. destruct (Z.ltb_spec nprocs (Z.of_nat (length corners))); lia. }
  rewrite Heff in Hrk.
  destruct (worker g corners (Z.of_nat rk) nprocs (pr (Z.of_nat rk)))
    as [[[|] p']|] eqn:E; try discriminate.
  destruct (lookup_lt_is_Some_2 corners (Z.to_nat (Z.of_nat rk)) ltac:(lia)) as [c Hc].
  destruct (setup_worker_sound _ _ _ _ _ _ _ _ _ _ Hb Hs Hc E) as (_ & _ & _ & HT & _).
  exists p'. split; [reflexivity|]. split; [apply tiled_solved; exact HT|].
  destruct (print_solution_full (gm p') HT) as (lines & Hlines & _). eauto.
Qed.

(** X21 on [puzzle_nw] with four processes: process 0 prints. *)
Lemma print_solution_is_called_on_a_solved_board_witness :
  mapM id (local_solutions (load puzzle_nw) corners_nw 4 (fun _ => []))
    = Some [true; false; false; false] ∧
  prints_solution [true; false; false; false] 0 = true ∧
  ∃ p', worker (load puzzle_nw) corners_nw 0 4 [] = Some (true, p') ∧
        solved (gm p') = true ∧ is_Some (print_solution (gm p')).
Proof.
  assert (Hl : mapM id (local_solutions (load puzzle_nw) corners_nw 4 (fun _ => []))
               = Some [true; false; false; false]) by (vm_compute; reflexivity).
  split; [exact Hl|]. split; [vm_compute; reflexivity|].
  apply (print_solution_is_called_on_a_solved_board 2 5 puzzle_nw (load puzzle_nw)
           corners_nw 4 (fun _ => []) [true; false; false; false] 0%nat);
    [vm_compute; split; congruence|reflexivity|vm_compute; split; congruence|exact Hl|
     vm_compute; reflexivity].
Defined.

(** X22: the seeding of [main] starts every process from the same state but
    for its corner: the board is emptied and holds the corner tile alone, on
    the corner cell of its type; the corner tile is the only tile marked
    used and has the rotation of the corner entry; the other tiles keep
    their rotation, and no tile changes its colors or its id. *)
Theorem seed_board_places_the_corner_alone g c :
  (Z.to_nat (tile_id c) < length (tiles g))%nat →
  size (seed_board g c) = size g ∧
  length (tiles (seed_board g c)) = length (tiles g) ∧
  board (seed_board g c)
    = {[ corner_cell (size g) (corner_type c) := Z.to_nat (tile_id c) ]} ∧
  (0 < size g ≤ UINT_MAX →
   ∃ cx cy, corner_cell (size g) (corner_type c) = (cx, cy) ∧
            (cx = 0 ∨ cx = size g - 1) ∧ (cy = 0 ∨ cy = size g - 1)) ∧
  (∀ j, used (get_tile (seed_board g c) j) = bool_decide (j = Z.to_nat (tile_id c))) ∧
  rotation (get_tile (seed_board g c) (Z.to_nat (tile_id c))) = corner_rotation c ∧
  (∀ j, j ≠ Z.to_nat (tile_id c) →
        rotation (get_tile (seed_board g c) j) = rotation (get_tile g j)) ∧
  (∀ j, colors (get_tile (seed_board g c) j) = colors (get_tile g j) ∧
        tile_ident (get_tile (seed_board g c) j) = tile_ident (get_tile g j)).
Proof.
  intros Hi. split; [apply size_seed_board|]. split; [apply length_seed_board|].
  split; [apply board_seed_board|]. split; [|split; [|split; [|split]]].
  - intros Hsz. unfold corner_cell. rewrite (u32_small (size g - 1)) by lia.
    destruct (corner_type c =? 0); [eexists _, _; split; [reflexivity|]; lia|].
    destruct (corner_type c =? 1); [eexists _, _; split; [reflexivity|]; lia|].
    destruct (corner_type c =? 2); [eexists _, _; split; [reflexivity|]; lia|].
    destruct (corner_type c =? 3); eexists _, _; (split; [reflexivity|]); lia.
  - intros j. destruct (decide (j = Z.to_nat (tile_id c))) as [-> | Hne].
    + rewrite bool_decide_eq_true_2 by reflexivity.
      rewrite get_tile_seed_board by exact Hi. reflexivity.
    + rewrite bool_decide_eq_false_2 by exact Hne. apply used_seed_board. exact Hne.
  - rewrite get_tile_seed_board by exact Hi. reflexivity.
  - intros j Hne. unfold seed_board. destruct (corner_cell _ _) as [cx cy].
    rewrite get_tile_set_cell, get_tile_set_used_ne, get_tile_set_rotation_ne by congruence.
    unfold get_tile. cbn [tiles]. rewrite list_lookup_fmap.
    destruct (tiles g !! j); reflexivity.
  - intros j. split; [|apply ident_seed_board].
    unfold seed_board. destruct (corner_cell _ _) as [cx cy].
    rewrite get_tile_set_cell, colors_set_used, colors_set_rotation.
    unfold get_tile. cbn [tiles]. rewrite list_lookup_fmap.
    destruct (tiles g !! j); reflexivity.
Qed.

(** X22 on the state that the process seeded with tile 1 of [puzzle_dup]
    has reached in its search: seeding it anew with tile 3 in the
    bottom-right corner leaves that tile alone on the board. *)
Lemma seed_board_places_the_corner_alone_witness :
  board (gm dup_at_corner) = {[ (0, 0) := 0%nat; (1, 0) := 1%nat ]} ∧
  board (seed_board (gm dup_at_corner) (Corner 3 0 3)) = {[ (1, 1) := 3%nat ]} ∧
  used <$> tiles (seed_board (gm dup_at_corner) (Corner 3 0 3))
    = [false; false; false; true].
Proof.
  split; [vm_compute; reflexivity|]. split; [|vm_compute; reflexivity].
  apply (seed_board_places_the_corner_alone (gm dup_at_corner) (Corner 3 0 3)).
  vm_compute. lia.
Defined.

(** X23: the active processes work on different tiles.  The number of
    active processes is the smaller of the number of processes and the
    number of corner tiles; the active process of rank [rk] takes the entry
    [rk] of the corner list, and two active processes take entries for
    different tiles. *)
Theorem active_processes_take_different_tiles b nc recs g corners nprocs rk1 rk2 :
  setup b nc recs = Some (g, corners) →
  0 ≤ rk1 → 0 ≤ rk2 → rk1 ≠ rk2 →
  active rk1 nprocs (Z.of_nat (length corners)) = true →
  active rk2 nprocs (Z.of_nat (length corners)) = true →
  rk1 < nprocs ∧ rk2 < nprocs ∧
  ∃ c1 c2, corners !! Z.to_nat rk1 = Some c1 ∧ corners !! Z.to_nat rk2 = Some c2 ∧
           tile_id c1 ≠ tile_id c2.
Proof.
  intros Hs H1 H2 Hne A1 A2. unfold active, effective_processes in A1, A2.
  apply Z.ltb_lt in A1, A2.
  assert (Hlt : rk1 < nprocs ∧ rk2 < nprocs ∧ rk1 < Z.of_nat (length corners) ∧
                rk2 < Z.of_nat (length corners)).
  { destruct (Z.ltb_spec nprocs (Z.of_nat (length corners))); lia. }
  destruct Hlt as (L1 & L2 & L3 & L4). split; [exact L1|]. split; [exact L2|].
  destruct (lookup_lt_is_Some_2 corners (Z.to_nat rk1) ltac:(lia)) as [c1 Hc1].
  destruct (lookup_lt_is_Some_2 corners (Z.to_nat rk2) ltac:(lia)) as [c2 Hc2].
  exists c1, c2. split; [exact Hc1|]. split; [exact Hc2|].
  destruct (setup_Some _ _ _ _ _ Hs) as [Hini Hc].
  destruct (initialize_shape _ _ _ _ Hini) as (_ & _ & _ & Hti).
  destruct (corners_sorted (tiles g) 0) as [Hsort _].
  { intros i t Ht. destruct (Hti i t Ht) as (_ & Hid & _). lia. }
  rewrite <- Hc in Hsort.
  assert (Hnd : NoDup (tile_id <$> corners)).
  { apply (sorted_NoDup Z.lt); [intros a; lia|exact Hsort]. }
  intros Heq. apply Hne.
  assert (Z.to_nat rk1 = Z.to_nat rk2); [|lia].
  apply (proj1 (NoDup_alt _) Hnd _ _ (tile_id c1)); rewrite list_lookup_fmap.
  - rewrite Hc1. reflexivity.
  - rewrite Hc2, Heq. reflexivity.
Qed.

(** X23 on [puzzle_nw] with two processes: the processes 0 and 1 take the
    tiles 0 and 1. *)
Lemma active_processes_take_different_tiles_witness :
  setup 2 5 puzzle_nw = Some (load puzzle_nw, corners_nw) ∧
  active 0 2 4 = true ∧ active 1 2 4 = true ∧ active 2 2 4 = false ∧
  ∃ c1 c2, corners_nw !! Z.to_nat 0 = Some c1 ∧ corners_nw !! Z.to_nat 1 = Some c2 ∧
           tile_id c1 ≠ tile_id c2.
Proof.
  split; [reflexivity|]. split; [reflexivity|]. split; [reflexivity|].
  split; [reflexivity|].
  apply (active_processes_take_different_tiles 2 5 puzzle_nw (load puzzle_nw) corners_nw 2 0 1);
    [reflexivity|lia|lia|lia|reflexivity|reflexivity].
Defined.



(** *** Which tiling the search finds *)

(** X25: of the tilings that complete the board, [play] finds the first.  On
    a partial tiling in which every used tile lies on the board, with no
    stop under way, the board that a call returning 1 leaves is a complete
    tiling that extends the board on entry, and it comes first among all of
    them: compared with any other, the two hold the same tiles in the same
    rotations, or on the first cell of the scan (rows top to bottom, each
    left to right) where they differ, the board that [play] leaves holds the
    tile of smaller index, or the same tile in a smaller rotation. *)
Theorem play_finds_the_first_tiling fuel p x y p' :
  good p x y → tiled (gm p) x y → used_placed (gm p) → quiet p →
  play fuel p x y = Some (true, p') →
  extends (gm p) (gm p') ∧ ∀ g', extends (gm p) g' → comes_first (gm p') g'.
Proof.
  intros Hgood HT Hup Hq Hrun. split.
  - exact (play_extends _ _ _ _ _ Hgood HT Hrun).
  - exact (play_first _ _ _ _ _ Hgood HT Hup Hq Hrun).
Qed.

(** X25 on [puzzle_alike], seeded with tile 0: [tiling_alike] completes the
    seeded board with tile 2 on the cell (1, 0); the search leaves tile 1
    there, and its board comes first. *)
Lemma play_finds_the_first_tiling_witness :
  let p := fresh (seed_board (load puzzle_alike) (Corner 0 0 0)) 0 4 in
  extends (gm p) tiling_alike ∧ placed tiling_alike (1, 0) = Some (2%nat, 1) ∧
  ∃ p', play 4 p 1 0 = Some (true, p') ∧ placed (gm p') (1, 0) = Some (1%nat, 1) ∧
        comes_first (gm p') tiling_alike.
Proof.
  cbv zeta.
  assert (He : extends (gm (fresh (seed_board (load puzzle_alike) (Corner 0 0 0)) 0 4))
                       tiling_alike) by by_evaluation.
  split; [exact He|]. split; [vm_compute; reflexivity|].
  destruct (play 4 (fresh (seed_board (load puzzle_alike) (Corner 0 0 0)) 0 4) 1 0)
    as [[[|] p']|] eqn:E.
  - exists p'. split; [reflexivity|]. split.
    + vm_compute in E. injection E as <-. vm_compute. reflexivity.
    + apply (proj2 (play_finds_the_first_tiling 4
                      (fresh (seed_board (load puzzle_alike) (Corner 0 0 0)) 0 4) 1 0 p'
                      ltac:(vm_compute; repeat split; congruence)
                      ltac:(by_evaluation) ltac:(by_evaluation) ltac:(by_evaluation) E)).
      exact He.
  - exfalso. vm_compute in E. discriminate.
  - exfalso. vm_compute in E. discriminate.
Defined.
